(** * Keyboard Maestro MCP server: edit and verification layer

    A shallow embedding of the TypeScript sources
    [src/utils/applescript.ts], [src/tools/macros.ts],
    [src/tools/variables.ts], [src/tools/logs.ts] and the call dispatcher of
    [src/index.ts], followed by the properties established about them.

    Conventions of the embedding.
    - A JavaScript string is a [string]: the sequence of the bytes of its
      UTF-8 form.  White space and line terminators are those of
      ECMAScript, each given by the bytes of its UTF-8 form, so
      [String.prototype.trim], the regex class [\s] and the regex atom [.]
      treat the no-break space, the byte order mark, the line and paragraph
      separators and the other Unicode spaces as the code does.
      [String.prototype.toLowerCase], which rests on the Unicode tables of
      the JavaScript engine, is a function of the host.
    - A JavaScript number that the code uses as a count, an index or a clock
      reading is a [Z]: the integers up to 2^53 in absolute value, which a
      number holds exactly and prints in full; [NaN] is [None] where the
      code can produce it, and an invalid [Date] is [None].
    - The host (child processes, files, the clock, the home and scratch
      directories) is the interface [Runtime]; an operation is a function
      from a world to a result and a world, and a thrown [Error] is its
      message.
    - The engine that runs the scripts is outside the sources.  Where a
      property depends on what a script does once it runs, the engine is
      modelled from the specification, in definitions that say so. *)

From Stdlib Require Import ZArith Ascii String DecimalString DecimalZ
  DecimalPos Lia.
From stdpp Require Import gmap strings list.

Local Open Scope Z_scope.

(* ================================================================== *)
(** * Part I: definitions                                              *)
(* ================================================================== *)

(** ** Characters and strings of the JavaScript runtime *)

Definition dquote : ascii := ascii_of_nat 34.
Definition backslash : ascii := ascii_of_nat 92.
Definition squote : ascii := ascii_of_nat 39.
Definition LF : ascii := ascii_of_nat 10.
Definition CR : ascii := ascii_of_nat 13.
Definition TAB : ascii := ascii_of_nat 9.

Definition str1 (c : ascii) : string := String c EmptyString.

Definition DQ : string := str1 dquote.
Definition BS : string := str1 backslash.
Definition NL : string := str1 LF.

(** [quoted s] is the text [s] between two double quotes, the way the
    templates of the source write an interpolation between quotes. *)
Definition quoted (s : string) : string := DQ +:+ s +:+ DQ.

(** The regex class [\d]. *)
Definition isDigit (c : ascii) : bool :=
  let n := nat_of_ascii c in (48 <=? n)%nat && (n <=? 57)%nat.

(** The letter that the flag [i] of a regex takes an ASCII letter for.
    Under that flag, and without the flag [u], a character outside ASCII is
    never taken for an ASCII letter, so for a pattern of ASCII letters the
    capital and the small letter are the only two characters that match.
    This is not [String.prototype.toLowerCase], which is [toLowerCase] of
    the host below. *)
Definition lowerAscii (c : ascii) : ascii :=
  let n := nat_of_ascii c in
  if (65 <=? n)%nat && (n <=? 90)%nat then ascii_of_nat (n + 32) else c.

Fixpoint lowerAsciiString (s : string) : string :=
  match s with
  | EmptyString => EmptyString
  | String c s' => String (lowerAscii c) (lowerAsciiString s')
  end.

Definition isEmpty (s : string) : bool :=
  match s with EmptyString => true | _ => false end.

(** [s.startsWith(tok)] *)
Fixpoint startsWith (s tok : string) {struct tok} : bool :=
  match tok, s with
  | EmptyString, _ => true
  | String a tok', String b s' => Ascii.eqb a b && startsWith s' tok'
  | String _ _, EmptyString => false
  end.

(** A character given by the bytes of its UTF-8 form. *)
Fixpoint utf8 (bytes : list nat) : string :=
  match bytes with
  | [] => EmptyString
  | b :: rest => String (ascii_of_nat b) (utf8 rest)
  end.

(** The line terminators of ECMAScript: line feed, carriage return, line
    separator (U+2028) and paragraph separator (U+2029). *)
Definition lineTerminators : list string :=
  [utf8 [10]%nat; utf8 [13]%nat;
   utf8 [226; 128; 168]%nat; utf8 [226; 128; 169]%nat].

(** The white space of [String.prototype.trim], of [parseInt] and of the
    regex class [\s]: tab, vertical tab, form feed, space, no-break space
    (U+00A0), byte order mark (U+FEFF), the other space separators (U+1680,
    U+2000 to U+200A, U+202F, U+205F, U+3000), and the line terminators. *)
Definition whiteSpace : list string :=
  [utf8 [9]%nat; utf8 [11]%nat; utf8 [12]%nat; utf8 [32]%nat;
   utf8 [194; 160]%nat; utf8 [239; 187; 191]%nat;
   utf8 [225; 154; 128]%nat;
   utf8 [226; 128; 128]%nat; utf8 [226; 128; 129]%nat;
   utf8 [226; 128; 130]%nat; utf8 [226; 128; 131]%nat;
   utf8 [226; 128; 132]%nat; utf8 [226; 128; 133]%nat;
   utf8 [226; 128; 134]%nat; utf8 [226; 128; 135]%nat;
   utf8 [226; 128; 136]%nat; utf8 [226; 128; 137]%nat;
   utf8 [226; 128; 138]%nat;
   utf8 [226; 128; 175]%nat; utf8 [226; 129; 159]%nat;
   utf8 [227; 128; 128]%nat]
  ++ lineTerminators.

Definition isWhiteSpace (t : string) : bool :=
  existsb (String.eqb t) whiteSpace.

Definition isLineTerminator (t : string) : bool :=
  existsb (String.eqb t) lineTerminators.

(** The number of bytes of the white-space character that [s] starts with;
    zero when it starts with none. *)
Definition spaceLength (s : string) : nat :=
  match List.find (startsWith s) whiteSpace with
  | Some w => String.length w
  | None => O
  end.

(** [s.trimStart()].  [skip] counts the bytes of a white-space character
    still to be passed over. *)
Fixpoint trimStartFrom (skip : nat) (s : string) : string :=
  match s with
  | EmptyString => EmptyString
  | String _ s' =>
      match skip with
      | S k => trimStartFrom k s'
      | O =>
          match spaceLength s with
          | O => s
          | S k => trimStartFrom k s'
          end
      end
  end.

Definition trimStart (s : string) : string := trimStartFrom O s.

(** [s] is made of white-space characters only. *)
Fixpoint allSpaceFrom (skip : nat) (s : string) : bool :=
  match s with
  | EmptyString => match skip with O => true | S _ => false end
  | String _ s' =>
      match skip with
      | S k => allSpaceFrom k s'
      | O =>
          match spaceLength s with
          | O => false
          | S k => allSpaceFrom k s'
          end
      end
  end.

Definition allSpace (s : string) : bool := allSpaceFrom O s.

(** [s.trimEnd()]: what is left of [s] before its last run of white-space
    characters. *)
Fixpoint trimEnd (s : string) : string :=
  match s with
  | EmptyString => EmptyString
  | String c s' => if allSpace s then EmptyString else String c (trimEnd s')
  end.

(** [s.trim()] *)
Definition trim (s : string) : string := trimEnd (trimStart s).

Fixpoint dropStr (n : nat) (s : string) : string :=
  match n, s with
  | O, _ => s
  | S n', String _ s' => dropStr n' s'
  | S _, EmptyString => EmptyString
  end.

Fixpoint takeStr (n : nat) (s : string) : string :=
  match n, s with
  | O, _ => EmptyString
  | S n', String c s' => String c (takeStr n' s')
  | S _, EmptyString => EmptyString
  end.

(** [s.includes(t)] *)
Fixpoint includes (s t : string) : bool :=
  startsWith s t ||
  match s with
  | EmptyString => false
  | String _ s' => includes s' t
  end.

(** [s.replace(/c/g, by)] for a one-character pattern [c]. *)
Fixpoint replaceAll (c : ascii) (by_ : string) (s : string) : string :=
  match s with
  | EmptyString => EmptyString
  | String a s' =>
      if Ascii.eqb a c then by_ +:+ replaceAll c by_ s'
      else String a (replaceAll c by_ s')
  end.

(** [s.split(sep)] for a separator of at least one character: the pieces
    between the occurrences of [sep], found from the left without overlap.
    [skip] counts the characters of a separator still to be passed over and
    [cur] holds the piece being read, last character first. *)
Fixpoint revStr (acc s : string) : string :=
  match s with
  | EmptyString => acc
  | String c s' => revStr (String c acc) s'
  end.

Fixpoint splitAux (sep : string) (skip : nat) (cur : string) (s : string)
  : list string :=
  match s with
  | EmptyString => [revStr EmptyString cur]
  | String c s' =>
      match skip with
      | S k => splitAux sep k cur s'
      | O =>
          if startsWith s sep
          then revStr EmptyString cur
                 :: splitAux sep (String.length sep - 1) EmptyString s'
          else splitAux sep O (String c cur) s'
      end
  end.

Definition split (sep s : string) : list string := splitAux sep O EmptyString s.

(** Template interpolation [`${n}`] of an integer up to 2^53 in absolute
    value: its decimal digits.  The counts, the 1-based indices and the
    clock readings that the templates print are in that range; a number
    beyond it prints rounded, and in exponent form from 10^21 on, which is
    outside this embedding. *)
Definition numberToString (n : Z) : string :=
  NilEmpty.string_of_int (Z.to_int n).

(** The number that holds an integer.  A number holds the integers below
    2^53 in absolute value as they are; a larger one is rounded to 53
    significant bits, to the even neighbour on a tie, and [infinity] stands
    for what lies beyond the largest number. *)
Definition infinity : Z := 2 ^ 1024.

Definition roundToDouble (n : Z) : Z :=
  let a := Z.abs n in
  if a <? 2 ^ 53 then n
  else
    let e := Z.log2 a - 52 in
    let q := a / 2 ^ e in
    let r := a mod 2 ^ e in
    let half := 2 ^ (e - 1) in
    let q' :=
      if r <? half then q
      else if half <? r then q + 1
      else if Z.even q then q else q + 1 in
    let v := q' * 2 ^ e in
    Z.sgn n * (if infinity <=? v then infinity else v).

(** [parseInt(s)]: leading white space, an optional sign, then the longest
    run of digits (hexadecimal after a [0x] prefix); the result is the
    number that holds their value; [None] is [NaN]. *)
Definition digitValue (radix : Z) (c : ascii) : option Z :=
  let n := Z.of_nat (nat_of_ascii c) in
  let v :=
    if (48 <=? n) && (n <=? 57) then Some (n - 48)
    else if (97 <=? n) && (n <=? 122) then Some (n - 87)
    else if (65 <=? n) && (n <=? 90) then Some (n - 55)
    else None in
  match v with
  | Some d => if d <? radix then Some d else None
  | None => None
  end.

Fixpoint parseDigits (radix : Z) (acc : option Z) (s : string) : option Z :=
  match s with
  | EmptyString => acc
  | String c s' =>
      match digitValue radix c with
      | Some d =>
          parseDigits radix (Some (radix * default 0 acc + d)) s'
      | None => acc
      end
  end.

Definition parseInt (s : string) : option Z :=
  let t := trimStart s in
  let '(neg, t1) :=
    match t with
    | String c t' =>
        if Ascii.eqb c "-" then (true, t')
        else if Ascii.eqb c "+" then (false, t')
        else (false, t)
    | EmptyString => (false, t)
    end in
  let '(radix, t2) :=
    if startsWith t1 "0x" || startsWith t1 "0X" then (16, dropStr 2 t1)
    else (10, t1) in
  match parseDigits radix None t2 with
  | Some v => Some (roundToDouble (if neg then - v else v))
  | None => None
  end.

(** [parseInt(s) || 0] *)
Definition parseIntOr0 (s : string) : Z := default 0 (parseInt s).

(** ** Payload envelope ([macros.ts], [wrapXmlInPlist]) *)

Definition xmlDeclaration : string :=
  "<?xml version=" +:+ quoted "1.0" +:+ " encoding=" +:+ quoted "UTF-8" +:+ "?>".

Definition plistDoctype : string :=
  "<!DOCTYPE plist PUBLIC " +:+ quoted "-//Apple//DTD PLIST 1.0//EN" +:+ " "
  +:+ quoted "http://www.apple.com/DTDs/PropertyList-1.0.dtd" +:+ ">".

Definition plistOpen : string := "<plist version=" +:+ quoted "1.0" +:+ ">".

Definition plistClose : string := "</plist>".

Definition wrapXmlInPlist (xml : string) : string :=
  let trimmed := trim xml in
  if startsWith trimmed "<?xml" || startsWith trimmed "<!DOCTYPE"
     || startsWith trimmed "<plist"
  then trimmed
  else xmlDeclaration +:+ NL +:+ plistDoctype +:+ NL +:+ plistOpen +:+ NL
       +:+ trimmed +:+ NL +:+ plistClose.

(** ** The host and the monad of operations *)

(** The outcome of a call that may throw; an [Error] is its message. *)
Inductive Result (A : Type) : Type :=
| Ok (a : A)
| Throw (msg : string).
Arguments Ok {A} a.
Arguments Throw {A} msg.

(** What an operation asks of the host, in the order it asks. *)
Inductive Event : Type :=
| EvExec (command : string)
| EvWrite (path content : string)
| EvUnlink (path : string)
| EvRead (path : string).

(** The host interface: [child_process.exec] (promisified), [fs], [os],
    [Date], and [String.prototype.toLowerCase] with the Unicode tables of
    the JavaScript engine.  [Ext] is everything outside the server: the
    engine, the file system, the clock. *)
Class Runtime (Ext : Type) : Type := {
  execAsync : string -> Ext -> Result (string * string) * Ext;
  writeFileSync : string -> string -> Ext -> Result () * Ext;
  unlinkSync : string -> Ext -> Result () * Ext;
  readFile : string -> Ext -> Result string * Ext;
  dateNow : Ext -> Z;
  dateParse : string -> option Z;
  toLowerCase : string -> string;
  tmpdir : string;
  homedir : string
}.

(** The world of an operation: what is outside the server, the requests
    made to the host so far, and whether [Object.prototype] of the server
    process has received the fields [count], [lastError] and [lastTime]
    (see [tallyStep]). *)
Record World (Ext : Type) : Type := mkWorld {
  ext : Ext;
  trace : list Event;
  prototypePolluted : bool
}.
Arguments mkWorld {Ext} ext trace prototypePolluted.
Arguments ext {Ext} w.
Arguments trace {Ext} w.
Arguments prototypePolluted {Ext} w.

Definition M (Ext A : Type) : Type := World Ext -> Result A * World Ext.

Definition ret {Ext A} (a : A) : M Ext A := fun w => (Ok a, w).

Definition throw {Ext A} (msg : string) : M Ext A := fun w => (Throw msg, w).

Definition bind {Ext A B} (m : M Ext A) (k : A -> M Ext B) : M Ext B :=
  fun w =>
    match m w with
    | (Ok a, w') => k a w'
    | (Throw e, w') => (Throw e, w')
    end.

Notation "x <- m ;; k" := (bind m (fun x => k))
  (at level 100, m at next level, right associativity).
Notation "m ;;; k" := (bind m (fun _ => k))
  (at level 100, right associativity).

(** [try { m } catch (error) { h error.message }] *)
Definition tryCatch {Ext A} (m : M Ext A) (h : string -> M Ext A) : M Ext A :=
  fun w =>
    match m w with
    | (Ok a, w') => (Ok a, w')
    | (Throw e, w') => h e w'
    end.

(** [try { m } finally { f }]: [f] runs on every exit of [m]; the outcome
    is that of [m] unless [f] itself throws. *)
Definition tryFinally {Ext A} (m : M Ext A) (f : M Ext ()) : M Ext A :=
  fun w =>
    match m w with
    | (r, w') =>
        match f w' with
        | (Ok _, w'') => (r, w'')
        | (Throw e, w'') => (Throw e, w'')
        end
    end.

Section Host.

Context {Ext : Type} `{Runtime Ext}.

Definition emit (e : Event) (w : World Ext) (x : Ext) : World Ext :=
  mkWorld x (trace w ++ [e]) (prototypePolluted w).

Definition exec (command : string) : M Ext (string * string) :=
  fun w =>
    let '(r, x) := execAsync command (ext w) in
    (r, emit (EvExec command) w x).

Definition writeFile (path content : string) : M Ext () :=
  fun w =>
    let '(r, x) := writeFileSync path content (ext w) in
    (r, emit (EvWrite path content) w x).

Definition unlink (path : string) : M Ext () :=
  fun w =>
    let '(r, x) := unlinkSync path (ext w) in
    (r, emit (EvUnlink path) w x).

Definition readFileUtf8 (path : string) : M Ext string :=
  fun w =>
    let '(r, x) := readFile path (ext w) in
    (r, emit (EvRead path) w x).

(** [Date.now()] *)
Definition now : M Ext Z := fun w => (Ok (dateNow (ext w)), w).

(** [path.join(dir, name)] for a normalised [dir] and a plain file name. *)
Definition pathJoin (dir name : string) : string := dir +:+ "/" +:+ name.

(** *** [applescript.ts] *)

(** The shell command of [runAppleScript]: the script between single
    quotes, each single quote of the script written as quote, backslash,
    quote, quote. *)
Definition osascriptCommand (script : string) : string :=
  "osascript -e " +:+ str1 squote
    +:+ replaceAll squote (str1 squote +:+ BS +:+ str1 squote +:+ str1 squote) script
    +:+ str1 squote.

(** The shell command of [runAppleScriptFile]: the script as a here
    document. *)
Definition osascriptHeredoc (script : string) : string :=
  "osascript <<" +:+ str1 squote +:+ "APPLESCRIPT" +:+ str1 squote +:+ NL
    +:+ script +:+ NL +:+ "APPLESCRIPT".

(** The diagnostic written for a non-empty [stderr] is not modelled: it
    does not reach the caller. *)
Definition runAppleScript (script : string) : M Ext string :=
  tryCatch
    (out <- exec (osascriptCommand script) ;; ret (trim (fst out)))
    (fun e => throw ("AppleScript error: " +:+ e)).

Definition runAppleScriptFile (script : string) : M Ext string :=
  tryCatch
    (out <- exec (osascriptHeredoc script) ;; ret (trim (fst out)))
    (fun e => throw ("AppleScript error: " +:+ e)).

(** *** Payload exchange ([macros.ts]) *)

Definition tempPathAt (t : Z) : string :=
  pathJoin tmpdir ("km_action_" +:+ numberToString t +:+ ".plist").

Definition writeTempXml (xml : string) : M Ext string :=
  t <- now ;;
  let tempPath := tempPathAt t in
  writeFile tempPath (wrapXmlInPlist xml) ;;;
  ret tempPath.

Definition cleanupTempFile (filePath : string) : M Ext () :=
  tryCatch (unlink filePath) (fun _ => ret ()).

End Host.

(** ** Control scripts ([macros.ts], [variables.ts])

    Each builder is the template literal of the operation of the same name;
    [quoted x] stands where the template interpolates [x] between quotes. *)

Definition tellEditor : string :=
  NL +:+ "tell application " +:+ quoted "Keyboard Maestro" +:+ NL.

Definition tellEngine : string :=
  "tell application " +:+ quoted "Keyboard Maestro Engine".

Definition macroRef (identifier : string) : string :=
  "first macro whose name is " +:+ quoted identifier
    +:+ " or id is " +:+ quoted identifier.

Definition setTheMacro (identifier : string) : string :=
  "  set theMacro to " +:+ macroRef identifier +:+ NL.

Definition readPayload (tempPath : string) : string :=
  NL +:+ "set xmlContent to read POSIX file " +:+ quoted tempPath
    +:+ " as «class utf8»".

Definition boolToString (b : bool) : string := if b then "true" else "false".

(** The [replace] most operations apply: a backslash is put before each
    double quote. *)
Definition escapeQuotes (s : string) : string :=
  replaceAll dquote (BS +:+ DQ) s.

(** The two [replace] calls of [searchReplaceInAction]: each backslash is
    doubled, then a backslash is put before each double quote. *)
Definition escapeBackslashesAndQuotes (s : string) : string :=
  replaceAll dquote (BS +:+ DQ) (replaceAll backslash (BS +:+ BS) s).

Definition getMacroScript (identifier : string) : string :=
  tellEditor +:+ setTheMacro identifier
  +:+ "  return name of theMacro & " +:+ quoted "|" +:+ " & id of theMacro & "
  +:+ quoted "|" +:+ " & enabled of theMacro" +:+ NL
  +:+ "end tell".

Definition getMacroXmlScript (identifier : string) : string :=
  tellEditor +:+ setTheMacro identifier
  +:+ "  return xml of theMacro" +:+ NL
  +:+ "end tell".

Definition createMacroScript (name : string) (groupName : option string)
  : string :=
  let escapedName := escapeQuotes name in
  match groupName with
  | Some g =>
      if isEmpty g then
        tellEditor
        +:+ "  set newMacro to make new macro with properties {name:"
        +:+ quoted escapedName +:+ "}" +:+ NL
        +:+ "  return id of newMacro" +:+ NL
        +:+ "end tell"
      else
        tellEditor
        +:+ "  set newMacro to make new macro with properties {name:"
        +:+ quoted escapedName +:+ "}" +:+ NL
        +:+ "  set macroId to id of newMacro" +:+ NL
        +:+ "  move newMacro to macro group " +:+ quoted (escapeQuotes g) +:+ NL
        +:+ "  return macroId" +:+ NL
        +:+ "end tell"
  | None =>
      tellEditor
      +:+ "  set newMacro to make new macro with properties {name:"
      +:+ quoted escapedName +:+ "}" +:+ NL
      +:+ "  return id of newMacro" +:+ NL
      +:+ "end tell"
  end.

Definition searchMacrosScript (query : string) : string :=
  let escapedQuery := escapeQuotes query in
  tellEditor
  +:+ "  set oldDelims to AppleScript's text item delimiters" +:+ NL
  +:+ "  set AppleScript's text item delimiters to " +:+ quoted ";;;" +:+ NL
  +:+ "  " +:+ NL
  +:+ "  set matchMacros to every macro whose name contains "
  +:+ quoted escapedQuery +:+ NL
  +:+ "  " +:+ NL
  +:+ "  set resultList to {}" +:+ NL
  +:+ "  repeat with aMacro in matchMacros" +:+ NL
  +:+ "    set end of resultList to (name of aMacro) & " +:+ quoted "|||"
  +:+ " & (id of aMacro)" +:+ NL
  +:+ "  end repeat" +:+ NL
  +:+ "  " +:+ NL
  +:+ "  set output to resultList as text" +:+ NL
  +:+ "  set AppleScript's text item delimiters to oldDelims" +:+ NL
  +:+ "  return output" +:+ NL
  +:+ "end tell".

Definition listMacrosScript : string :=
  tellEditor
  +:+ "  set oldDelims to AppleScript's text item delimiters" +:+ NL
  +:+ "  set AppleScript's text item delimiters to " +:+ quoted ";;;" +:+ NL
  +:+ "  " +:+ NL
  +:+ "  set idList to id of every macro" +:+ NL
  +:+ "  set nameList to name of every macro" +:+ NL
  +:+ "  set countMacros to count of idList" +:+ NL
  +:+ "  " +:+ NL
  +:+ "  set resultList to {}" +:+ NL
  +:+ "  repeat with i from 1 to countMacros" +:+ NL
  +:+ "    set end of resultList to (item i of nameList) & " +:+ quoted "|||"
  +:+ " & (item i of idList)" +:+ NL
  +:+ "  end repeat" +:+ NL
  +:+ "  " +:+ NL
  +:+ "  set output to resultList as text" +:+ NL
  +:+ "  set AppleScript's text item delimiters to oldDelims" +:+ NL
  +:+ "  return output" +:+ NL
  +:+ "end tell".

Definition listGroupsScript : string :=
  tellEditor
  +:+ "  set oldDelims to AppleScript's text item delimiters" +:+ NL
  +:+ "  set AppleScript's text item delimiters to " +:+ quoted ";;;" +:+ NL
  +:+ "  set groupList to {}" +:+ NL
  +:+ "  repeat with aGroup in macro groups" +:+ NL
  +:+ "    set end of groupList to (name of aGroup & " +:+ quoted "|||"
  +:+ " & id of aGroup)" +:+ NL
  +:+ "  end repeat" +:+ NL
  +:+ "  set resultList to groupList as text" +:+ NL
  +:+ "  set AppleScript's text item delimiters to oldDelims" +:+ NL
  +:+ "  return resultList" +:+ NL
  +:+ "end tell".

Definition listActionsScript (macroIdentifier : string) : string :=
  tellEditor +:+ setTheMacro macroIdentifier
  +:+ "  set resultList to {}" +:+ NL
  +:+ "  set actionCount to count of actions of theMacro" +:+ NL
  +:+ "  " +:+ NL
  +:+ "  repeat with i from 1 to actionCount" +:+ NL
  +:+ "    set theAction to action i of theMacro" +:+ NL
  +:+ "    set actionName to name of theAction" +:+ NL
  +:+ "    set actionEnabled to enabled of theAction" +:+ NL
  +:+ "    set end of resultList to (i as text) & " +:+ quoted "|||"
  +:+ " & actionName & " +:+ quoted "|||" +:+ " & (actionEnabled as text)" +:+ NL
  +:+ "  end repeat" +:+ NL
  +:+ "  " +:+ NL
  +:+ "  set oldDelims to AppleScript's text item delimiters" +:+ NL
  +:+ "  set AppleScript's text item delimiters to " +:+ quoted ";;;" +:+ NL
  +:+ "  set output to resultList as text" +:+ NL
  +:+ "  set AppleScript's text item delimiters to oldDelims" +:+ NL
  +:+ "  return output" +:+ NL
  +:+ "end tell".

Definition countActionsScript (macroIdentifier : string) : string :=
  tellEditor +:+ setTheMacro macroIdentifier
  +:+ "  return count of actions of theMacro" +:+ NL
  +:+ "end tell".

Definition addActionScript (tempPath macroIdentifier : string) : string :=
  readPayload tempPath
  +:+ tellEditor +:+ setTheMacro macroIdentifier
  +:+ "  tell theMacro" +:+ NL
  +:+ "    make new action with properties {xml:xmlContent}" +:+ NL
  +:+ "  end tell" +:+ NL
  +:+ "end tell".

Definition addTriggerScript (tempPath macroIdentifier : string) : string :=
  readPayload tempPath
  +:+ tellEditor +:+ setTheMacro macroIdentifier
  +:+ "  tell theMacro" +:+ NL
  +:+ "    make new trigger with properties {xml:xmlContent}" +:+ NL
  +:+ "  end tell" +:+ NL
  +:+ "end tell".

Definition deleteTriggerScript (macroIdentifier : string) (triggerIndex : Z)
  : string :=
  tellEditor +:+ setTheMacro macroIdentifier
  +:+ "  tell theMacro" +:+ NL
  +:+ "    delete trigger " +:+ numberToString triggerIndex +:+ NL
  +:+ "  end tell" +:+ NL
  +:+ "end tell".

Definition deleteMacroScript (identifier : string) : string :=
  tellEditor
  +:+ "  delete (" +:+ macroRef identifier +:+ ")" +:+ NL
  +:+ "end tell".

Definition setMacroEnabledScript (identifier : string) (enabled : bool)
  : string :=
  tellEditor
  +:+ "  set enabled of (" +:+ macroRef identifier +:+ ") to "
  +:+ boolToString enabled +:+ NL
  +:+ "end tell".

Definition executeMacroScript (identifier : string) (parameter : option string)
  : string :=
  match parameter with
  | Some p =>
      if isEmpty p then
        tellEngine +:+ " to do script " +:+ quoted identifier
      else
        tellEngine +:+ " to do script " +:+ quoted identifier
        +:+ " with parameter " +:+ quoted p
  | None => tellEngine +:+ " to do script " +:+ quoted identifier
  end.

Definition getActionXmlScript (macroIdentifier : string) (actionIndex : Z)
  : string :=
  tellEditor +:+ setTheMacro macroIdentifier
  +:+ "  tell theMacro" +:+ NL
  +:+ "    return xml of action " +:+ numberToString actionIndex +:+ NL
  +:+ "  end tell" +:+ NL
  +:+ "end tell".

Definition setActionXmlScript (tempPath macroIdentifier : string)
    (actionIndex : Z) : string :=
  readPayload tempPath
  +:+ tellEditor +:+ setTheMacro macroIdentifier
  +:+ "  tell theMacro" +:+ NL
  +:+ "    set xml of action " +:+ numberToString actionIndex
  +:+ " to xmlContent" +:+ NL
  +:+ "  end tell" +:+ NL
  +:+ "end tell".

Definition deleteActionScript (macroIdentifier : string) (actionIndex : Z)
  : string :=
  tellEditor +:+ setTheMacro macroIdentifier
  +:+ "  tell theMacro" +:+ NL
  +:+ "    delete action " +:+ numberToString actionIndex +:+ NL
  +:+ "  end tell" +:+ NL
  +:+ "end tell".

Definition searchReplaceScript (macroIdentifier : string) (actionIndex : Z)
    (searchText replaceText : string) : string :=
  let escapedSearch := escapeBackslashesAndQuotes searchText in
  let escapedReplace := escapeBackslashesAndQuotes replaceText in
  tellEditor +:+ setTheMacro macroIdentifier
  +:+ "  tell theMacro" +:+ NL
  +:+ "    set theXML to xml of action " +:+ numberToString actionIndex +:+ NL
  +:+ "    " +:+ tellEngine +:+ NL
  +:+ "      set fixedXML to search theXML for " +:+ quoted escapedSearch
  +:+ " replace " +:+ quoted escapedReplace
  +:+ " regex false case sensitive true process tokens false" +:+ NL
  +:+ "    end tell" +:+ NL
  +:+ "    set xml of action " +:+ numberToString actionIndex
  +:+ " to fixedXML" +:+ NL
  +:+ "  end tell" +:+ NL
  +:+ "end tell".

Definition getTriggerXmlScript (macroIdentifier : string) (triggerIndex : Z)
  : string :=
  tellEditor +:+ setTheMacro macroIdentifier
  +:+ "  tell theMacro" +:+ NL
  +:+ "    return xml of trigger " +:+ numberToString triggerIndex +:+ NL
  +:+ "  end tell" +:+ NL
  +:+ "end tell".

Definition setTriggerXmlScript (tempPath macroIdentifier : string)
    (triggerIndex : Z) : string :=
  readPayload tempPath
  +:+ tellEditor +:+ setTheMacro macroIdentifier
  +:+ "  tell theMacro" +:+ NL
  +:+ "    set xml of trigger " +:+ numberToString triggerIndex
  +:+ " to xmlContent" +:+ NL
  +:+ "  end tell" +:+ NL
  +:+ "end tell".

Definition getVariableScript (name : string) : string :=
  tellEngine +:+ " to getvariable " +:+ quoted name.

Definition setVariableScript (name value : string) : string :=
  let escapedValue := escapeQuotes value in
  tellEngine +:+ " to setvariable " +:+ quoted name +:+ " to "
  +:+ quoted escapedValue.

Definition deleteVariableScript (name : string) : string :=
  tellEngine +:+ " to setvariable " +:+ quoted name +:+ " to "
  +:+ quoted "%Delete%".

(** The script of [moveAction]. *)
Definition moveActionScript (macroIdentifier : string)
    (actionIndex newIndex : Z) : string :=
  tellEditor +:+ setTheMacro macroIdentifier
  +:+ "  tell theMacro" +:+ NL
  +:+ "    if " +:+ numberToString newIndex +:+ " > count of actions then" +:+ NL
  +:+ "      move action " +:+ numberToString actionIndex
  +:+ " to after last action" +:+ NL
  +:+ "    else" +:+ NL
  +:+ "      move action " +:+ numberToString actionIndex
  +:+ " to before action " +:+ numberToString newIndex +:+ NL
  +:+ "    end if" +:+ NL
  +:+ "  end tell" +:+ NL
  +:+ "end tell".

(** *** The commands of the engine that the move script uses

    The engine and its scripting language are outside the sources.  The
    commands below are the two that the template of [moveAction] writes
    inside [tell theMacro]; [printCommand] writes a command as the text of
    the template, and [moveActionCommand] is the command of the
    template. *)

(** Modelled from the spec: the place the engine moves an action to,
    after the last action or before the action at a 1-based position. *)
Inductive Location : Type :=
| AfterLastAction
| BeforeAction (index : Z).

(** Modelled from the spec: a command of the engine inside
    [tell theMacro]: a move of the action at a position, or a test of a
    number against the number of actions, with a command for each
    outcome. *)
Inductive Command : Type :=
| MoveAction (index : Z) (target : Location)
| IfGreaterThanCount (n : Z) (thenCmd elseCmd : Command).

Definition moveActionCommand (actionIndex newIndex : Z) : Command :=
  IfGreaterThanCount newIndex
    (MoveAction actionIndex AfterLastAction)
    (MoveAction actionIndex (BeforeAction newIndex)).

Definition printLocation (l : Location) : string :=
  match l with
  | AfterLastAction => "after last action"
  | BeforeAction j => "before action " +:+ numberToString j
  end.

Fixpoint indent (n : nat) : string :=
  match n with
  | O => EmptyString
  | S n' => String " " (indent n')
  end.

Fixpoint printCommand (depth : nat) (c : Command) : string :=
  match c with
  | MoveAction i l =>
      indent depth +:+ "move action " +:+ numberToString i +:+ " to "
      +:+ printLocation l +:+ NL
  | IfGreaterThanCount n c1 c2 =>
      indent depth +:+ "if " +:+ numberToString n
      +:+ " > count of actions then" +:+ NL
      +:+ printCommand (depth + 2) c1
      +:+ indent depth +:+ "else" +:+ NL
      +:+ printCommand (depth + 2) c2
      +:+ indent depth +:+ "end if" +:+ NL
  end.

(** *** What the engine does with a command

    The engine that runs the scripts is outside the sources; what it does
    with the commands of the move script is taken from the specification:
    the actions of a macro are a sequence addressed by 1-based positions
    that stay contiguous, moving an element renumbers the elements after
    the affected position, and a position beyond the last action is out
    of range. *)
Section Engine.

Context {A : Type}.

(** Modelled from the spec: the engine's [action index of theMacro], which
    is outside the sources.  Positions are 1-based, and a position below 1
    or beyond the number of actions refers to no action. *)
Definition actionAt (actions : list A) (index : Z) : option A :=
  if (1 <=? index) && (index <=? Z.of_nat (length actions))
  then actions !! Z.to_nat (index - 1)
  else None.

(** Modelled from the spec: the engine's sequence of actions without the
    action at a position, the actions after it renumbered. *)
Definition removeAt (actions : list A) (index : Z) : list A :=
  take (Z.to_nat (index - 1)) actions ++ drop (Z.to_nat index) actions.

(** Modelled from the spec: the engine's sequence of actions with one
    more action, put before the one at the 0-based position [pos]. *)
Definition insertBefore (actions : list A) (pos : nat) (a : A) : list A :=
  take pos actions ++ a :: drop pos actions.

(** Modelled from the spec: the engine's command [move action index to
    target], which is outside the sources.  A reference to an action that
    does not exist is an out-of-range error of the script; moving an
    action after the last one or before another one leaves the other
    actions in their order. *)
Definition moveTo (actions : list A) (index : Z) (target : Location)
  : Result (list A) :=
  match actionAt actions index with
  | None => Throw "Can't get action: invalid index"
  | Some a =>
      match target with
      | AfterLastAction => Ok (removeAt actions index ++ [a])
      | BeforeAction j =>
          match actionAt actions j with
          | None => Throw "Can't get action: invalid index"
          | Some _ =>
              if index =? j then Ok actions
              else
                let pos := if index <? j then j - 2 else j - 1 in
                Ok (insertBefore (removeAt actions index) (Z.to_nat pos) a)
          end
      end
  end.

(** Modelled from the spec: the engine running a command inside
    [tell theMacro], on the ordered actions of that macro; [count of
    actions] is their number. *)
Fixpoint runCommand (c : Command) (actions : list A) : Result (list A) :=
  match c with
  | MoveAction i target => moveTo actions i target
  | IfGreaterThanCount n c1 c2 =>
      if Z.of_nat (length actions) <? n then runCommand c1 actions
      else runCommand c2 actions
  end.

End Engine.

(** ** Decoding list results ([macros.ts]) *)

Record MacroInfo : Type := mkMacroInfo {
  name : string;
  uid : string
}.

Record ActionInfo : Type := mkActionInfo {
  actionIndex : option Z;
  actionName : option string;
  actionEnabled : bool
}.

(** The [map] of [listMacros] and of [searchMacros]. *)
Definition decodeMacro (item : string) : MacroInfo :=
  let parts := split "|||" item in
  {| name := default EmptyString (parts !! 0%nat);
     uid := default EmptyString (parts !! 1%nat) |}.

(** The [map] of [listGroups]. *)
Definition decodeGroup (item : string) : MacroInfo :=
  let parts := split "|||" item in
  {| name := default EmptyString (trim <$> parts !! 0%nat);
     uid := default EmptyString (trim <$> parts !! 1%nat) |}.

(** The [map] of [listActions]. *)
Definition decodeAction (item : string) : ActionInfo :=
  let parts := split "|||" item in
  {| actionIndex := parseInt (default EmptyString (parts !! 0%nat));
     actionName := parts !! 1%nat;
     actionEnabled :=
       match parts !! 2%nat with
       | Some e => String.eqb e "true"
       | None => false
       end |}.

Definition decodeMacros (result : string) : list MacroInfo :=
  if isEmpty (trim result) then []
  else decodeMacro <$> split ";;;" result.

Definition decodeGroups (result : string) : list MacroInfo :=
  if isEmpty (trim result) then []
  else filter (fun g => negb (isEmpty (name g)) = true)
         (decodeGroup <$> split ";;;" result).

Definition decodeActions (result : string) : list ActionInfo :=
  if isEmpty (trim result) then []
  else decodeAction <$> split ";;;" result.

(** ** Operations on macros and variables ([macros.ts], [variables.ts]) *)

(** [JSON.stringify] of a string. *)
Definition hexDigit (n : nat) : ascii :=
  if (n <? 10)%nat then ascii_of_nat (48 + n) else ascii_of_nat (87 + n).

Definition jsonEscapeChar (c : ascii) : string :=
  let n := nat_of_ascii c in
  if Ascii.eqb c dquote then BS +:+ DQ
  else if Ascii.eqb c backslash then BS +:+ BS
  else if (n =? 8)%nat then BS +:+ "b"
  else if (n =? 9)%nat then BS +:+ "t"
  else if (n =? 10)%nat then BS +:+ "n"
  else if (n =? 12)%nat then BS +:+ "f"
  else if (n =? 13)%nat then BS +:+ "r"
  else if (n <? 32)%nat then
    BS +:+ "u00" +:+ str1 (hexDigit (n / 16)) +:+ str1 (hexDigit (n mod 16))
  else str1 c.

Fixpoint jsonEscape (s : string) : string :=
  match s with
  | EmptyString => EmptyString
  | String c s' => jsonEscapeChar c +:+ jsonEscape s'
  end.

Definition jsonString (s : string) : string := quoted (jsonEscape s).

Section Operations.

Context {Ext : Type} `{Runtime Ext}.

Definition listMacros : M Ext (list MacroInfo) :=
  tryCatch
    (result <- runAppleScriptFile listMacrosScript ;;
     ret (decodeMacros result))
    (fun e => throw ("Failed to list macros: " +:+ e)).

Definition searchMacros (query : string) : M Ext (list MacroInfo) :=
  tryCatch
    (result <- runAppleScriptFile (searchMacrosScript query) ;;
     ret (decodeMacros result))
    (fun e => throw ("Failed to search macros: " +:+ e)).

Definition listGroups : M Ext (list MacroInfo) :=
  tryCatch
    (result <- runAppleScriptFile listGroupsScript ;;
     ret (decodeGroups result))
    (fun e => throw ("Failed to list groups: " +:+ e)).

Definition listActions (macroIdentifier : string) : M Ext (list ActionInfo) :=
  tryCatch
    (result <- runAppleScriptFile (listActionsScript macroIdentifier) ;;
     ret (decodeActions result))
    (fun e => throw ("Failed to list actions: " +:+ e)).

Definition getMacro (identifier : string) : M Ext string :=
  tryCatch
    (result <- runAppleScriptFile (getMacroScript identifier) ;;
     let parts := split "|" result in
     let enabled :=
       match parts !! 2%nat with
       | Some e => String.eqb e "true"
       | None => false
       end in
     ret ("{" +:+ quoted "name" +:+ ":"
          +:+ jsonString (default EmptyString (parts !! 0%nat))
          +:+ match parts !! 1%nat with
              | Some u => "," +:+ quoted "uid" +:+ ":" +:+ jsonString u
              | None => EmptyString
              end
          +:+ "," +:+ quoted "enabled" +:+ ":" +:+ boolToString enabled
          +:+ "}"))
    (fun e => throw ("Failed to get macro: " +:+ e)).

Definition getMacroXml (identifier : string) : M Ext string :=
  tryCatch
    (runAppleScriptFile (getMacroXmlScript identifier))
    (fun e => throw ("Failed to get macro XML: " +:+ e)).

(** The [try] block of [addAction]. *)
Definition addActionAttempt (tempPath macroIdentifier : string)
  : M Ext string :=
  let countScript := countActionsScript macroIdentifier in
  before <- runAppleScriptFile countScript ;;
  let beforeCount := parseIntOr0 before in
  runAppleScriptFile (addActionScript tempPath macroIdentifier) ;;;
  after <- runAppleScriptFile countScript ;;
  let afterCount := parseIntOr0 after in
  if afterCount <=? beforeCount
  then throw "Action was not created - XML may be invalid or malformed"
  else ret ("Action added to macro " +:+ quoted macroIdentifier).

Definition addAction (macroIdentifier actionXml : string) : M Ext string :=
  tempPath <- writeTempXml actionXml ;;
  tryFinally
    (tryCatch (addActionAttempt tempPath macroIdentifier)
       (fun e => throw ("Failed to add action: " +:+ e)))
    (cleanupTempFile tempPath).

Definition createMacro (name : string) (actionXml groupName : option string)
  : M Ext string :=
  tryCatch
    (macroId <- runAppleScriptFile (createMacroScript name groupName) ;;
     match actionXml with
     | Some xml =>
         if isEmpty xml then ret ()
         else (addAction macroId xml ;;; ret ())
     | None => ret ()
     end ;;;
     ret ("Macro " +:+ quoted name +:+ " created successfully with ID: "
          +:+ macroId))
    (fun e => throw ("Failed to create macro: " +:+ e)).

Definition addTrigger (macroIdentifier triggerXml : string) : M Ext string :=
  tempPath <- writeTempXml triggerXml ;;
  tryFinally
    (tryCatch
       (runAppleScriptFile (addTriggerScript tempPath macroIdentifier) ;;;
        ret ("Trigger added to macro " +:+ quoted macroIdentifier))
       (fun e => throw ("Failed to add trigger: " +:+ e)))
    (cleanupTempFile tempPath).

Definition deleteTrigger (macroIdentifier : string) (triggerIndex : Z)
  : M Ext string :=
  tryCatch
    (runAppleScriptFile (deleteTriggerScript macroIdentifier triggerIndex) ;;;
     ret ("Trigger " +:+ numberToString triggerIndex
          +:+ " deleted from macro " +:+ quoted macroIdentifier))
    (fun e => throw ("Failed to delete trigger: " +:+ e)).

Definition deleteMacro (identifier : string) : M Ext string :=
  tryCatch
    (runAppleScriptFile (deleteMacroScript identifier) ;;;
     ret ("Macro " +:+ quoted identifier +:+ " deleted successfully"))
    (fun e => throw ("Failed to delete macro: " +:+ e)).

Definition setMacroEnabled (identifier : string) (enabled : bool)
  : M Ext string :=
  tryCatch
    (runAppleScriptFile (setMacroEnabledScript identifier enabled) ;;;
     ret ("Macro " +:+ quoted identifier +:+ " "
          +:+ (if enabled then "enabled" else "disabled")
          +:+ " successfully"))
    (fun e => throw ("Failed to " +:+ (if enabled then "enable" else "disable")
                     +:+ " macro: " +:+ e)).

Definition executeMacro (identifier : string) (parameter : option string)
  : M Ext string :=
  tryCatch
    (runAppleScript (executeMacroScript identifier parameter) ;;;
     ret ("Macro " +:+ quoted identifier +:+ " executed successfully"))
    (fun e => throw ("Failed to execute macro: " +:+ e)).

Definition getActionXml (macroIdentifier : string) (actionIndex : Z)
  : M Ext string :=
  tryCatch
    (runAppleScriptFile (getActionXmlScript macroIdentifier actionIndex))
    (fun e => throw ("Failed to get action XML: " +:+ e)).

Definition setActionXml (macroIdentifier : string) (actionIndex : Z)
    (xml : string) : M Ext string :=
  tempPath <- writeTempXml xml ;;
  tryFinally
    (tryCatch
       (runAppleScriptFile
          (setActionXmlScript tempPath macroIdentifier actionIndex) ;;;
        ret ("Action " +:+ numberToString actionIndex +:+ " in macro "
             +:+ quoted macroIdentifier +:+ " updated successfully"))
       (fun e => throw ("Failed to set action XML: " +:+ e)))
    (cleanupTempFile tempPath).

Definition deleteAction (macroIdentifier : string) (actionIndex : Z)
  : M Ext string :=
  tryCatch
    (runAppleScriptFile (deleteActionScript macroIdentifier actionIndex) ;;;
     ret ("Action " +:+ numberToString actionIndex
          +:+ " deleted from macro " +:+ quoted macroIdentifier))
    (fun e => throw ("Failed to delete action: " +:+ e)).

Definition searchReplaceInAction (macroIdentifier : string) (actionIndex : Z)
    (searchText replaceText : string) : M Ext string :=
  tryCatch
    (runAppleScriptFile
       (searchReplaceScript macroIdentifier actionIndex
          searchText replaceText) ;;;
     ret ("Replaced " +:+ quoted searchText +:+ " with "
          +:+ quoted replaceText +:+ " in action "
          +:+ numberToString actionIndex +:+ " of macro "
          +:+ quoted macroIdentifier))
    (fun e => throw ("Failed to search/replace in action: " +:+ e)).

Definition moveAction (macroIdentifier : string) (actionIndex newIndex : Z)
  : M Ext string :=
  tryCatch
    (runAppleScriptFile
       (moveActionScript macroIdentifier actionIndex newIndex) ;;;
     ret ("Moved action " +:+ numberToString actionIndex +:+ " to index "
          +:+ numberToString newIndex +:+ " in macro "
          +:+ quoted macroIdentifier))
    (fun e => throw ("Failed to move action: " +:+ e)).

Definition getTriggerXml (macroIdentifier : string) (triggerIndex : Z)
  : M Ext string :=
  tryCatch
    (runAppleScriptFile (getTriggerXmlScript macroIdentifier triggerIndex))
    (fun e => throw ("Failed to get trigger XML: " +:+ e)).

Definition setTriggerXml (macroIdentifier : string) (triggerIndex : Z)
    (xml : string) : M Ext string :=
  tempPath <- writeTempXml xml ;;
  tryFinally
    (tryCatch
       (runAppleScriptFile
          (setTriggerXmlScript tempPath macroIdentifier triggerIndex) ;;;
        ret ("Trigger " +:+ numberToString triggerIndex +:+ " in macro "
             +:+ quoted macroIdentifier +:+ " updated successfully"))
       (fun e => throw ("Failed to set trigger XML: " +:+ e)))
    (cleanupTempFile tempPath).

Definition getVariable (name : string) : M Ext string :=
  tryCatch
    (runAppleScript (getVariableScript name))
    (fun e => throw ("Failed to get variable " +:+ quoted name
                     +:+ ": " +:+ e)).

Definition setVariable (name value : string) : M Ext string :=
  tryCatch
    (runAppleScript (setVariableScript name value) ;;;
     ret ("Variable " +:+ quoted name +:+ " set successfully"))
    (fun e => throw ("Failed to set variable " +:+ quoted name
                     +:+ ": " +:+ e)).

Definition deleteVariable (name : string) : M Ext string :=
  tryCatch
    (runAppleScript (deleteVariableScript name) ;;;
     ret ("Variable " +:+ quoted name +:+ " deleted successfully"))
    (fun e => throw ("Failed to delete variable " +:+ quoted name
                     +:+ ": " +:+ e)).

End Operations.

(** ** Regular expressions

    The fragment of JavaScript regular expressions that [logs.ts] uses:
    character classes, literals, sequence, alternation, a greedy [+] on a
    character class and capturing groups.  A class that one byte decides
    ([Chr], [Plus]: a digit, a literal character, any character but the
    double quote) is given on bytes; a class that tells characters outside
    ASCII apart ([Uni], [PlusUni]: the class [\s] and the atom [.]) is
    given on the UTF-8 forms of its characters, of one to four bytes.
    [matchAt] is the backtracking matcher: it tries the alternatives in the
    order of the engine (the longer repetition first, the left alternative
    first) and hands the rest of the input and the captures to its
    continuation. *)

Inductive regex : Type :=
| Eps
| Chr (p : ascii -> bool)
| Seq (r1 r2 : regex)
| Alt (r1 r2 : regex)
| Plus (p : ascii -> bool)
| Uni (p : string -> bool)
| PlusUni (p : string -> bool)
| Grp (r : regex).

(** [k] on what follows the first [n] bytes of [s], when these bytes are
    a character of the class. *)
Definition oneOfLength {A} (p : string -> bool) (n : nat) (s : string)
    (k : string -> option A) : option A :=
  if (n <=? String.length s)%nat && p (takeStr n s) then k (dropStr n s)
  else None.

(** One character of the class at the head of [s]. *)
Definition oneOf {A} (p : string -> bool) (s : string)
    (k : string -> option A) : option A :=
  match oneOfLength p 1 s k with
  | Some a => Some a
  | None =>
      match oneOfLength p 2 s k with
      | Some a => Some a
      | None =>
          match oneOfLength p 3 s k with
          | Some a => Some a
          | None => oneOfLength p 4 s k
          end
      end
  end.

(** One character of the class or more, the most first.  [fuel] bounds
    the number of characters; the length of the input is enough. *)
Fixpoint plusUni {A} (fuel : nat) (p : string -> bool) (s : string)
    (k : string -> option A) : option A :=
  match fuel with
  | O => None
  | S fuel' =>
      oneOf p s (fun s' =>
        match plusUni fuel' p s' k with
        | Some a => Some a
        | None => k s'
        end)
  end.

Fixpoint plusGreedy {A} (p : ascii -> bool) (s : string)
    (k : string -> option A) : option A :=
  match s with
  | EmptyString => None
  | String c s' =>
      if p c then
        match plusGreedy p s' k with
        | Some a => Some a
        | None => k s'
        end
      else None
  end.

Fixpoint matchAt {A} (r : regex) (s : string) (caps : list string)
    (k : string -> list string -> option A) : option A :=
  match r with
  | Eps => k s caps
  | Chr p =>
      match s with
      | String c s' => if p c then k s' caps else None
      | EmptyString => None
      end
  | Seq r1 r2 => matchAt r1 s caps (fun s' caps' => matchAt r2 s' caps' k)
  | Alt r1 r2 =>
      match matchAt r1 s caps k with
      | Some a => Some a
      | None => matchAt r2 s caps k
      end
  | Plus p => plusGreedy p s (fun s' => k s' caps)
  | Uni p => oneOf p s (fun s' => k s' caps)
  | PlusUni p => plusUni (String.length s) p s (fun s' => k s' caps)
  | Grp r1 =>
      matchAt r1 s caps (fun s' caps' =>
        k s' (caps' ++ [takeStr (String.length s - String.length s') s]))
  end.

(** A pattern written between [^] and [$]: the whole input is matched. *)
Definition matchWhole (r : regex) (s : string) : option (list string) :=
  matchAt r s [] (fun s' caps => if isEmpty s' then Some caps else None).

(** [s.match(r)] for a pattern without anchors: the leftmost match. *)
Fixpoint search (r : regex) (s : string) : option (list string) :=
  match matchAt r s [] (fun _ caps => Some caps) with
  | Some caps => Some caps
  | None =>
      match s with
      | EmptyString => None
      | String _ s' => search r s'
      end
  end.

(** [r.test(s)] *)
Definition test (r : regex) (s : string) : bool :=
  match search r s with Some _ => true | None => false end.

(** [t] is the UTF-8 form of a character of the class. *)
Definition IsChar (p : string -> bool) (t : string) : Prop :=
  p t = true /\ (1 <= String.length t <= 4)%nat.

(** The strings a pattern denotes. *)
Inductive lang : regex -> string -> Prop :=
| lang_eps : lang Eps EmptyString
| lang_chr p c : p c = true -> lang (Chr p) (str1 c)
| lang_seq r1 r2 s1 s2 :
    lang r1 s1 -> lang r2 s2 -> lang (Seq r1 r2) (s1 +:+ s2)
| lang_alt_l r1 r2 s : lang r1 s -> lang (Alt r1 r2) s
| lang_alt_r r1 r2 s : lang r2 s -> lang (Alt r1 r2) s
| lang_plus_one p c : p c = true -> lang (Plus p) (str1 c)
| lang_plus_more p c s :
    p c = true -> lang (Plus p) s -> lang (Plus p) (String c s)
| lang_uni p t : IsChar p t -> lang (Uni p) t
| lang_plusUni_one p t : IsChar p t -> lang (PlusUni p) t
| lang_plusUni_more p t s :
    IsChar p t -> lang (PlusUni p) s -> lang (PlusUni p) (t +:+ s)
| lang_grp r s : lang r s -> lang (Grp r) s.

(** The captures a match of the pattern on the string may record, in the
    order in which the groups close. *)
Inductive captured : regex -> string -> list string -> Prop :=
| captured_eps : captured Eps EmptyString []
| captured_chr p c : p c = true -> captured (Chr p) (str1 c) []
| captured_seq r1 r2 s1 s2 c1 c2 :
    captured r1 s1 c1 -> captured r2 s2 c2 ->
    captured (Seq r1 r2) (s1 +:+ s2) (c1 ++ c2)
| captured_alt_l r1 r2 s c : captured r1 s c -> captured (Alt r1 r2) s c
| captured_alt_r r1 r2 s c : captured r2 s c -> captured (Alt r1 r2) s c
| captured_plus p s : lang (Plus p) s -> captured (Plus p) s []
| captured_uni p t : IsChar p t -> captured (Uni p) t []
| captured_plusUni p s : lang (PlusUni p) s -> captured (PlusUni p) s []
| captured_grp r s c : captured r s c -> captured (Grp r) s (c ++ [s]).

(** The pattern has no capturing group. *)
Fixpoint groupFree (r : regex) : bool :=
  match r with
  | Eps | Chr _ | Plus _ | Uni _ | PlusUni _ => true
  | Seq r1 r2 | Alt r1 r2 => groupFree r1 && groupFree r2
  | Grp _ => false
  end.

(** Pattern builders: a literal, a literal under the [i] flag, [p{n}]. *)
Fixpoint lit (s : string) : regex :=
  match s with
  | EmptyString => Eps
  | String c s' => Seq (Chr (Ascii.eqb c)) (lit s')
  end.

Fixpoint litNoCase (s : string) : regex :=
  match s with
  | EmptyString => Eps
  | String c s' =>
      Seq (Chr (fun a => Ascii.eqb (lowerAscii a) (lowerAscii c)))
        (litNoCase s')
  end.

Fixpoint rep (n : nat) (p : ascii -> bool) : regex :=
  match n with
  | O => Eps
  | S n' => Seq (Chr p) (rep n' p)
  end.

Definition notQuote (c : ascii) : bool := negb (Ascii.eqb c dquote).

(** The UTF-8 form of one character: one byte below 128, or a leading byte
    that announces one, two or three more bytes, each of them from 128 to
    191. *)
Definition isContinuation (c : ascii) : bool :=
  let n := nat_of_ascii c in (128 <=? n)%nat && (n <? 192)%nat.

Definition isUtf8Char (t : string) : bool :=
  match t with
  | String c rest =>
      let n := nat_of_ascii c in
      if (n <? 128)%nat then isEmpty rest
      else if (192 <=? n)%nat && (n <? 248)%nat then
        ((String.length rest =? (if (n <? 224)%nat then 1
                                 else if (n <? 240)%nat then 2 else 3))%nat
         && forallb isContinuation (list_ascii_of_string rest))
      else false
  | EmptyString => false
  end.

(** The regex atom [.]: any character but a line terminator. *)
Definition anyChar (t : string) : bool :=
  isUtf8Char t && negb (isLineTerminator t).

(** ** Log analysis ([logs.ts]) *)

Record LogEntry : Type := mkLogEntry {
  timestamp : string;
  date : option Z;
  message : string;
  isError : bool;
  macroName : option string;
  actionId : option string
}.

(** [/^(\d{4}-\d{2}-\d{2}\s+\d{2}:\d{2}:\d{2})\s+(.+)$/] *)
Definition timestampRe : regex :=
  Seq (rep 4 isDigit) (Seq (lit "-") (Seq (rep 2 isDigit) (Seq (lit "-")
  (Seq (rep 2 isDigit) (Seq (PlusUni isWhiteSpace)
  (Seq (rep 2 isDigit) (Seq (lit ":") (Seq (rep 2 isDigit) (Seq (lit ":")
       (rep 2 isDigit)))))))))).

Definition lineRe : regex :=
  Seq (Grp timestampRe) (Seq (PlusUni isWhiteSpace) (Grp (PlusUni anyChar))).

(** [/failed|error|cancelled|timeout/i] *)
Definition errorKeywords : list string :=
  ["failed"; "error"; "cancelled"; "timeout"].

Definition errorRe : regex :=
  Alt (litNoCase "failed") (Alt (litNoCase "error")
  (Alt (litNoCase "cancelled") (litNoCase "timeout"))).

(** The pattern for [Macro], a quote, a captured run of characters other
    than the quote, and a quote; the same after [Execute macro]; and
    [/Action (\d+)/]. *)
Definition macroRe : regex :=
  Seq (lit ("Macro " +:+ DQ)) (Seq (Grp (Plus notQuote)) (lit DQ)).

Definition executeMacroRe : regex :=
  Seq (lit ("Execute macro " +:+ DQ)) (Seq (Grp (Plus notQuote)) (lit DQ)).

Definition actionRe : regex :=
  Seq (lit "Action ") (Grp (Plus isDigit)).

(** The first capture of a successful match, [m[1]]. *)
Definition capture1 (m : option (list string)) : option string :=
  match m with
  | Some (c :: _) => Some c
  | _ => None
  end.

Section Logs.

(** [new Date(text).getTime()]; [None] for an invalid date. *)
Variable dateParse : string -> option Z.

(** The two captures of [lineRe] are the timestamp and the message. *)
Definition parseLogLine (line : string) : option LogEntry :=
  match matchWhole lineRe line with
  | Some m =>
      let ts := default EmptyString (m !! 0%nat) in
      let msg := default EmptyString (m !! 1%nat) in
      let macroName :=
        match capture1 (search macroRe msg) with
        | Some n => Some n
        | None => capture1 (search executeMacroRe msg)
        end in
      Some {| timestamp := ts;
              date := dateParse ts;
              message := msg;
              isError := test errorRe msg;
              macroName := macroName;
              actionId := capture1 (search actionRe msg) |}
  | None => None
  end.

End Logs.

(** [xs.slice(start)] *)
Definition sliceFrom {A} (start : Z) (xs : list A) : list A :=
  let len := Z.of_nat (length xs) in
  let k := if start <? 0 then Z.max (len + start) 0 else Z.min start len in
  drop (Z.to_nat k) xs.

(** The options of [readEngineLog]; an absent option is [None]. *)
Record ReadOptions : Type := mkReadOptions {
  optLines : option Z;
  optErrorsOnly : option bool;
  optSince : option (option Z);
  optMacroFilter : option string
}.

(** [e.date >= since]; an invalid date, on either side, compares false. *)
Definition notBefore (since : option Z) (e : LogEntry) : bool :=
  match date e, since with
  | Some d, Some t => t <=? d
  | _, _ => false
  end.

(** [e.macroName?.toLowerCase().includes(filter)] *)
Definition macroMatches (toLowerCase : string -> string) (filter_ : string)
    (e : LogEntry) : bool :=
  match macroName e with
  | Some n => includes (toLowerCase n) filter_
  | None => false
  end.

(** The body of [readEngineLog] once the file is read.  [since] is a
    [Date] object when it is given, and so truthy also when it is an
    invalid date. *)
Definition engineEntries (dateParse : string -> option Z)
    (toLowerCase : string -> string)
    (options : ReadOptions) (content : string) : list LogEntry :=
  let lines := default 100 (optLines options) in
  let errorsOnly := default false (optErrorsOnly options) in
  let allLines :=
    filter (fun l => negb (isEmpty (trim l)) = true) (split NL content) in
  let recentLines := sliceFrom (- lines) allLines in
  let entries := omap (parseLogLine dateParse) recentLines in
  let entries :=
    if errorsOnly then filter (fun e => isError e = true) entries
    else entries in
  let entries :=
    match optSince options with
    | Some since => filter (fun e => notBefore since e = true) entries
    | None => entries
    end in
  match optMacroFilter options with
  | Some f =>
      if isEmpty f then entries
      else filter (fun e => macroMatches toLowerCase (toLowerCase f) e = true)
             entries
  | None => entries
  end.

(** One value of [errorsByMacro]. *)
Record ErrorStat : Type := mkErrorStat {
  count : Z;
  lastError : string;
  lastTime : string
}.

(** [errorsByMacro] is a plain object: a key is looked up among its own
    properties and then on [Object.prototype].  [own] holds the own
    properties; [polluted] records that [count], [lastError] and
    [lastTime] have been written on [Object.prototype] itself, which is
    what the loop does for the key [__proto__]. *)
Record Tally : Type := mkTally {
  own : gmap string ErrorStat;
  polluted : bool
}.

(** The methods every object inherits. *)
Definition inheritedMethods : list string :=
  ["constructor"; "__defineGetter__"; "__defineSetter__"; "hasOwnProperty";
   "__lookupGetter__"; "__lookupSetter__"; "isPrototypeOf";
   "propertyIsEnumerable"; "toString"; "valueOf"; "toLocaleString"].

Definition entryKey (e : LogEntry) : string :=
  default "Unknown" (macroName e).

(** One turn of the loop of [getErrorSummary].  An inherited method or
    [Object.prototype] is truthy, so the record is not created and the
    three fields land on the inherited object; after that an inherited
    [lastError] or [lastTime] is a non-empty string, on which a property
    cannot be created in strict mode. *)
Definition tallyStep (t : Tally) (e : LogEntry) : Result Tally :=
  let key := entryKey e in
  match own t !! key with
  | Some st =>
      Ok (mkTally
            (<[key := mkErrorStat (count st + 1) (message e) (timestamp e)]>
               (own t))
            (polluted t))
  | None =>
      if bool_decide (key ∈ inheritedMethods) then Ok t
      else if String.eqb key "__proto__" then Ok (mkTally (own t) true)
      else if polluted t
              && (String.eqb key "lastError" || String.eqb key "lastTime")
      then Throw "Cannot create property 'count' on string"
      else
        Ok (mkTally
              (<[key := mkErrorStat 1 (message e) (timestamp e)]> (own t))
              (polluted t))
  end.

(** The loop: the state it ends in, and the error it stops on if any. *)
Fixpoint tallyAll (t : Tally) (entries : list LogEntry)
  : Tally * option string :=
  match entries with
  | [] => (t, None)
  | e :: rest =>
      match tallyStep t e with
      | Ok t' => tallyAll t' rest
      | Throw msg => (t, Some msg)
      end
  end.

Record ErrorSummary : Type := mkErrorSummary {
  totalErrors : Z;
  errorsByMacro : gmap string ErrorStat;
  recentErrors : list LogEntry
}.

(** [getErrorSummary] once the entries are read, from the state in which
    earlier calls left [Object.prototype]; the second component is the
    state in which this call leaves it. *)
Definition summarize (polluted0 : bool) (entries : list LogEntry)
  : Result ErrorSummary * bool :=
  let '(t, thrown) := tallyAll (mkTally ∅ polluted0) entries in
  (match thrown with
   | None =>
       Ok (mkErrorSummary (Z.of_nat (length entries)) (own t)
             (sliceFrom (-10) entries))
   | Some msg => Throw msg
   end,
   polluted t).

(** [new Date(t)] for a number [t]: a time value further than 8.64e15
    milliseconds from the epoch gives an invalid date. *)
Definition newDate (t : Z) : option Z :=
  if Z.abs t <=? 8640000000000000 then Some t else None.

(** [now - hours * 60 * 60 * 1000], each operation rounded to a double. *)
Definition lookback (t hours : Z) : Z :=
  roundToDouble
    (t - roundToDouble (roundToDouble (roundToDouble (hours * 60) * 60)
                        * 1000)).

Section LogOperations.

Context {Ext : Type} `{Runtime Ext}.

Definition ENGINE_LOG_PATH : string :=
  pathJoin homedir "Library/Logs/Keyboard Maestro/Engine.log".

Definition readEngineLog (options : ReadOptions) : M Ext (list LogEntry) :=
  tryCatch
    (content <- readFileUtf8 ENGINE_LOG_PATH ;;
     ret (engineEntries dateParse toLowerCase options content))
    (fun e => throw ("Failed to read Engine log: " +:+ e)).

Definition getErrorSummary (hours : Z) : M Ext ErrorSummary :=
  t <- now ;;
  let since := newDate (lookback t hours) in
  entries <- readEngineLog (mkReadOptions (Some 5000) (Some true)
                              (Some since) None) ;;
  fun w =>
    let '(r, p) := summarize (prototypePolluted w) entries in
    (r, mkWorld (ext w) (trace w) p).

End LogOperations.

(** ** The call dispatcher ([index.ts])

    The cases of the dispatcher that edit actions and triggers.  The
    arguments of a request have the types of the declared schema; an
    argument the request does not supply is [None]. *)

Inductive Tool : Type :=
| km_add_action
| km_get_action_xml
| km_set_action_xml
| km_search_replace_action
| km_delete_action
| km_add_trigger
| km_delete_trigger
| km_get_trigger_xml
| km_set_trigger_xml.

Record Args : Type := mkArgs {
  argMacroIdentifier : option string;
  argActionIndex : option Z;
  argTriggerIndex : option Z;
  argXml : option string;
  argActionXml : option string;
  argTriggerXml : option string;
  argSearchText : option string;
  argReplaceText : option string
}.

Record Response : Type := mkResponse {
  text : string;
  responseIsError : bool
}.

(** [!v] for a string and for a number that may be absent. *)
Definition missingString (v : option string) : bool :=
  match v with
  | Some s => isEmpty s
  | None => true
  end.

Definition missingNumber (v : option Z) : bool :=
  match v with
  | Some n => n =? 0
  | None => true
  end.

Section Dispatcher.

Context {Ext : Type} `{Runtime Ext}.

(** [if (!v) throw new Error('<what> is required')], then the value. *)
Definition requireString (v : option string) (what : string)
  : M Ext string :=
  if missingString v then throw (what +:+ " is required")
  else ret (default EmptyString v).

Definition requireNumber (v : option Z) (what : string) : M Ext Z :=
  if missingNumber v then throw (what +:+ " is required")
  else ret (default 0 v).

Definition requireDefined (v : option string) (what : string)
  : M Ext string :=
  match v with
  | Some s => ret s
  | None => throw (what +:+ " is required")
  end.

Definition ok (t : string) : M Ext Response := ret (mkResponse t false).

Definition handle (tool : Tool) (args : Args) : M Ext Response :=
  match tool with
  | km_add_action =>
      macroId <- requireString (argMacroIdentifier args) "macroIdentifier" ;;
      actionXml <- requireString (argActionXml args) "actionXml" ;;
      result <- addAction macroId actionXml ;;
      ok result
  | km_get_action_xml =>
      macroId <- requireString (argMacroIdentifier args) "macroIdentifier" ;;
      actionIdx <- requireNumber (argActionIndex args) "actionIndex" ;;
      xml <- getActionXml macroId actionIdx ;;
      ok xml
  | km_set_action_xml =>
      macroId <- requireString (argMacroIdentifier args) "macroIdentifier" ;;
      actionIdx <- requireNumber (argActionIndex args) "actionIndex" ;;
      xml <- requireString (argXml args) "xml" ;;
      result <- setActionXml macroId actionIdx xml ;;
      ok result
  | km_search_replace_action =>
      macroId <- requireString (argMacroIdentifier args) "macroIdentifier" ;;
      actionIdx <- requireNumber (argActionIndex args) "actionIndex" ;;
      searchText <- requireString (argSearchText args) "searchText" ;;
      replaceText <- requireDefined (argReplaceText args) "replaceText" ;;
      result <- searchReplaceInAction macroId actionIdx
                  searchText replaceText ;;
      ok result
  | km_delete_action =>
      macroId <- requireString (argMacroIdentifier args) "macroIdentifier" ;;
      actionIdx <- requireNumber (argActionIndex args) "actionIndex" ;;
      result <- deleteAction macroId actionIdx ;;
      ok result
  | km_add_trigger =>
      macroId <- requireString (argMacroIdentifier args) "macroIdentifier" ;;
      triggerXml <- requireString (argTriggerXml args) "triggerXml" ;;
      result <- addTrigger macroId triggerXml ;;
      ok result
  | km_delete_trigger =>
      macroId <- requireString (argMacroIdentifier args) "macroIdentifier" ;;
      triggerIdx <- requireNumber (argTriggerIndex args) "triggerIndex" ;;
      result <- deleteTrigger macroId triggerIdx ;;
      ok result
  | km_get_trigger_xml =>
      macroId <- requireString (argMacroIdentifier args) "macroIdentifier" ;;
      triggerIdx <- requireNumber (argTriggerIndex args) "triggerIndex" ;;
      xml <- getTriggerXml macroId triggerIdx ;;
      ok xml
  | km_set_trigger_xml =>
      macroId <- requireString (argMacroIdentifier args) "macroIdentifier" ;;
      triggerIdx <- requireNumber (argTriggerIndex args) "triggerIndex" ;;
      xml <- requireString (argXml args) "xml" ;;
      result <- setTriggerXml macroId triggerIdx xml ;;
      ok result
  end.

(** The [try]/[catch] around the [switch]: a thrown error becomes an
    error payload. *)
Definition callTool (tool : Tool) (args : Args) : M Ext Response :=
  tryCatch (handle tool args)
    (fun e => ret (mkResponse ("Error: " +:+ e) true)).

End Dispatcher.

(** ** The scripting grammar: string literals

    A string literal of the engine's scripting language runs from a double
    quote to the next double quote that no backslash precedes; inside it a
    backslash and the character after it stand for one character.
    [readLiteral] reads a literal whose opening quote has been passed: it
    gives the string the literal denotes and the text after the closing
    quote, or [None] when the literal does not end or holds an escape the
    language does not have. *)

Definition unescape (c : ascii) : option ascii :=
  if Ascii.eqb c dquote then Some dquote
  else if Ascii.eqb c backslash then Some backslash
  else if Ascii.eqb c "n" then Some LF
  else if Ascii.eqb c "r" then Some CR
  else if Ascii.eqb c "t" then Some TAB
  else None.

Definition consFst (c : ascii) (p : string * string) : string * string :=
  (String c (fst p), snd p).

Fixpoint readLiteral (s : string) : option (string * string) :=
  match s with
  | EmptyString => None
  | String c s' =>
      if Ascii.eqb c dquote then Some (EmptyString, s')
      else if Ascii.eqb c backslash then
        match s' with
        | String e s'' =>
            match unescape e with
            | Some d => consFst d <$> readLiteral s''
            | None => None
            end
        | EmptyString => None
        end
      else consFst c <$> readLiteral s'
  end.

(** The string literals of a program text, in order; [None] when one of
    them does not end.  [fuel] bounds the number of literals. *)
Fixpoint literalsAux (fuel : nat) (s : string) : option (list string) :=
  match fuel with
  | O => None
  | S fuel' =>
      (fix scan (t : string) : option (list string) :=
         match t with
         | EmptyString => Some []
         | String c t' =>
             if Ascii.eqb c dquote then
               match readLiteral t' with
               | Some (v, rest) => cons v <$> literalsAux fuel' rest
               | None => None
               end
             else scan t'
         end) s
  end.

Definition literals (s : string) : option (list string) :=
  literalsAux (S (String.length s)) s.

(** ** Words of the specification

    The properties below are stated with these predicates, which say in
    the terms of the specification what the functions above compute. *)

(** [s] is a sequence of characters of the class. *)
Inductive CharsOf (p : string -> bool) : string -> Prop :=
| CharsOf_nil : CharsOf p EmptyString
| CharsOf_cons t s : IsChar p t -> CharsOf p s -> CharsOf p (t +:+ s).

(** [s] is a sequence of white-space characters. *)
Definition AllSpace (s : string) : Prop := CharsOf isWhiteSpace s.

Definition AllDigits (n : nat) (s : string) : Prop :=
  String.length s = n /\
  Forall (fun c => isDigit c = true) (list_ascii_of_string s).

Definition StartsWith (tok s : string) : Prop :=
  exists rest, s = tok +:+ rest.

(** [t] is [s] without its leading and trailing white space. *)
Definition Trimmed (s t : string) : Prop :=
  (exists l r, s = l +:+ t +:+ r /\ AllSpace l /\ AllSpace r) /\
  (forall w rest, isWhiteSpace w = true -> t <> w +:+ rest) /\
  (forall w front, isWhiteSpace w = true -> t <> front +:+ w).

(** The payload already looks like a complete envelope. *)
Definition LooksWrapped (t : string) : Prop :=
  StartsWith "<?xml" t \/ StartsWith "<!DOCTYPE" t \/ StartsWith "<plist" t.

(** The line has the shape [YYYY-MM-DD HH:MM:SS <message>]: a date, white
    space, a time, white space and a message of at least one character,
    none of them a line terminator. *)
Definition TimestampPrefixed (line : string) : Prop :=
  exists yyyy mo dd ws1 hh mi ss ws2 msg,
    line = (yyyy +:+ "-" +:+ mo +:+ "-" +:+ dd +:+ ws1
            +:+ hh +:+ ":" +:+ mi +:+ ":" +:+ ss) +:+ ws2 +:+ msg /\
    AllDigits 4 yyyy /\ AllDigits 2 mo /\ AllDigits 2 dd /\
    AllDigits 2 hh /\ AllDigits 2 mi /\ AllDigits 2 ss /\
    ws1 <> EmptyString /\ AllSpace ws1 /\
    ws2 <> EmptyString /\ AllSpace ws2 /\
    msg <> EmptyString /\ CharsOf anyChar msg.

(** The message holds the keyword, whatever the case of its letters. *)
Definition ContainsNoCase (kw msg : string) : Prop :=
  exists before word after,
    msg = before +:+ word +:+ after /\ lowerAsciiString word = kw.

(** The name and the value of the 1-based index argument of a call, for
    the calls that take one. *)
Definition indexName (tool : Tool) : option string :=
  match tool with
  | km_get_action_xml | km_set_action_xml
  | km_search_replace_action | km_delete_action => Some "actionIndex"
  | km_delete_trigger | km_get_trigger_xml
  | km_set_trigger_xml => Some "triggerIndex"
  | km_add_action | km_add_trigger => None
  end.

Definition indexArg (tool : Tool) (args : Args) : option Z :=
  match tool with
  | km_get_action_xml | km_set_action_xml
  | km_search_replace_action | km_delete_action => argActionIndex args
  | km_delete_trigger | km_get_trigger_xml
  | km_set_trigger_xml => argTriggerIndex args
  | km_add_action | km_add_trigger => None
  end.

(** The event is the start of an external process. *)
Definition isExec (e : Event) : Prop :=
  match e with
  | EvExec _ => True
  | _ => False
  end.

(** The operations that stage a payload file, with their arguments. *)
Inductive Staged : Type :=
| StagedAddAction (macroIdentifier actionXml : string)
| StagedAddTrigger (macroIdentifier triggerXml : string)
| StagedSetActionXml (macroIdentifier : string) (actionIndex : Z) (xml : string)
| StagedSetTriggerXml (macroIdentifier : string) (triggerIndex : Z)
    (xml : string).

Definition stagedPayload (op : Staged) : string :=
  match op with
  | StagedAddAction _ xml | StagedAddTrigger _ xml
  | StagedSetActionXml _ _ xml | StagedSetTriggerXml _ _ xml => xml
  end.

Section Staging.

Context {Ext : Type} `{Runtime Ext}.

Definition runStaged (op : Staged) : M Ext string :=
  match op with
  | StagedAddAction m xml => addAction m xml
  | StagedAddTrigger m xml => addTrigger m xml
  | StagedSetActionXml m i xml => setActionXml m i xml
  | StagedSetTriggerXml m i xml => setTriggerXml m i xml
  end.

(** The [try]/[catch] of the operation: what runs between the staging of
    the payload and its release. *)
Definition stagedAttempt (op : Staged) (tempPath : string) : M Ext string :=
  match op with
  | StagedAddAction m _ =>
      tryCatch (addActionAttempt tempPath m)
        (fun e => throw ("Failed to add action: " +:+ e))
  | StagedAddTrigger m _ =>
      tryCatch
        (runAppleScriptFile (addTriggerScript tempPath m) ;;;
         ret ("Trigger added to macro " +:+ quoted m))
        (fun e => throw ("Failed to add trigger: " +:+ e))
  | StagedSetActionXml m i _ =>
      tryCatch
        (runAppleScriptFile (setActionXmlScript tempPath m i) ;;;
         ret ("Action " +:+ numberToString i +:+ " in macro "
              +:+ quoted m +:+ " updated successfully"))
        (fun e => throw ("Failed to set action XML: " +:+ e))
  | StagedSetTriggerXml m i _ =>
      tryCatch
        (runAppleScriptFile (setTriggerXmlScript tempPath m i) ;;;
         ret ("Trigger " +:+ numberToString i +:+ " in macro "
              +:+ quoted m +:+ " updated successfully"))
        (fun e => throw ("Failed to set trigger XML: " +:+ e))
  end.

(** The computation asks the host for nothing but external processes. *)
Definition ExecOnly {A} (m : M Ext A) : Prop :=
  forall w, exists execs,
    trace (snd (m w)) = trace w ++ execs /\ Forall isExec execs.

End Staging.

(** The number of entries grouped under a key. *)
Definition countKey (k : string) (entries : list LogEntry) : nat :=
  length (filter (fun e => entryKey e = k) entries).

(** The key is found on [Object.prototype] rather than in the object. *)
Definition Inherited (k : string) : Prop :=
  k ∈ inheritedMethods \/ k = "__proto__".

(** ** A simulated host

    A host with a clock, a file system and an engine that accepts every
    script without effect and prints [simStdout]; it serves to run the
    operations on concrete inputs. *)

Record Sim : Type := mkSim {
  simClock : Z;
  simFiles : gmap string string;
  simStdout : string
}.

(** The value of a digit string. *)
Fixpoint digitsValue (acc : Z) (s : string) : Z :=
  match s with
  | EmptyString => acc
  | String c s' =>
      digitsValue (10 * acc + (Z.of_nat (nat_of_ascii c) - 48)) s'
  end.

Definition daysFromCivil (y m d : Z) : Z :=
  let y' := if m <=? 2 then y - 1 else y in
  let era := y' / 400 in
  let yoe := y' - era * 400 in
  let mp := if 2 <? m then m - 3 else m + 9 in
  let doy := (153 * mp + 2) / 5 + d - 1 in
  let doe := yoe * 365 + yoe / 4 - yoe / 100 + doy in
  era * 146097 + doe - 719468.

(** A timestamp of the log read as a time of the UTC zone, in milliseconds
    since the epoch. *)
Definition utcDateValue (ts : string) : option Z :=
  match matchWhole timestampRe ts with
  | None => None
  | Some _ =>
      let y := digitsValue 0 (takeStr 4 ts) in
      let m := digitsValue 0 (takeStr 2 (dropStr 5 ts)) in
      let d := digitsValue 0 (takeStr 2 (dropStr 8 ts)) in
      let time := trimStart (dropStr 10 ts) in
      let hh := digitsValue 0 (takeStr 2 time) in
      let mi := digitsValue 0 (takeStr 2 (dropStr 3 time)) in
      let ss := digitsValue 0 (takeStr 2 (dropStr 6 time)) in
      if (1 <=? m) && (m <=? 12) && (1 <=? d) && (d <=? 31)
         && (hh <? 24) && (mi <? 60) && (ss <? 60)
      then Some ((((daysFromCivil y m d * 24 + hh) * 60 + mi) * 60 + ss) * 1000)
      else None
  end.

Definition noSuchFile (p : string) : string :=
  "ENOENT: no such file or directory '" +:+ p +:+ "'".

#[export] Instance simRuntime : Runtime Sim := {
  execAsync _ x := (Ok (simStdout x, EmptyString), x);
  writeFileSync p c x :=
    (Ok (), mkSim (simClock x) (<[p := c]> (simFiles x)) (simStdout x));
  unlinkSync p x :=
    match simFiles x !! p with
    | Some _ =>
        (Ok (), mkSim (simClock x) (delete p (simFiles x)) (simStdout x))
    | None => (Throw (noSuchFile p), x)
    end;
  readFile p x :=
    match simFiles x !! p with
    | Some c => (Ok c, x)
    | None => (Throw (noSuchFile p), x)
    end;
  dateNow x := simClock x;
  dateParse := utcDateValue;
  toLowerCase := lowerAsciiString;
  tmpdir := "/tmp";
  homedir := "/Users/me"
}.

Definition simWorld (clock : Z) (files : gmap string string) (stdout : string)
  : World Sim :=
  mkWorld (mkSim clock files stdout) [] false.

(** A host on which every script fails and no file can be deleted. *)
Record Faulty : Type := mkFaulty { faultyClock : Z }.

#[export] Instance faultyRuntime : Runtime Faulty := {
  execAsync _ x := (Throw "Command failed", x);
  writeFileSync _ _ x := (Ok (), x);
  unlinkSync _ x := (Throw "EPERM: operation not permitted", x);
  readFile p x := (Throw (noSuchFile p), x);
  dateNow x := faultyClock x;
  dateParse := utcDateValue;
  toLowerCase := lowerAsciiString;
  tmpdir := "/tmp";
  homedir := "/Users/me"
}.

(** The log of the error-summary example: three error lines of macro A
    and one of macro B; the first line of A is older than the window of
    24 hours before [exampleNow], the three other lines are inside it. *)
Definition exampleLog : string :=
  "2025-01-01 09:00:00 Macro " +:+ quoted "A" +:+ " failed" +:+ NL +:+
  "2025-01-02 10:00:00 Macro " +:+ quoted "A" +:+ " failed" +:+ NL +:+
  "2025-01-02 10:05:00 Execute macro " +:+ quoted "B" +:+ " timeout" +:+ NL +:+
  "2025-01-02 10:10:00 Macro " +:+ quoted "A" +:+ " cancelled" +:+ NL.

(** Noon of 2025-01-02, UTC. *)
Definition exampleNow : Z := 1735819200000.

Definition exampleWorld : World Sim :=
  simWorld exampleNow
    {[ "/Users/me/Library/Logs/Keyboard Maestro/Engine.log" := exampleLog ]}
    EmptyString.

(** ** Further operations of [macros.ts]: groups and duplication *)

Definition groupRef (identifier : string) : string :=
  "first macro group whose name is " +:+ quoted identifier
    +:+ " or id is " +:+ quoted identifier.

Definition duplicateMacroScript (identifier : string)
    (newName : option string) : string :=
  let common :=
    tellEditor +:+ setTheMacro identifier
    +:+ "  set newMacros to duplicate theMacro" +:+ NL
    +:+ "  " +:+ NL
    +:+ "  if class of newMacros is list then" +:+ NL
    +:+ "    set newMacro to item 1 of newMacros" +:+ NL
    +:+ "  else" +:+ NL
    +:+ "    set newMacro to newMacros" +:+ NL
    +:+ "  end if" +:+ NL
    +:+ "  " +:+ NL in
  let renamed (n : string) :=
    common
    +:+ "  set name of newMacro to " +:+ quoted (escapeQuotes n) +:+ NL
    +:+ "  return id of newMacro" +:+ NL
    +:+ "end tell" in
  let plain :=
    common
    +:+ "  return id of newMacro" +:+ NL
    +:+ "end tell" in
  match newName with
  | Some n => if isEmpty n then plain else renamed n
  | None => plain
  end.

Definition moveMacroToGroupScript (macroIdentifier groupIdentifier : string)
  : string :=
  let escapedMacro := escapeQuotes macroIdentifier in
  let escapedGroup := escapeQuotes groupIdentifier in
  tellEditor +:+ setTheMacro escapedMacro
  +:+ "  set theGroup to " +:+ groupRef escapedGroup +:+ NL
  +:+ "  move theMacro to theGroup" +:+ NL
  +:+ "end tell".

Definition createGroupScript (name : string) : string :=
  let escapedName := escapeQuotes name in
  tellEditor
  +:+ "  set newGroup to make new macro group with properties {name:"
  +:+ quoted escapedName +:+ "}" +:+ NL
  +:+ "  return id of newGroup" +:+ NL
  +:+ "end tell".

Definition deleteGroupScript (identifier : string) : string :=
  tellEditor
  +:+ "  delete (" +:+ groupRef identifier +:+ ")" +:+ NL
  +:+ "end tell".

Definition toggleGroupScript (identifier : string) (enabled : bool)
  : string :=
  tellEditor
  +:+ "  set enabled of (" +:+ groupRef identifier +:+ ") to "
  +:+ boolToString enabled +:+ NL
  +:+ "end tell".

(** ** Action payloads of the helper operations ([macros.ts])

    [escapeXml] is the chain of five [replace] calls, the ampersand
    first.  Each builder is the template literal of the helper of the same
    name, line by line; [TB] is the tab that indents it. *)

Definition TB : string := str1 TAB.

Definition escapeXml (str : string) : string :=
  replaceAll squote "&apos;"
    (replaceAll dquote "&quot;"
       (replaceAll ">"%char "&gt;"
          (replaceAll "<"%char "&lt;"
             (replaceAll "&"%char "&amp;" str)))).

(** [x ? x : ''] for an optional string. *)
Definition orEmpty (x : option string) : string := default EmptyString x.

Definition notificationXml (title message : string)
    (subtitle : option string) : string :=
  "<dict>" +:+ NL
  +:+ TB +:+ "<key>MacroActionType</key>" +:+ NL
  +:+ TB +:+ "<string>Notification</string>" +:+ NL
  +:+ TB +:+ "<key>Title</key>" +:+ NL
  +:+ TB +:+ "<string>" +:+ escapeXml title +:+ "</string>" +:+ NL
  +:+ TB +:+ "<key>Subtitle</key>" +:+ NL
  +:+ TB +:+ "<string>" +:+ escapeXml (orEmpty subtitle) +:+ "</string>" +:+ NL
  +:+ TB +:+ "<key>Text</key>" +:+ NL
  +:+ TB +:+ "<string>" +:+ escapeXml message +:+ "</string>" +:+ NL
  +:+ "</dict>".

Definition setVariableXml (variable value : string) : string :=
  "<dict>" +:+ NL
  +:+ TB +:+ "<key>MacroActionType</key>" +:+ NL
  +:+ TB +:+ "<string>SetVariableToText</string>" +:+ NL
  +:+ TB +:+ "<key>Variable</key>" +:+ NL
  +:+ TB +:+ "<string>" +:+ escapeXml variable +:+ "</string>" +:+ NL
  +:+ TB +:+ "<key>Text</key>" +:+ NL
  +:+ TB +:+ "<string>" +:+ escapeXml value +:+ "</string>" +:+ NL
  +:+ "</dict>".

Definition calculationXml (variable expression : string) : string :=
  "<dict>" +:+ NL
  +:+ TB +:+ "<key>MacroActionType</key>" +:+ NL
  +:+ TB +:+ "<string>SetVariableToCalculation</string>" +:+ NL
  +:+ TB +:+ "<key>Variable</key>" +:+ NL
  +:+ TB +:+ "<string>" +:+ escapeXml variable +:+ "</string>" +:+ NL
  +:+ TB +:+ "<key>Text</key>" +:+ NL
  +:+ TB +:+ "<string>" +:+ escapeXml expression +:+ "</string>" +:+ NL
  +:+ TB +:+ "<key>UseFormat</key>" +:+ NL
  +:+ TB +:+ "<false/>" +:+ NL
  +:+ "</dict>".

Definition displayTextXml (title text : string) : string :=
  "<dict>" +:+ NL
  +:+ TB +:+ "<key>MacroActionType</key>" +:+ NL
  +:+ TB +:+ "<string>Alert</string>" +:+ NL
  +:+ TB +:+ "<key>Title</key>" +:+ NL
  +:+ TB +:+ "<string>" +:+ escapeXml title +:+ "</string>" +:+ NL
  +:+ TB +:+ "<key>Text</key>" +:+ NL
  +:+ TB +:+ "<string>" +:+ escapeXml text +:+ "</string>" +:+ NL
  +:+ "</dict>".

Definition ifVariableContainsXml
    (variable containsValue thenActions elseActions : string) : string :=
  "<dict>" +:+ NL
  +:+ TB +:+ "<key>MacroActionType</key>" +:+ NL
  +:+ TB +:+ "<string>IfThenElse</string>" +:+ NL
  +:+ TB +:+ "<key>Conditions</key>" +:+ NL
  +:+ TB +:+ "<dict>" +:+ NL
  +:+ TB +:+ TB +:+ "<key>ConditionList</key>" +:+ NL
  +:+ TB +:+ TB +:+ "<array>" +:+ NL
  +:+ TB +:+ TB +:+ TB +:+ "<dict>" +:+ NL
  +:+ TB +:+ TB +:+ TB +:+ TB +:+ "<key>ConditionType</key>" +:+ NL
  +:+ TB +:+ TB +:+ TB +:+ TB +:+ "<string>Variable</string>" +:+ NL
  +:+ TB +:+ TB +:+ TB +:+ TB +:+ "<key>Variable</key>" +:+ NL
  +:+ TB +:+ TB +:+ TB +:+ TB +:+ "<string>" +:+ escapeXml variable +:+ "</string>" +:+ NL
  +:+ TB +:+ TB +:+ TB +:+ TB +:+ "<key>VariableConditionType</key>" +:+ NL
  +:+ TB +:+ TB +:+ TB +:+ TB +:+ "<string>Contains</string>" +:+ NL
  +:+ TB +:+ TB +:+ TB +:+ TB +:+ "<key>VariableValue</key>" +:+ NL
  +:+ TB +:+ TB +:+ TB +:+ TB +:+ "<string>" +:+ escapeXml containsValue +:+ "</string>" +:+ NL
  +:+ TB +:+ TB +:+ TB +:+ "</dict>" +:+ NL
  +:+ TB +:+ TB +:+ "</array>" +:+ NL
  +:+ TB +:+ TB +:+ "<key>ConditionListMatch</key>" +:+ NL
  +:+ TB +:+ TB +:+ "<string>All</string>" +:+ NL
  +:+ TB +:+ "</dict>" +:+ NL
  +:+ TB +:+ "<key>ThenActions</key>" +:+ NL
  +:+ TB +:+ "<array>" +:+ thenActions +:+ "</array>" +:+ NL
  +:+ TB +:+ "<key>ElseActions</key>" +:+ NL
  +:+ TB +:+ "<array>" +:+ elseActions +:+ "</array>" +:+ NL
  +:+ TB +:+ "<key>TimeOutAbortsMacro</key>" +:+ NL
  +:+ TB +:+ "<true/>" +:+ NL
  +:+ "</dict>".

Definition ifCalculationXml
    (calculation thenActions elseActions : string) : string :=
  "<dict>" +:+ NL
  +:+ TB +:+ "<key>MacroActionType</key>" +:+ NL
  +:+ TB +:+ "<string>IfThenElse</string>" +:+ NL
  +:+ TB +:+ "<key>Conditions</key>" +:+ NL
  +:+ TB +:+ "<dict>" +:+ NL
  +:+ TB +:+ TB +:+ "<key>ConditionList</key>" +:+ NL
  +:+ TB +:+ TB +:+ "<array>" +:+ NL
  +:+ TB +:+ TB +:+ TB +:+ "<dict>" +:+ NL
  +:+ TB +:+ TB +:+ TB +:+ TB +:+ "<key>ConditionType</key>" +:+ NL
  +:+ TB +:+ TB +:+ TB +:+ TB +:+ "<string>Calculation</string>" +:+ NL
  +:+ TB +:+ TB +:+ TB +:+ TB +:+ "<key>Text</key>" +:+ NL
  +:+ TB +:+ TB +:+ TB +:+ TB +:+ "<string>" +:+ escapeXml calculation +:+ "</string>" +:+ NL
  +:+ TB +:+ TB +:+ TB +:+ "</dict>" +:+ NL
  +:+ TB +:+ TB +:+ "</array>" +:+ NL
  +:+ TB +:+ TB +:+ "<key>ConditionListMatch</key>" +:+ NL
  +:+ TB +:+ TB +:+ "<string>All</string>" +:+ NL
  +:+ TB +:+ "</dict>" +:+ NL
  +:+ TB +:+ "<key>ThenActions</key>" +:+ NL
  +:+ TB +:+ "<array>" +:+ thenActions +:+ "</array>" +:+ NL
  +:+ TB +:+ "<key>ElseActions</key>" +:+ NL
  +:+ TB +:+ "<array>" +:+ elseActions +:+ "</array>" +:+ NL
  +:+ TB +:+ "<key>TimeOutAbortsMacro</key>" +:+ NL
  +:+ TB +:+ "<true/>" +:+ NL
  +:+ "</dict>".

Definition variableTagXml (saveToVariable : string) : string :=
  "<key>Variable</key>" +:+ NL
  +:+ TB +:+ "<string>" +:+ escapeXml saveToVariable +:+ "</string>".

Definition shellScriptXml (displayKind variableTag script : string) : string :=
  "<dict>" +:+ NL
  +:+ TB +:+ "<key>MacroActionType</key>" +:+ NL
  +:+ TB +:+ "<string>ExecuteShellScript</string>" +:+ NL
  +:+ TB +:+ "<key>DisplayKind</key>" +:+ NL
  +:+ TB +:+ "<string>" +:+ displayKind +:+ "</string>" +:+ NL
  +:+ TB +:+ variableTag +:+ NL
  +:+ TB +:+ "<key>Text</key>" +:+ NL
  +:+ TB +:+ "<string>" +:+ escapeXml script +:+ "</string>" +:+ NL
  +:+ TB +:+ "<key>UseText</key>" +:+ NL
  +:+ TB +:+ "<true/>" +:+ NL
  +:+ TB +:+ "<key>TimeOutAbortsMacro</key>" +:+ NL
  +:+ TB +:+ "<true/>" +:+ NL
  +:+ TB +:+ "<key>TrimResults</key>" +:+ NL
  +:+ TB +:+ "<true/>" +:+ NL
  +:+ "</dict>".

(** The payload of [addShellScriptAction]: the result is kept in a
    variable when a non-empty name is given. *)
Definition shellScriptPayload (script : string)
    (saveToVariable : option string) : string :=
  match saveToVariable with
  | Some v =>
      if isEmpty v then shellScriptXml "None" EmptyString script
      else shellScriptXml "Variable" (variableTagXml v) script
  | None => shellScriptXml "None" EmptyString script
  end.

(** The body of [readEditorLog] once the file is read. *)
Definition editorEntries (dateParse : string -> option Z)
    (lines : option Z) (content : string) : list LogEntry :=
  let allLines :=
    filter (fun l => negb (isEmpty (trim l)) = true) (split NL content) in
  let recentLines := sliceFrom (- default 100 lines) allLines in
  omap (parseLogLine dateParse) recentLines.

Section MoreOperations.

Context {Ext : Type} `{Runtime Ext}.

Definition duplicateMacro (identifier : string) (newName : option string)
  : M Ext string :=
  tryCatch
    (macroId <- runAppleScriptFile (duplicateMacroScript identifier newName) ;;
     ret ("Macro " +:+ quoted identifier
          +:+ " duplicated successfully. New ID: " +:+ trim macroId))
    (fun e => throw ("Failed to duplicate macro: " +:+ e)).

Definition moveMacroToGroup (macroIdentifier groupIdentifier : string)
  : M Ext string :=
  tryCatch
    (runAppleScriptFile
       (moveMacroToGroupScript macroIdentifier groupIdentifier) ;;;
     ret ("Macro " +:+ quoted macroIdentifier +:+ " moved to group "
          +:+ quoted groupIdentifier))
    (fun e => throw ("Failed to move macro: " +:+ e)).

Definition createGroup (name : string) : M Ext string :=
  tryCatch
    (groupId <- runAppleScriptFile (createGroupScript name) ;;
     ret ("Macro Group " +:+ quoted name +:+ " created successfully with ID: "
          +:+ trim groupId))
    (fun e => throw ("Failed to create macro group: " +:+ e)).

Definition deleteGroup (identifier : string) : M Ext string :=
  tryCatch
    (runAppleScriptFile (deleteGroupScript identifier) ;;;
     ret ("Macro Group " +:+ quoted identifier +:+ " deleted successfully"))
    (fun e => throw ("Failed to delete macro group: " +:+ e)).

Definition toggleGroup (identifier : string) (enabled : bool)
  : M Ext string :=
  tryCatch
    (runAppleScriptFile (toggleGroupScript identifier enabled) ;;;
     ret ("Macro Group " +:+ quoted identifier +:+ " "
          +:+ (if enabled then "enabled" else "disabled")
          +:+ " successfully"))
    (fun e => throw ("Failed to " +:+ (if enabled then "enable" else "disable")
                     +:+ " macro group: " +:+ e)).

Definition addNotificationAction (macroIdentifier title message : string)
    (subtitle : option string) : M Ext string :=
  addAction macroIdentifier (notificationXml title message subtitle).

Definition addSetVariableAction (macroIdentifier variable value : string)
  : M Ext string :=
  addAction macroIdentifier (setVariableXml variable value).

Definition addCalculationAction (macroIdentifier variable expression : string)
  : M Ext string :=
  addAction macroIdentifier (calculationXml variable expression).

Definition addDisplayTextAction (macroIdentifier title text : string)
  : M Ext string :=
  addAction macroIdentifier (displayTextXml title text).

Definition addIfVariableContainsAction
    (macroIdentifier variable containsValue : string)
    (thenActionsXml elseActionsXml : option string) : M Ext string :=
  addAction macroIdentifier
    (ifVariableContainsXml variable containsValue
       (orEmpty thenActionsXml) (orEmpty elseActionsXml)).

Definition addIfCalculationAction (macroIdentifier calculation : string)
    (thenActionsXml elseActionsXml : option string) : M Ext string :=
  addAction macroIdentifier
    (ifCalculationXml calculation
       (orEmpty thenActionsXml) (orEmpty elseActionsXml)).

Definition addShellScriptAction (macroIdentifier script : string)
    (saveToVariable : option string) : M Ext string :=
  addAction macroIdentifier (shellScriptPayload script saveToVariable).

(** *** [variables.ts]: [searchVariables] *)

(** One turn of the loop: the name is kept when its value is read and is
    not empty; a failure of the read is passed over. *)
Definition probeVariable (foundVars : list string) (varName : string)
  : M Ext (list string) :=
  tryCatch
    (value <- getVariable varName ;;
     ret (if isEmpty value then foundVars else foundVars ++ [varName]))
    (fun _ => ret foundVars).

Fixpoint probeVariables (foundVars : list string) (names : list string)
  : M Ext (list string) :=
  match names with
  | [] => ret foundVars
  | varName :: rest =>
      found <- probeVariable foundVars varName ;;
      probeVariables found rest
  end.

Definition testVars (prefix : string) : list string :=
  [prefix; prefix +:+ "1"; prefix +:+ "2"; prefix +:+ "3"].

Definition searchVariables (prefix : string) : M Ext (list string) :=
  tryCatch
    (probeVariables [] (testVars prefix))
    (fun e => throw ("Failed to search variables: " +:+ e)).

(** *** [logs.ts]: [readEditorLog] *)

Definition EDITOR_LOG_PATH : string :=
  pathJoin homedir "Library/Logs/Keyboard Maestro/Editor.log".

Definition readEditorLog (lines : option Z) : M Ext (list LogEntry) :=
  tryCatch
    (content <- readFileUtf8 EDITOR_LOG_PATH ;;
     ret (editorEntries dateParse lines content))
    (fun e => throw ("Failed to read Editor log: " +:+ e)).

End MoreOperations.

(** ** The formats the payloads and the commands are read in

    The readers below are the other side of what the server writes: the
    text of an XML element with its five predefined entities, a property
    list dictionary of strings and booleans, a word of the shell between
    single quotes, a here-document, and the text a list script prints. *)

(** The character an entity stands for and the number of characters left
    to pass over once its ampersand is read. *)
Definition entity (s : string) : option (ascii * nat) :=
  if startsWith s "amp;" then Some ("&"%char, 4%nat)
  else if startsWith s "lt;" then Some ("<"%char, 3%nat)
  else if startsWith s "gt;" then Some (">"%char, 3%nat)
  else if startsWith s "quot;" then Some (dquote, 5%nat)
  else if startsWith s "apos;" then Some (squote, 5%nat)
  else None.

(** The character data at the head of [s]: the text it stands for and
    what follows it, which is empty or starts at the next tag; [None] when
    an ampersand starts no entity.  [skip] counts the characters of an
    entity still to be passed over. *)
Fixpoint readTextAux (skip : nat) (s : string) : option (string * string) :=
  match s with
  | EmptyString => Some (EmptyString, EmptyString)
  | String c s' =>
      match skip with
      | S k => readTextAux k s'
      | O =>
          if Ascii.eqb c "<" then Some (EmptyString, s)
          else if Ascii.eqb c "&" then
            match entity s' with
            | Some (d, k) => consFst d <$> readTextAux k s'
            | None => None
            end
          else consFst c <$> readTextAux O s'
      end
  end.

Definition readText (s : string) : option (string * string) :=
  readTextAux O s.

(** [s] without the token [tok] it starts with. *)
Definition expect (tok s : string) : option string :=
  if startsWith s tok then Some (dropStr (String.length tok) s) else None.

(** An element [<tag>text</tag>] at the head of [s]. *)
Definition readElement (tag s : string) : option (string * string) :=
  match expect ("<" +:+ tag +:+ ">") s with
  | Some s1 =>
      match readText s1 with
      | Some (v, s2) =>
          match expect ("</" +:+ tag +:+ ">") s2 with
          | Some s3 => Some (v, s3)
          | None => None
          end
      | None => None
      end
  | None => None
  end.

Inductive PlistValue : Type :=
| PString (s : string)
| PTrue
| PFalse.

Definition readValue (s : string) : option (PlistValue * string) :=
  match expect "<true/>" s with
  | Some r => Some (PTrue, r)
  | None =>
      match expect "<false/>" s with
      | Some r => Some (PFalse, r)
      | None =>
          match readElement "string" s with
          | Some (v, r) => Some (PString v, r)
          | None => None
          end
      end
  end.

(** The white space of XML: space, tab, line feed and carriage return. *)
Definition isXmlSpace (c : ascii) : bool :=
  Ascii.eqb c " " || Ascii.eqb c TAB || Ascii.eqb c LF || Ascii.eqb c CR.

Fixpoint skipXmlSpace (s : string) : string :=
  match s with
  | EmptyString => EmptyString
  | String c s' => if isXmlSpace c then skipXmlSpace s' else s
  end.

(** The entries of a dictionary whose opening tag has been passed, up to
    its closing tag, after which only white space may follow.  [fuel]
    bounds the number of entries. *)
Fixpoint readEntries (fuel : nat) (s : string)
  : option (list (string * PlistValue)) :=
  match fuel with
  | O => None
  | S fuel' =>
      let t := skipXmlSpace s in
      match expect "</dict>" t with
      | Some r => if isEmpty (skipXmlSpace r) then Some [] else None
      | None =>
          match readElement "key" t with
          | Some (k, s1) =>
              match readValue (skipXmlSpace s1) with
              | Some (v, s2) => cons (k, v) <$> readEntries fuel' s2
              | None => None
              end
          | None => None
          end
      end
  end.

Definition readDict (s : string) : option (list (string * PlistValue)) :=
  match expect "<dict>" s with
  | Some r => readEntries (S (String.length s)) r
  | None => None
  end.

(** The characters that end a word of the shell: space, tab and line
    feed. *)
Definition isBlank (c : ascii) : bool :=
  Ascii.eqb c " " || Ascii.eqb c TAB || Ascii.eqb c LF.

(** A word of the shell that starts inside single quotes: between single
    quotes every character stands for itself; outside them a backslash
    makes the next character stand for itself, a single quote opens a
    quoted part, and the word ends at the end of the command or at white
    space.  Other characters outside quotes are not read. *)
Fixpoint shWordAux (inQuote : bool) (s : string) : option string :=
  match s with
  | EmptyString => if inQuote then None else Some EmptyString
  | String c s' =>
      if inQuote then
        if Ascii.eqb c squote then shWordAux false s'
        else String c <$> shWordAux true s'
      else if Ascii.eqb c squote then shWordAux true s'
      else if Ascii.eqb c backslash then
        match s' with
        | String d s'' => String d <$> shWordAux false s''
        | EmptyString => None
        end
      else if isBlank c then Some EmptyString
      else None
  end.

(** The word at the head of [s], which must start with a single quote. *)
Definition shWord (s : string) : option string :=
  match s with
  | String c s' => if Ascii.eqb c squote then shWordAux true s' else None
  | EmptyString => None
  end.

(** [pieces.join(sep)] *)
Fixpoint join (sep : string) (pieces : list string) : string :=
  match pieces with
  | [] => EmptyString
  | [p] => p
  | p :: rest => p +:+ sep +:+ join sep rest
  end.

(** The lines of a here-document up to the line that is the delimiter,
    and the lines after that line. *)
Fixpoint untilDelimiter (delim : string) (lines : list string)
  : option (list string * list string) :=
  match lines with
  | [] => None
  | l :: rest =>
      if String.eqb l delim then Some ([], rest)
      else
        match untilDelimiter delim rest with
        | Some (body, after) => Some (l :: body, after)
        | None => None
        end
  end.

(** A command followed by a here-document with a quoted delimiter, as the
    shell reads it: the command line, the lines of the document, and the
    lines the shell goes on to run as commands. *)
Definition hereDocument (delim command : string)
  : option (string * list string * list string) :=
  match split NL command with
  | first :: rest =>
      match untilDelimiter delim rest with
      | Some (body, after) => Some (first, body, after)
      | None => None
      end
  | [] => None
  end.

(** What the scripts of [listMacros] and [searchMacros] print for the
    macros they find: name and id around three bars, the items with the
    text item delimiter of three semicolons between them. *)
Definition encodeMacro (m : MacroInfo) : string := name m +:+ "|||" +:+ uid m.

Definition encodeMacros (macros : list MacroInfo) : string :=
  join ";;;" (encodeMacro <$> macros).

(** Free of the given character. *)
Definition Without (c : ascii) (s : string) : Prop :=
  Forall (fun a => Ascii.eqb a c = false) (list_ascii_of_string s).

(** The characters that end or start markup, and the two quotes. *)
Definition isMarkup (c : ascii) : bool :=
  Ascii.eqb c "<" || Ascii.eqb c ">" || Ascii.eqb c dquote
  || Ascii.eqb c squote.

(** The fields of the macros the engine lists hold neither the bar nor
    the semicolon of the two separators. *)
Definition PlainMacro (m : MacroInfo) : Prop :=
  Without "|" (name m) /\ Without "|" (uid m) /\
  Without ";" (name m) /\ Without ";" (uid m).

(** The helper operations with their arguments, the payload each builds
    and the call it makes. *)
Inductive Helper : Type :=
| HelperNotification (title message : string) (subtitle : option string)
| HelperSetVariable (variable value : string)
| HelperCalculation (variable expression : string)
| HelperDisplayText (title text : string)
| HelperIfVariableContains (variable containsValue : string)
    (thenActionsXml elseActionsXml : option string)
| HelperIfCalculation (calculation : string)
    (thenActionsXml elseActionsXml : option string)
| HelperShellScript (script : string) (saveToVariable : option string).

Definition helperPayload (h : Helper) : string :=
  match h with
  | HelperNotification title message subtitle =>
      notificationXml title message subtitle
  | HelperSetVariable variable value => setVariableXml variable value
  | HelperCalculation variable expression =>
      calculationXml variable expression
  | HelperDisplayText title text => displayTextXml title text
  | HelperIfVariableContains variable containsValue t e =>
      ifVariableContainsXml variable containsValue (orEmpty t) (orEmpty e)
  | HelperIfCalculation calculation t e =>
      ifCalculationXml calculation (orEmpty t) (orEmpty e)
  | HelperShellScript script saveToVariable =>
      shellScriptPayload script saveToVariable
  end.

Definition runHelper {Ext : Type} `{Runtime Ext} (macroIdentifier : string)
    (h : Helper) : M Ext string :=
  match h with
  | HelperNotification title message subtitle =>
      addNotificationAction macroIdentifier title message subtitle
  | HelperSetVariable variable value =>
      addSetVariableAction macroIdentifier variable value
  | HelperCalculation variable expression =>
      addCalculationAction macroIdentifier variable expression
  | HelperDisplayText title text =>
      addDisplayTextAction macroIdentifier title text
  | HelperIfVariableContains variable containsValue t e =>
      addIfVariableContainsAction macroIdentifier variable containsValue t e
  | HelperIfCalculation calculation t e =>
      addIfCalculationAction macroIdentifier calculation t e
  | HelperShellScript script saveToVariable =>
      addShellScriptAction macroIdentifier script saveToVariable
  end.

(** The fields of a group as the decoder of [listGroups] leaves them:
    trimmed, with a name that is not empty. *)
Definition TrimmedGroup (g : MacroInfo) : Prop :=
  name g <> EmptyString /\ trim (name g) = name g /\ trim (uid g) = uid g.

(** ** A host with the engine

    The engine reads the script that the shell hands to [osascript]: the
    text of a here-document.  The reader below reads the script of
    [moveAction] back from that text, and the host runs it on the macros
    it holds. *)

Fixpoint skipSpaces (s : string) : string :=
  match s with
  | String c s' => if Ascii.eqb c " " then skipSpaces s' else s
  | EmptyString => EmptyString
  end.

(** The digits at the head of [s], and what follows them. *)
Fixpoint spanDigits (s : string) : string * string :=
  match s with
  | String c s' =>
      if isDigit c then consFst c (spanDigits s') else (EmptyString, s)
  | EmptyString => (EmptyString, EmptyString)
  end.

(** Modelled from the spec: the engine's reading of a position, a number
    written in decimal digits. *)
Definition readNumber (s : string) : option (Z * string) :=
  let '(digits, rest) := spanDigits s in
  if isEmpty digits then None
  else
    match NilEmpty.uint_of_string digits with
    | Some d => Some (Z.of_uint d, rest)
    | None => None
    end.

(** Modelled from the spec: the engine's reading of the place an action
    is moved to. *)
Definition readLocation (s : string) : option (Location * string) :=
  match expect "after last action" s with
  | Some r => Some (AfterLastAction, r)
  | None =>
      r ← expect "before action " s;
      '(j, r') ← readNumber r;
      Some (BeforeAction j, r')
  end.

(** Modelled from the spec: the engine's reading of a command inside
    [tell theMacro]: a move, or a test on the number of actions with a
    command on each side.  Each command is on a line of its own, after any
    number of spaces; [fuel] bounds the nesting. *)
Fixpoint readCommand (fuel : nat) (s : string) : option (Command * string) :=
  match fuel with
  | O => None
  | S fuel' =>
      let t := skipSpaces s in
      match expect "move action " t with
      | Some t1 =>
          '(i, t2) ← readNumber t1;
          t3 ← expect " to " t2;
          '(l, t4) ← readLocation t3;
          t5 ← expect NL t4;
          Some (MoveAction i l, t5)
      | None =>
          t1 ← expect "if " t;
          '(n, t2) ← readNumber t1;
          t3 ← expect (" > count of actions then" +:+ NL) t2;
          '(c1, t4) ← readCommand fuel' t3;
          t5 ← expect ("else" +:+ NL) (skipSpaces t4);
          '(c2, t6) ← readCommand fuel' t5;
          t7 ← expect ("end if" +:+ NL) (skipSpaces t6);
          Some (IfGreaterThanCount n c1 c2, t7)
      end
  end.

(** Modelled from the spec: the engine's reading of a script that names a
    macro by a name and an id and gives a command for its actions; the
    result is the name, the id and the command. *)
Definition readMoveScript (s : string) : option (string * string * Command) :=
  s1 ← expect tellEditor s;
  s2 ← expect ("  set theMacro to first macro whose name is " +:+ DQ) s1;
  '(n, s3) ← readLiteral s2;
  s4 ← expect (" or id is " +:+ DQ) s3;
  '(i, s5) ← readLiteral s4;
  s6 ← expect (NL +:+ "  tell theMacro" +:+ NL) s5;
  '(c, s7) ← readCommand (String.length s) s6;
  s8 ← expect ("  end tell" +:+ NL +:+ "end tell") s7;
  if isEmpty s8 then Some (n, i, c) else None.

(** Modelled from the spec: a macro of the engine, with its name, its id
    and its ordered actions. *)
Record Macro (A : Type) : Type := mkMacro {
  macroTitle : string;
  macroUid : string;
  macroActions : list A
}.
Arguments mkMacro {A} macroTitle macroUid macroActions.
Arguments macroTitle {A} m.
Arguments macroUid {A} m.
Arguments macroActions {A} m.

(** Modelled from the spec: the engine, which is outside the sources,
    as the macros it holds, in its order. *)
Record Engine (A : Type) : Type := mkEngine {
  engineMacros : list (Macro A)
}.
Arguments mkEngine {A} engineMacros.
Arguments engineMacros {A} e.

Section EngineHost.

Context {A : Type}.

(** Modelled from the spec: a macro whose name is [n] or whose id is
    [i]. *)
Definition refersTo (n i : string) (m : Macro A) : bool :=
  String.eqb (macroTitle m) n || String.eqb (macroUid m) i.

(** Modelled from the spec: the engine's [tell] to the first macro whose
    name is [n] or whose id is [i]; the command [f] changes the actions of
    that macro, and a reference to no macro is an error. *)
Fixpoint tellFirst (n i : string) (f : list A -> Result (list A))
    (macros : list (Macro A)) : Result (list (Macro A)) :=
  match macros with
  | [] => Throw "Can't get macro"
  | m :: rest =>
      if refersTo n i m then
        match f (macroActions m) with
        | Ok actions => Ok (mkMacro (macroTitle m) (macroUid m) actions :: rest)
        | Throw e => Throw e
        end
      else
        match tellFirst n i f rest with
        | Ok rest' => Ok (m :: rest')
        | Throw e => Throw e
        end
  end.

(** Modelled from the spec: the engine running the text of a script. *)
Definition runMoveScript (script : string) (macros : list (Macro A))
  : Result (list (Macro A)) :=
  match readMoveScript script with
  | Some (n, i, c) => tellFirst n i (runCommand c) macros
  | None => Throw "syntax error"
  end.

(** Modelled from the spec: the shell and the engine behind
    [child_process.exec], for the command of [runAppleScriptFile]: the
    shell hands the here-document to [osascript], the engine runs it, and
    a script that fails leaves the macros as they were.  The script
    prints nothing. *)
Definition engineExec (command : string) (x : Engine A)
  : Result (string * string) * Engine A :=
  match hereDocument "APPLESCRIPT" command with
  | Some (first, body, []) =>
      if String.eqb first
           ("osascript <<" +:+ str1 squote +:+ "APPLESCRIPT" +:+ str1 squote)
      then
        match runMoveScript (join NL body) (engineMacros x) with
        | Ok macros => (Ok (EmptyString, EmptyString), mkEngine macros)
        | Throw e => (Throw ("Command failed: " +:+ e), x)
        end
      else (Throw "Command failed", x)
  | _ => (Throw "Command failed", x)
  end.

(** A host that has the engine and nothing else: no file, and a clock
    that stands still. *)
#[export] Instance engineRuntime : Runtime (Engine A) := {
  execAsync := engineExec;
  writeFileSync _ _ x := (Throw "EROFS: read-only file system", x);
  unlinkSync p x := (Throw (noSuchFile p), x);
  readFile p x := (Throw (noSuchFile p), x);
  dateNow _ := 0;
  dateParse := utcDateValue;
  toLowerCase := lowerAsciiString;
  tmpdir := "/tmp";
  homedir := "/Users/me"
}.

End EngineHost.

(* ================================================================== *)
(** * Part II: properties                                              *)
(* ================================================================== *)

(** ** Strings *)

Lemma app_nil_l_str (s : string) : EmptyString +:+ s = s.
Proof. reflexivity. Qed.

Lemma app_cons_str (c : ascii) (s t : string) :
  String c s +:+ t = String c (s +:+ t).
Proof. reflexivity. Qed.

Lemma str1_app (c : ascii) (s : string) : str1 c +:+ s = String c s.
Proof. reflexivity. Qed.

Lemma app_nil_r_str (s : string) : s +:+ EmptyString = s.
Proof.
  induction s as [|c s IH]; [reflexivity|].
  rewrite app_cons_str, IH. reflexivity.
Qed.

Lemma app_assoc_str (s t u : string) : (s +:+ t) +:+ u = s +:+ (t +:+ u).
Proof.
  induction s as [|c s IH]; [reflexivity|].
  rewrite !app_cons_str, IH. reflexivity.
Qed.

Lemma length_app_str (s t : string) :
  String.length (s +:+ t) = (String.length s + String.length t)%nat.
Proof.
  induction s as [|c s IH]; [reflexivity|].
  rewrite app_cons_str. simpl. rewrite IH. reflexivity.
Qed.

Lemma chars_app (s t : string) :
  list_ascii_of_string (s +:+ t)
  = list_ascii_of_string s ++ list_ascii_of_string t.
Proof.
  induction s as [|c s IH]; [reflexivity|].
  rewrite app_cons_str. simpl. rewrite IH. reflexivity.
Qed.

Lemma app_eq_nil_str (s t : string) :
  s +:+ t = EmptyString -> s = EmptyString /\ t = EmptyString.
Proof. destruct s; [intros <-; split; reflexivity | discriminate]. Qed.

Lemma revStr_spec (acc s : string) :
  revStr acc s = revStr EmptyString s +:+ acc.
Proof.
  revert acc. induction s as [|c s IH]; intros acc; simpl.
  - rewrite app_nil_l_str. reflexivity.
  - rewrite IH, (IH (String c EmptyString)), app_assoc_str.
    rewrite app_cons_str, app_nil_l_str. reflexivity.
Qed.

Lemma revStr_app (acc x y : string) :
  revStr acc (x +:+ y) = revStr (revStr acc x) y.
Proof.
  revert acc. induction x as [|c x IH]; intros acc.
  - rewrite app_nil_l_str. reflexivity.
  - rewrite app_cons_str. simpl. apply IH.
Qed.

Lemma revStr_involutive (s : string) :
  revStr EmptyString (revStr EmptyString s) = s.
Proof.
  induction s as [|c s IH]; [reflexivity|].
  simpl. rewrite (revStr_spec (String c EmptyString) s), revStr_app, IH.
  reflexivity.
Qed.

Lemma isEmpty_true (s : string) : isEmpty s = true <-> s = EmptyString.
Proof. destruct s; simpl; split; congruence. Qed.

Lemma isEmpty_false (s : string) : isEmpty s = false <-> s <> EmptyString.
Proof. destruct s; simpl; split; congruence. Qed.

Lemma startsWith_spec (s tok : string) :
  startsWith s tok = true <-> StartsWith tok s.
Proof.
  revert s. induction tok as [|a tok IH]; intros s; simpl.
  - split; [intros _; exists s; reflexivity | reflexivity].
  - destruct s as [|b s].
    + split; [discriminate | intros [rest Hr]; discriminate].
    + rewrite andb_true_iff, Ascii.eqb_eq, IH. split.
      * intros [-> [rest ->]]. exists rest. reflexivity.
      * intros [rest Hr]. rewrite app_cons_str in Hr.
        injection Hr as -> ->. split; [reflexivity | exists rest; reflexivity].
Qed.

Lemma isWhiteSpace_In (w : string) :
  isWhiteSpace w = true <-> In w whiteSpace.
Proof.
  unfold isWhiteSpace. rewrite existsb_exists. split.
  - intros [x [Hx He]]. apply String.eqb_eq in He. congruence.
  - intros Hw. exists w. split; [exact Hw | apply String.eqb_refl].
Qed.

Lemma whiteSpace_length (w : string) :
  isWhiteSpace w = true -> (1 <= String.length w <= 4)%nat.
Proof.
  intros Hw. apply isWhiteSpace_In in Hw.
  assert (Hall : forallb (fun w => (1 <=? String.length w)%nat
                                   && (String.length w <=? 4)%nat)
                   whiteSpace = true) by (vm_compute; reflexivity).
  rewrite forallb_forall in Hall. specialize (Hall w Hw).
  apply andb_true_iff in Hall as [H1 H2].
  apply Nat.leb_le in H1, H2. lia.
Qed.

Lemma isWhiteSpace_IsChar (w : string) :
  isWhiteSpace w = true -> IsChar isWhiteSpace w.
Proof. intros Hw. split; [exact Hw | apply whiteSpace_length, Hw]. Qed.

Lemma AllSpace_nil : AllSpace EmptyString.
Proof. constructor. Qed.

Lemma AllSpace_cons (w s : string) :
  isWhiteSpace w = true -> AllSpace s -> AllSpace (w +:+ s).
Proof.
  intros Hw Hs. constructor; [apply isWhiteSpace_IsChar, Hw | exact Hs].
Qed.

Lemma CharsOf_app (p : string -> bool) (l r : string) :
  CharsOf p l -> CharsOf p r -> CharsOf p (l +:+ r).
Proof.
  intros Hl Hr. induction Hl as [|t s Ht Hs IH]; [exact Hr|].
  rewrite app_assoc_str. constructor; assumption.
Qed.

Lemma CharsOf_last (p : string -> bool) (s : string) :
  CharsOf p s -> s <> EmptyString ->
  exists front t, s = front +:+ t /\ IsChar p t.
Proof.
  intros Hs. induction Hs as [|t s Ht Hs IH]; [congruence|]. intros _.
  destruct s as [|c s].
  - exists EmptyString, t. rewrite app_nil_r_str.
    split; [reflexivity | exact Ht].
  - destruct IH as (front & u & Hu & Hpu); [discriminate|].
    exists (t +:+ front), u. rewrite Hu, app_assoc_str.
    split; [reflexivity | exact Hpu].
Qed.

(** No white-space character is the start of another. *)
Lemma startsWith_app_cases (w rest v : string) :
  startsWith (w +:+ rest) v = true ->
  startsWith w v = true \/ startsWith v w = true.
Proof.
  revert w. induction v as [|a v IH]; intros w; simpl; [left; reflexivity|].
  destruct w as [|b w]; [right; reflexivity|].
  rewrite app_cons_str. simpl.
  destruct (Ascii.eqb_spec a b) as [->|Hab]; [|discriminate].
  rewrite Ascii.eqb_refl. simpl. apply IH.
Qed.

Lemma whiteSpace_prefix_free (w v : string) :
  In w whiteSpace -> In v whiteSpace -> startsWith w v = true -> v = w.
Proof.
  intros Hw Hv Hs.
  assert (Hall : forallb (fun w => forallb (fun v =>
                   negb (startsWith w v) || String.eqb v w) whiteSpace)
                   whiteSpace = true) by (vm_compute; reflexivity).
  rewrite forallb_forall in Hall. specialize (Hall w Hw).
  rewrite forallb_forall in Hall. specialize (Hall v Hv).
  rewrite Hs in Hall. simpl in Hall. apply String.eqb_eq, Hall.
Qed.

Lemma find_unique {A} (f : A -> bool) (l : list A) (a : A) :
  In a l -> f a = true -> (forall x, In x l -> f x = true -> x = a) ->
  List.find f l = Some a.
Proof.
  induction l as [|x l IH]; simpl; [tauto|]. intros Ha Hf Hu.
  destruct (f x) eqn:Hx.
  - f_equal. apply Hu; [left; reflexivity | exact Hx].
  - destruct Ha as [-> | Ha]; [congruence|].
    apply IH; [exact Ha | exact Hf |].
    intros y Hy. apply Hu. right. exact Hy.
Qed.

Lemma startsWith_app_self (w rest : string) : startsWith (w +:+ rest) w = true.
Proof. apply startsWith_spec. exists rest. reflexivity. Qed.

Lemma spaceLength_space (w rest : string) :
  isWhiteSpace w = true -> spaceLength (w +:+ rest) = String.length w.
Proof.
  intros Hw. apply isWhiteSpace_In in Hw. unfold spaceLength.
  rewrite (find_unique _ _ w Hw (startsWith_app_self w rest)); [reflexivity|].
  intros v Hv Hs. apply startsWith_app_cases in Hs as [Hs | Hs].
  - apply whiteSpace_prefix_free; assumption.
  - symmetry. apply whiteSpace_prefix_free; assumption.
Qed.

Lemma spaceLength_pos (s : string) (k : nat) :
  spaceLength s = S k ->
  exists w rest, isWhiteSpace w = true /\ s = w +:+ rest
                 /\ String.length w = S k.
Proof.
  unfold spaceLength.
  destruct (List.find (startsWith s) whiteSpace) as [w|] eqn:Hf;
    [|discriminate].
  apply find_some in Hf as [Hw Hs]. intros Hk.
  apply startsWith_spec in Hs as [rest ->].
  exists w, rest. rewrite isWhiteSpace_In. auto.
Qed.

Lemma spaceLength_zero (s : string) :
  spaceLength s = O <->
  forall w rest, isWhiteSpace w = true -> s <> w +:+ rest.
Proof.
  split.
  - intros Hz w rest Hw ->. rewrite (spaceLength_space w rest Hw) in Hz.
    apply whiteSpace_length in Hw. lia.
  - intros Hn. destruct (spaceLength s) as [|k] eqn:Hk; [reflexivity|].
    apply spaceLength_pos in Hk as (w & rest & Hw & Hs & _).
    exfalso. exact (Hn w rest Hw Hs).
Qed.

(** ** [trim] removes the white space at both ends and nothing else *)

Lemma trimStartFrom_skip (u s : string) :
  trimStartFrom (String.length u) (u +:+ s) = trimStart s.
Proof.
  induction u as [|c u IH]; [reflexivity|].
  rewrite app_cons_str. simpl. exact IH.
Qed.

Lemma trimStart_space (w rest : string) :
  isWhiteSpace w = true -> trimStart (w +:+ rest) = trimStart rest.
Proof.
  intros Hw. pose proof (spaceLength_space w rest Hw) as Hl.
  pose proof (whiteSpace_length w Hw) as Hlen.
  destruct w as [|c w]; [simpl in Hlen; lia|].
  unfold trimStart at 1. rewrite app_cons_str in *.
  cbn [trimStartFrom]. rewrite Hl. cbn [String.length].
  apply trimStartFrom_skip.
Qed.

Lemma trimStart_id (t : string) :
  (forall w rest, isWhiteSpace w = true -> t <> w +:+ rest) ->
  trimStart t = t.
Proof.
  intros Hh. apply (proj2 (spaceLength_zero t)) in Hh.
  destruct t as [|c t]; [reflexivity|].
  unfold trimStart. cbn [trimStartFrom]. rewrite Hh. reflexivity.
Qed.

(** The two cases of [trimStart]. *)
Lemma trimStart_cases (P : string -> string -> Prop) :
  (forall s, (forall w rest, isWhiteSpace w = true -> s <> w +:+ rest) ->
             P s s) ->
  (forall w rest t, isWhiteSpace w = true -> P rest t -> P (w +:+ rest) t) ->
  forall s, P s (trimStart s).
Proof.
  intros Hstop Hskip s.
  remember (String.length s) as n eqn:Hn.
  revert s Hn. induction n as [n IH] using lt_wf_ind. intros s Hn.
  destruct (spaceLength s) as [|k] eqn:Hk.
  - pose proof (proj1 (spaceLength_zero s) Hk) as Hs.
    rewrite (trimStart_id s Hs). apply Hstop, Hs.
  - apply spaceLength_pos in Hk as (w & rest & Hw & -> & Hlen).
    rewrite (trimStart_space w rest Hw). apply Hskip; [exact Hw|].
    apply (IH (String.length rest)); [|reflexivity].
    rewrite Hn, length_app_str. lia.
Qed.

Lemma trimStart_split (s : string) :
  exists l, s = l +:+ trimStart s /\ AllSpace l.
Proof.
  apply (trimStart_cases (fun s t => exists l, s = l +:+ t /\ AllSpace l)).
  - intros s0 _. exists EmptyString. split; [reflexivity | apply AllSpace_nil].
  - intros w rest t Hw (l & -> & Hl). exists (w +:+ l).
    rewrite app_assoc_str.
    split; [reflexivity | apply AllSpace_cons; assumption].
Qed.

Lemma trimStart_head (s w rest : string) :
  isWhiteSpace w = true -> trimStart s <> w +:+ rest.
Proof.
  revert w rest.
  apply (trimStart_cases
           (fun s t =>
              forall w rest, isWhiteSpace w = true -> t <> w +:+ rest)).
  - intros s0 Hs0. exact Hs0.
  - intros w rest t _ Ht. exact Ht.
Qed.

Lemma allSpaceFrom_skip (u s : string) :
  allSpaceFrom (String.length u) (u +:+ s) = allSpace s.
Proof.
  induction u as [|c u IH]; [reflexivity|].
  rewrite app_cons_str. simpl. exact IH.
Qed.

Lemma allSpace_space (w rest : string) :
  isWhiteSpace w = true -> allSpace (w +:+ rest) = allSpace rest.
Proof.
  intros Hw. pose proof (spaceLength_space w rest Hw) as Hl.
  pose proof (whiteSpace_length w Hw) as Hlen.
  destruct w as [|c w]; [simpl in Hlen; lia|].
  unfold allSpace at 1. rewrite app_cons_str in *.
  cbn [allSpaceFrom]. rewrite Hl. cbn [String.length].
  apply allSpaceFrom_skip.
Qed.

Lemma allSpace_spec (s : string) : allSpace s = true <-> AllSpace s.
Proof.
  split.
  - remember (String.length s) as n eqn:Hn.
    revert s Hn. induction n as [n IH] using lt_wf_ind. intros s Hn Ha.
    destruct s as [|c s]; [apply AllSpace_nil|].
    destruct (spaceLength (String c s)) as [|k] eqn:Hk.
    + unfold allSpace in Ha. cbn [allSpaceFrom] in Ha. rewrite Hk in Ha.
      discriminate Ha.
    + apply spaceLength_pos in Hk as (w & rest & Hw & Hs & Hlen).
      rewrite Hs in *. rewrite (allSpace_space w rest Hw) in Ha.
      apply AllSpace_cons; [exact Hw|].
      apply (IH (String.length rest)); [|reflexivity | exact Ha].
      rewrite Hn, length_app_str. lia.
  - intros Hs. induction Hs as [|t s [Ht _] Hs IH]; [reflexivity|].
    rewrite (allSpace_space t s Ht). exact IH.
Qed.

Lemma trimEnd_split (s : string) :
  exists r, s = trimEnd s +:+ r /\ AllSpace r.
Proof.
  induction s as [|c s [r [Hr Hsp]]].
  - exists EmptyString. split; [reflexivity | apply AllSpace_nil].
  - cbn [trimEnd]. destruct (allSpace (String c s)) eqn:Ha.
    + exists (String c s). split; [reflexivity | apply allSpace_spec, Ha].
    + exists r. rewrite app_cons_str, <- Hr. split; [reflexivity | exact Hsp].
Qed.

(** [trimEnd] leaves the shortest front that is followed by white space
    only. *)
Lemma trimEnd_shortest (s p r : string) :
  s = p +:+ r -> AllSpace r -> exists q, p = trimEnd s +:+ q.
Proof.
  revert p. induction s as [|c s IH]; intros p Hs Hr.
  - exists p. reflexivity.
  - cbn [trimEnd]. destruct (allSpace (String c s)) eqn:Ha.
    + exists p. reflexivity.
    + destruct p as [|a p].
      * rewrite app_nil_l_str in Hs. subst r.
        apply allSpace_spec in Hr. congruence.
      * rewrite app_cons_str in Hs. injection Hs as <- Hs.
        destruct (IH p Hs Hr) as [q Hq]. exists q.
        rewrite app_cons_str, <- Hq. reflexivity.
Qed.

Lemma trimEnd_last (s w front : string) :
  isWhiteSpace w = true -> trimEnd s <> front +:+ w.
Proof.
  intros Hw Ht. destruct (trimEnd_split s) as [r [Hr Hsp]].
  rewrite Ht, app_assoc_str in Hr.
  destruct (trimEnd_shortest s front (w +:+ r) Hr (AllSpace_cons w r Hw Hsp))
    as [q Hq].
  rewrite Ht, app_assoc_str in Hq.
  apply (f_equal String.length) in Hq. rewrite !length_app_str in Hq.
  apply whiteSpace_length in Hw. lia.
Qed.

Lemma trim_Trimmed (s : string) : Trimmed s (trim s).
Proof.
  unfold Trimmed, trim.
  destruct (trimStart_split s) as [l [Hl Hls]].
  destruct (trimEnd_split (trimStart s)) as [r [Hr Hrs]].
  split; [|split].
  - exists l, r. split; [|split; assumption].
    rewrite <- Hr. exact Hl.
  - intros w rest Hw Ht. rewrite Ht, app_assoc_str in Hr.
    exact (trimStart_head s w _ Hw Hr).
  - intros w front Hw Ht. exact (trimEnd_last _ w front Hw Ht).
Qed.

(** What is trimmed once is not changed by trimming again. *)
Lemma trimEnd_id (t : string) :
  (forall w front, isWhiteSpace w = true -> t <> front +:+ w) ->
  trimEnd t = t.
Proof.
  induction t as [|a t IH]; [reflexivity|]. intros Hl. cbn [trimEnd].
  destruct (allSpace (String a t)) eqn:Ha.
  - apply allSpace_spec in Ha.
    destruct (CharsOf_last _ _ Ha) as (front & w & Hs & [Hw _]);
      [discriminate|].
    exfalso. exact (Hl w front Hw Hs).
  - rewrite IH; [reflexivity|].
    intros w front Hw Ht. apply (Hl w (String a front) Hw).
    rewrite app_cons_str, Ht. reflexivity.
Qed.

Lemma trim_idempotent (s : string) : trim (trim s) = trim s.
Proof.
  destruct (trim_Trimmed s) as [_ [Hh Hl]].
  unfold trim at 1. rewrite (trimStart_id _ Hh). apply trimEnd_id, Hl.
Qed.

(** A text whose first byte starts no white-space character and whose
    last byte ends none is its own trimmed form. *)
Lemma head_not_space (c : ascii) (t w rest : string) :
  forallb (fun v => negb (startsWith v (str1 c))) whiteSpace = true ->
  isWhiteSpace w = true -> String c t <> w +:+ rest.
Proof.
  intros Hall Hw Heq. pose proof (whiteSpace_length w Hw) as Hlen.
  apply isWhiteSpace_In in Hw. rewrite forallb_forall in Hall.
  specialize (Hall w Hw). destruct w as [|a w]; [simpl in Hlen; lia|].
  rewrite app_cons_str in Heq. injection Heq as <- _.
  simpl in Hall. rewrite Ascii.eqb_refl in Hall. discriminate Hall.
Qed.

Lemma last_not_space (c : ascii) (front w front' : string) :
  forallb (fun v => negb (startsWith (revStr EmptyString v) (str1 c)))
    whiteSpace = true ->
  isWhiteSpace w = true -> front +:+ str1 c <> front' +:+ w.
Proof.
  intros Hall Hw Heq. pose proof (whiteSpace_length w Hw) as Hlen.
  apply isWhiteSpace_In in Hw. rewrite forallb_forall in Hall.
  specialize (Hall w Hw).
  apply (f_equal (revStr EmptyString)) in Heq.
  rewrite !revStr_app in Heq. simpl in Heq.
  rewrite (revStr_spec (revStr EmptyString front') w) in Heq.
  destruct (revStr EmptyString w) as [|a r] eqn:Hr.
  - pose proof (revStr_involutive w) as Hi. rewrite Hr in Hi. simpl in Hi.
    subst w. simpl in Hlen. lia.
  - rewrite app_cons_str in Heq. injection Heq as <- _.
    simpl in Hall. rewrite Ascii.eqb_refl in Hall. discriminate Hall.
Qed.

Lemma trim_plain_ends (c d : ascii) (rest front : string) :
  forallb (fun v => negb (startsWith v (str1 c))) whiteSpace = true ->
  forallb (fun v => negb (startsWith (revStr EmptyString v) (str1 d)))
    whiteSpace = true ->
  String c rest = front +:+ str1 d ->
  trim (String c rest) = String c rest.
Proof.
  intros Hc Hd Heq. unfold trim. rewrite trimStart_id.
  - apply trimEnd_id. intros w front' Hw. rewrite Heq.
    apply last_not_space; assumption.
  - intros w r Hw. apply head_not_space; assumption.
Qed.

(** ** The payload envelope *)

Lemma LooksWrapped_startsWith (t : string) :
  startsWith t "<?xml" || startsWith t "<!DOCTYPE" || startsWith t "<plist"
  = true <-> LooksWrapped t.
Proof.
  unfold LooksWrapped.
  rewrite !orb_true_iff, !startsWith_spec. tauto.
Qed.

(** C6: the payload-wrapping function returns the trimmed payload as it is
    when it starts with the XML declaration token, the doctype token or
    the root-element token, and otherwise returns the declaration, the
    doctype header and the root element around the trimmed payload; the
    trimmed payload is the payload without the white space at its ends. *)
Theorem wrapXmlInPlist_envelope (xml : string) :
  Trimmed xml (trim xml) /\
  (LooksWrapped (trim xml) -> wrapXmlInPlist xml = trim xml) /\
  (~ LooksWrapped (trim xml) ->
   wrapXmlInPlist xml
   = xmlDeclaration +:+ NL +:+ plistDoctype +:+ NL +:+ plistOpen +:+ NL
     +:+ trim xml +:+ NL +:+ plistClose).
Proof.
  split; [apply trim_Trimmed|].
  unfold wrapXmlInPlist.
  destruct (startsWith (trim xml) "<?xml" || startsWith (trim xml) "<!DOCTYPE"
            || startsWith (trim xml) "<plist") eqn:Hw.
  - split; [reflexivity|].
    intros Hn. exfalso. apply Hn, LooksWrapped_startsWith, Hw.
  - split; [|reflexivity].
    intros Hy. apply LooksWrapped_startsWith in Hy. congruence.
Qed.

(** A document that a byte order mark leads and a no-break space follows
    is returned without them; a fragment between spaces gets the envelope. *)
Lemma wrapXmlInPlist_envelope_witness :
  wrapXmlInPlist (utf8 [239; 187; 191]%nat +:+ " <plist><dict/></plist>"
                  +:+ utf8 [194; 160]%nat)
  = "<plist><dict/></plist>" /\
  wrapXmlInPlist " <dict/> "
  = xmlDeclaration +:+ NL +:+ plistDoctype +:+ NL +:+ plistOpen +:+ NL
    +:+ "<dict/>" +:+ NL +:+ plistClose.
Proof.
  split.
  - apply (proj1 (proj2 (wrapXmlInPlist_envelope
                           (utf8 [239; 187; 191]%nat
                            +:+ " <plist><dict/></plist>"
                            +:+ utf8 [194; 160]%nat)))).
    right. right. exists "><dict/></plist>". vm_compute. reflexivity.
  - apply (proj2 (proj2 (wrapXmlInPlist_envelope " <dict/> "))).
    intros Hw. apply LooksWrapped_startsWith in Hw. vm_compute in Hw.
    discriminate Hw.
Defined.

(** The result always looks wrapped. *)
Lemma wrapXmlInPlist_LooksWrapped (xml : string) :
  LooksWrapped (wrapXmlInPlist xml).
Proof.
  unfold wrapXmlInPlist.
  destruct (startsWith (trim xml) "<?xml" || startsWith (trim xml) "<!DOCTYPE"
            || startsWith (trim xml) "<plist") eqn:Hw.
  - apply LooksWrapped_startsWith, Hw.
  - left. apply startsWith_spec. reflexivity.
Qed.

(** ** The matcher finds a match exactly when the pattern denotes one *)

Lemma lang_plus_inv (p : ascii -> bool) (s : string) :
  lang (Plus p) s ->
  exists c s', s = String c s' /\ p c = true /\
               (s' = EmptyString \/ lang (Plus p) s').
Proof.
  intros Hl. inversion Hl; subst.
  - eexists _, _. split; [reflexivity|]. split; [assumption | left; reflexivity].
  - eexists _, _. split; [reflexivity|]. split; [assumption | right; assumption].
Qed.

Lemma is_Some_orelse {A} (x y : option A) :
  is_Some (match x with Some a => Some a | None => y end)
  <-> is_Some x \/ is_Some y.
Proof.
  destruct x as [a|]; split.
  - intros _. left. eexists. reflexivity.
  - intros _. eexists. reflexivity.
  - intros Hy. right. exact Hy.
  - intros [[a Ha] | Hy]; [discriminate | exact Hy].
Qed.

Lemma plusGreedy_spec {A} (p : ascii -> bool) (s : string)
    (k : string -> option A) :
  is_Some (plusGreedy p s k)
  <-> exists s1 s2, s = s1 +:+ s2 /\ lang (Plus p) s1 /\ is_Some (k s2).
Proof.
  induction s as [|c s IH]; simpl.
  - split; [intros [? ?]; discriminate|].
    intros (s1 & s2 & Hs & Hl & _).
    symmetry in Hs. apply app_eq_nil_str in Hs as [-> _].
    apply lang_plus_inv in Hl as (? & ? & ? & _). discriminate.
  - destruct (p c) eqn:Hc.
    + rewrite is_Some_orelse, IH. split.
      * intros [(s1 & s2 & -> & Hl & Hk) | Hk].
        -- exists (String c s1), s2. split; [reflexivity|].
           split; [apply lang_plus_more; assumption | assumption].
        -- exists (str1 c), s. split; [reflexivity|].
           split; [apply lang_plus_one; assumption | assumption].
      * intros (s1 & s2 & Hs & Hl & Hk).
        apply lang_plus_inv in Hl as (c' & s1' & -> & _ & Hrest).
        rewrite app_cons_str in Hs. injection Hs as <- ->.
        destruct Hrest as [-> | Hl'].
        -- right. exact Hk.
        -- left. exists s1', s2. split; [reflexivity | split; assumption].
    + split; [intros [? ?]; discriminate|].
      intros (s1 & s2 & Hs & Hl & _).
      apply lang_plus_inv in Hl as (c' & s1' & -> & Hc' & _).
      rewrite app_cons_str in Hs. injection Hs as <- _. congruence.
Qed.

Lemma takeStr_dropStr (n : nat) (s : string) :
  takeStr n s +:+ dropStr n s = s.
Proof.
  revert s. induction n as [|n IH]; intros s; [reflexivity|].
  destruct s as [|c s]; [reflexivity|].
  simpl. rewrite app_cons_str, IH. reflexivity.
Qed.

Lemma length_takeStr (n : nat) (s : string) :
  (n <= String.length s)%nat -> String.length (takeStr n s) = n.
Proof.
  revert s. induction n as [|n IH]; intros s Hn; [reflexivity|].
  destruct s as [|c s]; simpl in *; [lia|]. rewrite IH; [reflexivity | lia].
Qed.

Lemma takeStr_length_app (s1 s2 : string) :
  takeStr (String.length s1) (s1 +:+ s2) = s1.
Proof.
  induction s1 as [|c s1 IH]; [reflexivity|].
  rewrite app_cons_str. simpl. rewrite IH. reflexivity.
Qed.

Lemma dropStr_length_app (s1 s2 : string) :
  dropStr (String.length s1) (s1 +:+ s2) = s2.
Proof.
  induction s1 as [|c s1 IH]; [reflexivity|].
  rewrite app_cons_str. simpl. exact IH.
Qed.

(** One character of a class, found by the matcher at the head of the
    input. *)
Lemma oneOfLength_sound {A} (p : string -> bool) (n : nat) (s : string)
    (k : string -> option A) (a : A) :
  oneOfLength p n s k = Some a ->
  exists t s', s = t +:+ s' /\ String.length t = n /\ p t = true
               /\ k s' = Some a.
Proof.
  unfold oneOfLength.
  destruct ((n <=? String.length s)%nat && p (takeStr n s)) eqn:Hc;
    [|discriminate].
  apply andb_true_iff in Hc as [Hn Hp]. apply Nat.leb_le in Hn.
  intros Hk. exists (takeStr n s), (dropStr n s).
  rewrite takeStr_dropStr, (length_takeStr n s Hn). auto.
Qed.

Lemma oneOfLength_complete {A} (p : string -> bool) (t s' : string)
    (k : string -> option A) :
  p t = true ->
  oneOfLength p (String.length t) (t +:+ s') k = k s'.
Proof.
  intros Hp. unfold oneOfLength.
  rewrite takeStr_length_app, dropStr_length_app, Hp, andb_true_r.
  rewrite length_app_str.
  destruct (Nat.leb_spec (String.length t)
              (String.length t + String.length s')) as [_|Hlt];
    [reflexivity | lia].
Qed.

Lemma oneOf_sound {A} (p : string -> bool) (s : string)
    (k : string -> option A) (a : A) :
  oneOf p s k = Some a ->
  exists t s', s = t +:+ s' /\ IsChar p t /\ k s' = Some a.
Proof.
  unfold oneOf, IsChar. intros Hm.
  destruct (oneOfLength p 1 s k) as [b|] eqn:H1;
    [injection Hm as ->; apply oneOfLength_sound in H1|
     destruct (oneOfLength p 2 s k) as [b|] eqn:H2;
       [injection Hm as ->; apply oneOfLength_sound in H2|
        destruct (oneOfLength p 3 s k) as [b|] eqn:H3;
          [injection Hm as ->; apply oneOfLength_sound in H3|
           apply oneOfLength_sound in Hm]]];
    match goal with
    | H : exists _ _, _ |- _ =>
        destruct H as (t & s' & -> & Hlen & Hp & Hk);
        exists t, s'; rewrite Hlen;
        split; [reflexivity | split; [split; [exact Hp | lia] | exact Hk]]
    end.
Qed.

Lemma oneOf_spec {A} (p : string -> bool) (s : string)
    (k : string -> option A) :
  is_Some (oneOf p s k)
  <-> exists t s', s = t +:+ s' /\ IsChar p t /\ is_Some (k s').
Proof.
  split.
  - intros [a Ha]. apply oneOf_sound in Ha as (t & s' & -> & Ht & Hk).
    exists t, s'. split; [reflexivity | split; [exact Ht|]].
    eexists. exact Hk.
  - intros (t & s' & -> & [Hp Hlen] & Hk). unfold oneOf.
    rewrite !is_Some_orelse.
    pose proof (oneOfLength_complete p t s' k Hp) as Hc.
    destruct (String.length t) as [|[|[|[|[|n]]]]] eqn:Hn; try lia;
      rewrite <- Hc in Hk; tauto.
Qed.

Lemma lang_plusUni_inv (p : string -> bool) (s : string) :
  lang (PlusUni p) s ->
  exists t s', s = t +:+ s' /\ IsChar p t /\
               (s' = EmptyString \/ lang (PlusUni p) s').
Proof.
  intros Hl. inversion Hl; subst.
  - exists s, EmptyString. rewrite app_nil_r_str.
    split; [reflexivity|]. split; [assumption | left; reflexivity].
  - eexists _, _. split; [reflexivity|]. split; [assumption | right; assumption].
Qed.

Lemma IsChar_nonempty (p : string -> bool) (t : string) :
  IsChar p t -> (1 <= String.length t)%nat.
Proof. intros [_ Hlen]. lia. Qed.

Lemma lang_plusUni_iff (p : string -> bool) (s : string) :
  lang (PlusUni p) s <-> s <> EmptyString /\ CharsOf p s.
Proof.
  split.
  - intros Hl. remember (PlusUni p) as r eqn:Hr.
    induction Hl; try discriminate; injection Hr as ->.
    + split.
      * intros ->. match goal with H : IsChar _ _ |- _ =>
          apply IsChar_nonempty in H; simpl in H; lia end.
      * rewrite <- (app_nil_r_str t). constructor; [assumption | constructor].
    + split.
      * intros He. apply app_eq_nil_str in He as [-> _].
        match goal with H : IsChar _ _ |- _ =>
          apply IsChar_nonempty in H; simpl in H; lia end.
      * constructor; [assumption|]. apply IHHl; reflexivity.
  - intros [Hne Hall]. induction Hall as [|t s Ht Hs IH]; [congruence|].
    destruct s as [|c s].
    + rewrite app_nil_r_str. apply lang_plusUni_one. exact Ht.
    + apply lang_plusUni_more; [exact Ht|]. apply IH. discriminate.
Qed.

Lemma plusUni_sound {A} (p : string -> bool) (fuel : nat) :
  forall (s : string) (k : string -> option A) (a : A),
    plusUni fuel p s k = Some a ->
    exists s1 s2, s = s1 +:+ s2 /\ lang (PlusUni p) s1 /\ k s2 = Some a.
Proof.
  induction fuel as [|fuel IH]; intros s k a; simpl; [discriminate|].
  intros Hm. apply oneOf_sound in Hm as (t & s' & -> & Ht & Hm).
  destruct (plusUni fuel p s' k) as [b|] eqn:Hg.
  - injection Hm as ->. apply IH in Hg as (s1 & s2 & -> & Hl & Hk).
    exists (t +:+ s1), s2. rewrite app_assoc_str. split; [reflexivity|].
    split; [apply lang_plusUni_more; assumption | exact Hk].
  - exists t, s'. split; [reflexivity|].
    split; [apply lang_plusUni_one; assumption | exact Hm].
Qed.

Lemma plusUni_spec {A} (p : string -> bool) (fuel : nat) :
  forall (s : string) (k : string -> option A),
    (String.length s <= fuel)%nat ->
    (is_Some (plusUni fuel p s k)
     <-> exists s1 s2, s = s1 +:+ s2 /\ lang (PlusUni p) s1
                       /\ is_Some (k s2)).
Proof.
  induction fuel as [|fuel IH]; intros s k Hlen.
  - split; [intros [? ?]; discriminate|].
    intros (s1 & s2 & -> & Hl & _).
    apply lang_plusUni_inv in Hl as (t & s' & -> & Ht & _).
    apply IsChar_nonempty in Ht. rewrite !length_app_str in Hlen. lia.
  - cbn [plusUni]. rewrite oneOf_spec. split.
    + intros (t & s' & -> & Ht & Hk).
      apply is_Some_orelse in Hk as [Hk | Hk].
      * apply IH in Hk as (s1 & s2 & -> & Hl & Hk).
        -- exists (t +:+ s1), s2. rewrite app_assoc_str.
           split; [reflexivity|].
           split; [apply lang_plusUni_more; assumption | exact Hk].
        -- apply IsChar_nonempty in Ht. rewrite length_app_str in Hlen. lia.
      * exists t, s'. split; [reflexivity|].
        split; [apply lang_plusUni_one; assumption | exact Hk].
    + intros (s1 & s2 & -> & Hl & Hk).
      apply lang_plusUni_inv in Hl as (t & s' & -> & Ht & Hrest).
      exists t, (s' +:+ s2). rewrite app_assoc_str. split; [reflexivity|].
      split; [exact Ht|]. apply is_Some_orelse.
      destruct Hrest as [-> | Hl'].
      * right. exact Hk.
      * left. apply IH.
        -- pose proof (IsChar_nonempty _ _ Ht).
           rewrite !length_app_str in Hlen. rewrite length_app_str. lia.
        -- exists s', s2. split; [reflexivity | split; assumption].
Qed.

Lemma matchAt_spec {A} (r : regex) :
  forall (s : string) (caps : list string)
         (k : string -> list string -> option A),
    (forall s' c1 c2, is_Some (k s' c1) <-> is_Some (k s' c2)) ->
    (is_Some (matchAt r s caps k)
     <-> exists s1 s2, s = s1 +:+ s2 /\ lang r s1 /\ is_Some (k s2 [])).
Proof.
  induction r as [|p|r1 IH1 r2 IH2|r1 IH1 r2 IH2|p|p|p|r IH];
    intros s caps k Hk; cbn [matchAt].
  - rewrite (Hk s caps []). split.
    + intros Hs. exists EmptyString, s.
      split; [reflexivity | split; [constructor | assumption]].
    + intros (s1 & s2 & -> & Hl & Hs). inversion Hl; subst. exact Hs.
  - destruct s as [|c s].
    + split; [intros [? ?]; discriminate|].
      intros (s1 & s2 & Hs & Hl & _). inversion Hl; subst. discriminate.
    + destruct (p c) eqn:Hc.
      * rewrite (Hk s caps []). split.
        -- intros Hs. exists (str1 c), s.
           split; [reflexivity | split; [constructor; assumption | assumption]].
        -- intros (s1 & s2 & Hs & Hl & Hs2). inversion Hl; subst.
           injection Hs as _ ->. exact Hs2.
      * split; [intros [? ?]; discriminate|].
        intros (s1 & s2 & Hs & Hl & _). inversion Hl; subst.
        injection Hs as -> _. congruence.
  - assert (Hk2 : forall s' c1 c2,
               is_Some (matchAt r2 s' c1 k) <-> is_Some (matchAt r2 s' c2 k)).
    { intros s' c1 c2. rewrite (IH2 s' c1 k Hk), (IH2 s' c2 k Hk). tauto. }
    rewrite (IH1 s caps _ Hk2). split.
    + intros (s1 & s2 & -> & Hl1 & Hm).
      apply (IH2 s2 [] k Hk) in Hm as (s3 & s4 & -> & Hl2 & Hs4).
      exists (s1 +:+ s3), s4. rewrite app_assoc_str.
      split; [reflexivity | split; [constructor; assumption | assumption]].
    + intros (s1 & s2 & -> & Hl & Hs2). inversion Hl; subst.
      eexists _, _. rewrite app_assoc_str.
      split; [reflexivity | split; [eassumption|]].
      apply (IH2 _ [] k Hk). eexists _, _.
      split; [reflexivity | split; eassumption].
  - rewrite is_Some_orelse, (IH1 s caps k Hk), (IH2 s caps k Hk). split.
    + intros [(s1 & s2 & -> & Hl & Hs) | (s1 & s2 & -> & Hl & Hs)];
        exists s1, s2; (split; [reflexivity|]);
        (split; [|assumption]);
        [apply lang_alt_l | apply lang_alt_r]; assumption.
    + intros (s1 & s2 & -> & Hl & Hs). inversion Hl; subst;
        [left | right]; exists s1, s2;
        (split; [reflexivity | split; assumption]).
  - rewrite plusGreedy_spec. split.
    + intros (s1 & s2 & -> & Hl & Hs). exists s1, s2.
      split; [reflexivity | split; [assumption|]]. apply (Hk s2 caps []), Hs.
    + intros (s1 & s2 & -> & Hl & Hs). exists s1, s2.
      split; [reflexivity | split; [assumption|]]. apply (Hk s2 caps []), Hs.
  - rewrite oneOf_spec. split.
    + intros (t & s2 & -> & Ht & Hs). exists t, s2.
      split; [reflexivity | split; [constructor; assumption|]].
      apply (Hk s2 caps []), Hs.
    + intros (s1 & s2 & -> & Hl & Hs). inversion Hl; subst. exists s1, s2.
      split; [reflexivity | split; [assumption|]]. apply (Hk s2 caps []), Hs.
  - rewrite plusUni_spec by reflexivity. split.
    + intros (s1 & s2 & -> & Hl & Hs). exists s1, s2.
      split; [reflexivity | split; [assumption|]]. apply (Hk s2 caps []), Hs.
    + intros (s1 & s2 & -> & Hl & Hs). exists s1, s2.
      split; [reflexivity | split; [assumption|]]. apply (Hk s2 caps []), Hs.
  - rewrite IH.
    + split.
      * intros (s1 & s2 & -> & Hl & Hs). exists s1, s2.
        split; [reflexivity | split; [constructor; assumption|]].
        revert Hs. apply Hk.
      * intros (s1 & s2 & -> & Hl & Hs). inversion Hl; subst. exists s1, s2.
        split; [reflexivity | split; [assumption|]].
        revert Hs. apply Hk.
    + intros s' c1 c2. apply Hk.
Qed.

Lemma matchWhole_spec (r : regex) (s : string) :
  is_Some (matchWhole r s) <-> lang r s.
Proof.
  unfold matchWhole. rewrite matchAt_spec.
  - split.
    + intros (s1 & s2 & -> & Hl & Hs).
      destruct s2; [rewrite app_nil_r_str; exact Hl|].
      destruct Hs as [? ?]. discriminate.
    + intros Hl. exists s, EmptyString. rewrite app_nil_r_str.
      split; [reflexivity | split; [assumption | eexists; reflexivity]].
  - intros s' c1 c2. destruct (isEmpty s'); split; intros [a Ha];
      try discriminate; eexists; reflexivity.
Qed.

Lemma search_spec (r : regex) (s : string) :
  is_Some (search r s)
  <-> exists pre mid post, s = pre +:+ mid +:+ post /\ lang r mid.
Proof.
  assert (Hhere : forall t,
             is_Some (matchAt r t [] (fun _ caps => Some caps))
             <-> exists mid post, t = mid +:+ post /\ lang r mid).
  { intros t. rewrite matchAt_spec.
    - split.
      + intros (s1 & s2 & -> & Hl & _). exists s1, s2. split; [reflexivity | assumption].
      + intros (s1 & s2 & -> & Hl). exists s1, s2.
        split; [reflexivity | split; [assumption | eexists; reflexivity]].
    - intros; split; intros _; eexists; reflexivity. }
  induction s as [|c s IH].
  - simpl. rewrite is_Some_orelse, Hhere. split.
    + intros [(mid & post & Hs & Hl) | [? ?]]; [|discriminate].
      exists EmptyString, mid, post. split; assumption.
    + intros (pre & mid & post & Hs & Hl). left.
      symmetry in Hs. apply app_eq_nil_str in Hs as [-> Hs].
      apply app_eq_nil_str in Hs as [-> ->].
      exists EmptyString, EmptyString. split; [reflexivity | exact Hl].
  - cbn [search]. rewrite is_Some_orelse, Hhere, IH. split.
    + intros [(mid & post & Hs & Hl) | (pre & mid & post & -> & Hl)].
      * exists EmptyString, mid, post. split; assumption.
      * exists (String c pre), mid, post. split; [reflexivity | assumption].
    + intros (pre & mid & post & Hs & Hl). destruct pre as [|c' pre].
      * left. exists mid, post. split; assumption.
      * right. rewrite app_cons_str in Hs. injection Hs as _ ->.
        exists pre, mid, post. split; [reflexivity | assumption].
Qed.

Lemma test_spec (r : regex) (s : string) :
  test r s = true
  <-> exists pre mid post, s = pre +:+ mid +:+ post /\ lang r mid.
Proof.
  rewrite <- search_spec. unfold test.
  destruct (search r s); split; intros Hx;
    try reflexivity; try discriminate; [eexists; reflexivity|].
  destruct Hx as [? ?]. discriminate.
Qed.

(** ** What the patterns of [logs.ts] denote *)

Lemma lang_seq_inv (r1 r2 : regex) (s : string) :
  lang (Seq r1 r2) s ->
  exists s1 s2, s = s1 +:+ s2 /\ lang r1 s1 /\ lang r2 s2.
Proof.
  intros Hl. inversion Hl; subst. eexists _, _.
  split; [reflexivity | split; assumption].
Qed.

Lemma lang_grp_inv (r : regex) (s : string) : lang (Grp r) s -> lang r s.
Proof. intros Hl. inversion Hl; subst. assumption. Qed.

Lemma lang_alt_inv (r1 r2 : regex) (s : string) :
  lang (Alt r1 r2) s -> lang r1 s \/ lang r2 s.
Proof. intros Hl. inversion Hl; subst; [left | right]; assumption. Qed.

Lemma lang_lit (t s : string) : lang (lit t) s <-> s = t.
Proof.
  revert s. induction t as [|c t IH]; intros s; simpl.
  - split; [intros Hl; inversion Hl; reflexivity | intros ->; constructor].
  - split.
    + intros Hl. apply lang_seq_inv in Hl as (s1 & s2 & -> & H1 & H2).
      inversion H1; subst. apply IH in H2 as ->.
      match goal with Hc : Ascii.eqb _ _ = true |- _ =>
        apply Ascii.eqb_eq in Hc as -> end.
      reflexivity.
    + intros ->. change (String c t) with (str1 c +:+ t).
      constructor; [constructor; apply Ascii.eqb_refl | apply IH; reflexivity].
Qed.

Lemma lang_rep (n : nat) (p : ascii -> bool) (s : string) :
  lang (rep n p) s
  <-> String.length s = n /\
      Forall (fun c => p c = true) (list_ascii_of_string s).
Proof.
  revert s. induction n as [|n IH]; intros s; simpl.
  - split.
    + intros Hl. inversion Hl; subst. split; [reflexivity | constructor].
    + intros [Hlen _]. destruct s; [constructor | discriminate].
  - split.
    + intros Hl. apply lang_seq_inv in Hl as (s1 & s2 & -> & H1 & H2).
      inversion H1; subst. apply IH in H2 as [Hlen Hall].
      rewrite str1_app. simpl.
      split; [rewrite Hlen; reflexivity|].
      constructor; assumption.
    + intros [Hlen Hall]. destruct s as [|c s]; [discriminate|].
      simpl in Hlen, Hall. inversion Hall; subst.
      change (String c s) with (str1 c +:+ s).
      constructor; [constructor; assumption|].
      apply IH. split; [congruence | assumption].
Qed.

Lemma lang_plus_iff (p : ascii -> bool) (s : string) :
  lang (Plus p) s
  <-> s <> EmptyString /\
      Forall (fun c => p c = true) (list_ascii_of_string s).
Proof.
  split.
  - intros Hl. remember (Plus p) as r eqn:Hr.
    induction Hl; try discriminate; injection Hr as ->.
    + split; [discriminate | repeat constructor; assumption].
    + split; [discriminate|]. constructor; [assumption|].
      apply IHHl; reflexivity.
  - intros [Hne Hall]. induction s as [|c s IH]; [congruence|].
    simpl in Hall. inversion Hall; subst.
    destruct s as [|c' s].
    + apply lang_plus_one. assumption.
    + apply lang_plus_more; [assumption|].
      apply IH; [discriminate | assumption].
Qed.

Lemma lang_litNoCase (kw s : string) :
  lang (litNoCase kw) s <-> lowerAsciiString s = lowerAsciiString kw.
Proof.
  revert s. induction kw as [|c kw IH]; intros s; simpl.
  - split.
    + intros Hl. inversion Hl. reflexivity.
    + destruct s; [constructor | discriminate].
  - split.
    + intros Hl. apply lang_seq_inv in Hl as (s1 & s2 & -> & H1 & H2).
      inversion H1; subst. apply IH in H2.
      match goal with Hc : Ascii.eqb _ _ = true |- _ =>
        apply Ascii.eqb_eq in Hc end.
      rewrite str1_app. simpl. congruence.
    + destruct s as [|a s]; [discriminate|]. simpl. intros [= Ha Hs].
      change (String a s) with (str1 a +:+ s).
      constructor; [constructor; rewrite Ha; apply Ascii.eqb_refl|].
      apply IH. exact Hs.
Qed.

Ltac lang_inv :=
  repeat match goal with
    | H : lang (Seq _ _) _ |- _ =>
        apply lang_seq_inv in H as (? & ? & -> & ? & ?)
    | H : lang (Grp _) _ |- _ => apply lang_grp_inv in H
    | H : lang (rep _ _) _ |- _ => apply lang_rep in H
    | H : lang (lit _) _ |- _ => apply lang_lit in H; subst
    | H : lang (Plus _) _ |- _ => apply lang_plus_iff in H as [? ?]
    | H : lang (PlusUni _) _ |- _ => apply lang_plusUni_iff in H as [? ?]
    end.

Lemma lang_lineRe (line : string) :
  lang lineRe line <-> TimestampPrefixed line.
Proof.
  unfold TimestampPrefixed. split.
  - intros Hl. unfold lineRe, timestampRe in Hl. lang_inv.
    eexists _, _, _, _, _, _, _, _, _.
    split; [reflexivity|]. unfold AllDigits, AllSpace. tauto.
  - intros (yyyy & mo & dd & ws1 & hh & mi & ss & ws2 & msg & -> &
            Hy & Hmo & Hd & Hh & Hmi & Hs & Hn1 & Hw1 & Hn2 & Hw2 & Hn3 & Hm).
    unfold lineRe, timestampRe.
    repeat first
      [ apply lang_seq | apply lang_grp
      | apply lang_rep; assumption
      | apply lang_lit; reflexivity
      | apply lang_plusUni_iff; split; assumption ].
Qed.

(** [parseLogLine] gives an entry exactly for the lines of that shape. *)
Lemma parseLogLine_is_Some (dateParse : string -> option Z) (line : string) :
  is_Some (parseLogLine dateParse line) <-> TimestampPrefixed line.
Proof.
  rewrite <- lang_lineRe, <- matchWhole_spec.
  unfold parseLogLine.
  destruct (matchWhole lineRe line) as [caps|] eqn:Hm.
  - split; intros _; eexists; reflexivity.
  - split; intros [? ?]; discriminate.
Qed.

(** ** The captures of a match *)

Lemma takeStr_consumed (s1 s2 : string) :
  takeStr (String.length (s1 +:+ s2) - String.length s2) (s1 +:+ s2) = s1.
Proof.
  rewrite length_app_str.
  replace (String.length s1 + String.length s2 - String.length s2)%nat
    with (String.length s1) by lia.
  apply takeStr_length_app.
Qed.

Lemma plusGreedy_sound {A} (p : ascii -> bool) (s : string)
    (k : string -> option A) :
  forall a, plusGreedy p s k = Some a ->
  exists s1 s2, s = s1 +:+ s2 /\ lang (Plus p) s1 /\ k s2 = Some a.
Proof.
  induction s as [|c s IH]; intros a; simpl; [discriminate|].
  destruct (p c) eqn:Hc; [|discriminate].
  destruct (plusGreedy p s k) as [b|] eqn:Hg.
  - intros [= <-]. destruct (IH b eq_refl) as (s1 & s2 & -> & Hl & Hk).
    exists (String c s1), s2. split; [reflexivity|].
    split; [apply lang_plus_more; assumption | assumption].
  - intros Hk. exists (str1 c), s. split; [reflexivity|].
    split; [apply lang_plus_one; assumption | assumption].
Qed.

(** A successful match hands its continuation the rest of the input and
    the captures of one way of matching the pattern. *)
Lemma matchAt_sound {A} (r : regex) :
  forall (s : string) (caps : list string)
         (k : string -> list string -> option A) (a : A),
    matchAt r s caps k = Some a ->
    exists s1 s2 cs,
      s = s1 +:+ s2 /\ captured r s1 cs /\ k s2 (caps ++ cs) = Some a.
Proof.
  induction r as [|p|r1 IH1 r2 IH2|r1 IH1 r2 IH2|p|p|p|r IH];
    intros s caps k a; cbn [matchAt].
  - intros Hk. exists EmptyString, s, []. rewrite app_nil_r.
    split; [reflexivity | split; [constructor | assumption]].
  - destruct s as [|c s]; [discriminate|].
    destruct (p c) eqn:Hc; [|discriminate].
    intros Hk. exists (str1 c), s, []. rewrite app_nil_r.
    split; [reflexivity | split; [constructor; assumption | assumption]].
  - intros Hm.
    apply IH1 in Hm as (s1 & s2 & c1 & -> & H1 & Hm).
    apply IH2 in Hm as (s3 & s4 & c2 & -> & H2 & Hk).
    exists (s1 +:+ s3), s4, (c1 ++ c2).
    rewrite app_assoc_str, app_assoc.
    split; [reflexivity | split; [constructor; assumption | assumption]].
  - destruct (matchAt r1 s caps k) as [b|] eqn:H1.
    + intros [= <-]. apply IH1 in H1 as (s1 & s2 & cs & -> & Hc & Hk).
      exists s1, s2, cs.
      split; [reflexivity | split; [apply captured_alt_l; assumption | assumption]].
    + intros H2. apply IH2 in H2 as (s1 & s2 & cs & -> & Hc & Hk).
      exists s1, s2, cs.
      split; [reflexivity | split; [apply captured_alt_r; assumption | assumption]].
  - intros Hm. apply plusGreedy_sound in Hm as (s1 & s2 & -> & Hl & Hk).
    exists s1, s2, []. rewrite app_nil_r.
    split; [reflexivity | split; [constructor; assumption | assumption]].
  - intros Hm. apply oneOf_sound in Hm as (t & s2 & -> & Ht & Hk).
    exists t, s2, []. rewrite app_nil_r.
    split; [reflexivity | split; [constructor; assumption | assumption]].
  - intros Hm. apply plusUni_sound in Hm as (s1 & s2 & -> & Hl & Hk).
    exists s1, s2, []. rewrite app_nil_r.
    split; [reflexivity | split; [constructor; assumption | assumption]].
  - intros Hm. apply IH in Hm as (s1 & s2 & cs & -> & Hc & Hk).
    rewrite takeStr_consumed in Hk.
    exists s1, s2, (cs ++ [s1]). rewrite app_assoc.
    split; [reflexivity | split; [constructor; assumption | assumption]].
Qed.

Lemma captured_lang (r : regex) (s : string) (cs : list string) :
  captured r s cs -> lang r s.
Proof.
  induction 1.
  - constructor.
  - constructor; assumption.
  - constructor; assumption.
  - apply lang_alt_l; assumption.
  - apply lang_alt_r; assumption.
  - assumption.
  - constructor; assumption.
  - assumption.
  - constructor; assumption.
Qed.

Lemma captured_groupFree (r : regex) (s : string) (cs : list string) :
  groupFree r = true -> captured r s cs -> cs = [].
Proof.
  intros Hg Hc. induction Hc; simpl in Hg; try reflexivity;
    try discriminate.
  - apply andb_true_iff in Hg as [H1 H2].
    rewrite (IHHc1 H1), (IHHc2 H2). reflexivity.
  - apply andb_true_iff in Hg as [H1 _]. exact (IHHc H1).
  - apply andb_true_iff in Hg as [_ H2]. exact (IHHc H2).
Qed.

Lemma captured_seq_inv (r1 r2 : regex) (s : string) (cs : list string) :
  captured (Seq r1 r2) s cs ->
  exists s1 s2 c1 c2,
    s = s1 +:+ s2 /\ cs = c1 ++ c2 /\ captured r1 s1 c1 /\ captured r2 s2 c2.
Proof.
  intros Hc. inversion Hc; subst. eexists _, _, _, _.
  split; [reflexivity | split; [reflexivity | split; assumption]].
Qed.

Lemma captured_grp_inv (r : regex) (s : string) (cs : list string) :
  captured (Grp r) s cs -> exists c, cs = c ++ [s] /\ captured r s c.
Proof.
  intros Hc. inversion Hc; subst. eexists.
  split; [reflexivity | assumption].
Qed.

(** A matched line is its timestamp, white space and its message, and the
    two captures are the timestamp and the message. *)
Lemma matchWhole_lineRe (line : string) (m : list string) :
  matchWhole lineRe line = Some m ->
  exists ts ws msg,
    m = [ts; msg] /\ line = ts +:+ ws +:+ msg /\
    lang timestampRe ts /\ lang (PlusUni isWhiteSpace) ws /\
    lang (PlusUni anyChar) msg.
Proof.
  unfold matchWhole. intros Hm.
  apply matchAt_sound in Hm as (s1 & s2 & cs & -> & Hc & Hk).
  destruct s2; [|discriminate]. simpl in Hk. injection Hk as <-.
  rewrite app_nil_r_str. unfold lineRe in Hc.
  apply captured_seq_inv in Hc as (ts & rest & c1 & c2 & -> & -> & Hts & Hrest).
  apply captured_grp_inv in Hts as (c & -> & Hts).
  apply captured_seq_inv in Hrest as (ws & msg & c3 & c4 & -> & -> & Hws & Hmsg).
  apply captured_grp_inv in Hmsg as (c5 & -> & Hmsg).
  rewrite (captured_groupFree timestampRe ts c eq_refl Hts).
  rewrite (captured_groupFree (PlusUni isWhiteSpace) ws c3 eq_refl Hws).
  rewrite (captured_groupFree (PlusUni anyChar) msg c5 eq_refl Hmsg).
  exists ts, ws, msg. split; [reflexivity|]. split; [reflexivity|].
  split; [exact (captured_lang _ _ _ Hts)|].
  split; [exact (captured_lang _ _ _ Hws) | exact (captured_lang _ _ _ Hmsg)].
Qed.

(** The fields of an entry: the line is the timestamp, white space and the
    message; the date is read from the timestamp and the three other
    fields from the message. *)
Lemma parseLogLine_fields (dateParse : string -> option Z)
    (line : string) (e : LogEntry) :
  parseLogLine dateParse line = Some e ->
  (exists ws,
     line = timestamp e +:+ ws +:+ message e /\
     ws <> EmptyString /\ AllSpace ws) /\
  lang timestampRe (timestamp e) /\
  message e <> EmptyString /\
  date e = dateParse (timestamp e) /\
  isError e = test errorRe (message e).
Proof.
  unfold parseLogLine.
  destruct (matchWhole lineRe line) as [m|] eqn:Hm; [|discriminate].
  apply matchWhole_lineRe in Hm as (ts & ws & msg & -> & -> & Hts & Hws & Hmsg).
  intros [= <-]. simpl.
  apply lang_plusUni_iff in Hws as [Hne Hall].
  apply lang_plusUni_iff in Hmsg as [Hne' _].
  split; [exists ws; split; [reflexivity | split; assumption]|].
  split; [exact Hts|]. split; [exact Hne'|]. split; reflexivity.
Qed.

Lemma parseLogLine_None (dateParse : string -> option Z) (line : string) :
  parseLogLine dateParse line = None <-> ~ TimestampPrefixed line.
Proof.
  rewrite <- (parseLogLine_is_Some dateParse). split.
  - intros Hn [e He]. congruence.
  - intros Hn. destruct (parseLogLine dateParse line) as [e|]; [|reflexivity].
    exfalso. apply Hn. eexists. reflexivity.
Qed.

Lemma errorRe_spec (msg : string) :
  test errorRe msg = true
  <-> exists kw, kw ∈ errorKeywords /\ ContainsNoCase kw msg.
Proof.
  rewrite test_spec. unfold ContainsNoCase, errorKeywords, errorRe. split.
  - intros (pre & mid & post & -> & Hl).
    repeat (apply lang_alt_inv in Hl as [Hl | Hl]);
      match type of Hl with lang (litNoCase ?kw) _ =>
        apply lang_litNoCase in Hl; exists kw end;
      (split; [set_solver | exists pre, mid, post; split; [reflexivity | assumption]]).
  - intros (kw & Hin & before & word & after & -> & Hw).
    exists before, word, after. split; [reflexivity|].
    apply list_elem_of_In in Hin. simpl in Hin.
    destruct Hin as [<- | [<- | [<- | [<- | []]]]].
    + apply lang_alt_l, lang_litNoCase. rewrite Hw. reflexivity.
    + apply lang_alt_r, lang_alt_l, lang_litNoCase. rewrite Hw. reflexivity.
    + apply lang_alt_r, lang_alt_r, lang_alt_l, lang_litNoCase.
      rewrite Hw. reflexivity.
    + apply lang_alt_r, lang_alt_r, lang_alt_r, lang_litNoCase.
      rewrite Hw. reflexivity.
Qed.

(** C8: the log-line parser reads the line
    [2025-01-01 10:00:00 Execute macro <Daily Backup> failed], where the
    name stands between double quotes, as an entry that is an error and
    whose macro name is [Daily Backup]; a line yields no entry exactly when
    it does not have the shape [YYYY-MM-DD HH:MM:SS <message>]; the message
    of an entry is what follows the timestamp and the white space after it;
    and an entry is an error exactly when its message holds, in any letter
    case, one of the keywords failed, error, cancelled, timeout. *)
Theorem parseLogLine_spec (dateParse : string -> option Z) :
  (exists e,
     parseLogLine dateParse
       ("2025-01-01 10:00:00 Execute macro " +:+ quoted "Daily Backup"
        +:+ " failed") = Some e /\
     isError e = true /\ macroName e = Some "Daily Backup") /\
  (forall line,
     parseLogLine dateParse line = None <-> ~ TimestampPrefixed line) /\
  (forall line e,
     parseLogLine dateParse line = Some e ->
     (exists ws,
        line = timestamp e +:+ ws +:+ message e /\
        ws <> EmptyString /\ AllSpace ws) /\
     (isError e = true
      <-> exists kw, kw ∈ errorKeywords /\ ContainsNoCase kw (message e))).
Proof.
  split; [|split].
  - eexists. split; [vm_compute; reflexivity|]. split; reflexivity.
  - intros line. apply parseLogLine_None.
  - intros line e He.
    destruct (parseLogLine_fields dateParse line e He)
      as (Hline & _ & _ & _ & Herr).
    split; [exact Hline|]. rewrite Herr. apply errorRe_spec.
Qed.

Lemma parseLogLine_spec_witness :
  parseLogLine utcDateValue "Engine started" = None /\
  (exists e,
     parseLogLine utcDateValue "2025-01-01 10:00:00 Action 3 TimeOut" = Some e /\
     isError e = true).
Proof.
  pose proof (parseLogLine_spec utcDateValue) as (_ & Hdrop & Hcls).
  split.
  - apply Hdrop. intros Htp. apply lang_lineRe, matchWhole_spec in Htp.
    vm_compute in Htp. destruct Htp as [? Htp]. discriminate Htp.
  - assert (He : parseLogLine utcDateValue
                   "2025-01-01 10:00:00 Action 3 TimeOut"
                 = Some (mkLogEntry "2025-01-01 10:00:00" (Some 1735725600000)
                           "Action 3 TimeOut" true None (Some "3")))
      by (vm_compute; reflexivity).
    eexists. split; [exact He|].
    apply (proj2 (Hcls _ _ He)).
    exists "timeout". split; [apply list_elem_of_In; simpl; tauto|].
    exists "Action 3 ", "TimeOut", EmptyString. split; reflexivity.
Defined.

(** A no-break space separates the timestamp from the message as a space
    does, and a message that holds a line separator is no message. *)
Example parseLogLine_unicode :
  parseLogLine utcDateValue
    ("2025-01-01 10:00:00" +:+ utf8 [194; 160]%nat +:+ "Engine started")
  = Some (mkLogEntry "2025-01-01 10:00:00" (Some 1735725600000)
            "Engine started" false None None) /\
  parseLogLine utcDateValue
    ("2025-01-01 10:00:00 first" +:+ utf8 [226; 128; 168]%nat +:+ "second")
  = None.
Proof. split; vm_compute; reflexivity. Qed.

(** ** Decoding list results *)

Lemma trimStart_AllSpace (s : string) : AllSpace s -> trimStart s = EmptyString.
Proof.
  intros Hs. induction Hs as [|t s [Ht _] Hs IH]; [reflexivity|].
  rewrite (trimStart_space t s Ht). exact IH.
Qed.

Lemma trim_AllSpace (s : string) : AllSpace s -> trim s = EmptyString.
Proof. intros Hs. unfold trim. rewrite (trimStart_AllSpace s Hs). reflexivity. Qed.

(** An empty or white-space-only output decodes to no record, for each of
    the three decoders. *)
Lemma decode_blank (result : string) :
  AllSpace result ->
  decodeMacros result = [] /\ decodeGroups result = [] /\
  decodeActions result = [].
Proof.
  intros Hs. unfold decodeMacros, decodeGroups, decodeActions.
  rewrite (trim_AllSpace result Hs). simpl. repeat split.
Qed.

(** [listGroups] keeps no record whose trimmed name is empty. *)
Lemma decodeGroups_names (result : string) (g : MacroInfo) :
  g ∈ decodeGroups result ->
  name g <> EmptyString /\ trim (name g) = name g.
Proof.
  unfold decodeGroups. destruct (isEmpty (trim result)); [set_solver|].
  intros Hin. apply list_elem_of_filter in Hin as [Hne Hin].
  split.
  - apply isEmpty_false. destruct (isEmpty (name g)); [discriminate | reflexivity].
  - apply list_elem_of_fmap in Hin as [item [-> _]].
    unfold decodeGroup. simpl.
    destruct (split "|||" item !! 0%nat) as [n|]; simpl; [|reflexivity].
    apply trim_idempotent.
Qed.

(** [listMacros] and [searchMacros] keep one record for every piece of a
    non-blank output, and [listActions] does too. *)
Lemma decodeMacros_length (result : string) :
  trim result <> EmptyString ->
  length (decodeMacros result) = length (split ";;;" result) /\
  length (decodeActions result) = length (split ";;;" result).
Proof.
  intros Hne. apply isEmpty_false in Hne.
  unfold decodeMacros, decodeActions. rewrite Hne, !length_fmap.
  split; reflexivity.
Qed.

(** C5, at the raw output of a list script when the second macro has an
    empty name, [A|||1;;;|||2], or a name of one space, [A|||1;;; |||2],
    and when the output ends with a separator, [A|||1;;;]: [listGroups]
    drops the record whose trimmed name is empty, but [listMacros] and
    [searchMacros] keep it; [listActions] keeps the record of an action
    whose name is empty. *)
Theorem list_decoders_keep_blank_names :
  decodeGroups "A|||1;;;|||2" = [mkMacroInfo "A" "1"] /\
  decodeGroups "A|||1;;; |||2" = [mkMacroInfo "A" "1"] /\
  decodeGroups "A|||1;;;" = [mkMacroInfo "A" "1"] /\
  decodeMacros "A|||1;;;|||2"
  = [mkMacroInfo "A" "1"; mkMacroInfo EmptyString "2"] /\
  decodeMacros "A|||1;;; |||2" = [mkMacroInfo "A" "1"; mkMacroInfo " " "2"] /\
  trim " " = EmptyString /\
  decodeMacros "A|||1;;;"
  = [mkMacroInfo "A" "1"; mkMacroInfo EmptyString EmptyString] /\
  decodeActions "1|||Pause|||true;;;2||||||false"
  = [mkActionInfo (Some 1) (Some "Pause") true;
     mkActionInfo (Some 2) (Some EmptyString) false].
Proof. repeat split; vm_compute; reflexivity. Qed.

(** ** Validation of the index argument *)

(** C10: for each call that takes a 1-based index (km_get_action_xml,
    km_set_action_xml, km_search_replace_action, km_delete_action,
    km_delete_trigger, km_get_trigger_xml, km_set_trigger_xml), a request
    whose index is 0 is answered with the error payload of a missing
    required parameter, and the world is left as it was: no process is
    started and no file is written. *)
Theorem index_zero_rejected {Ext : Type} `{Runtime Ext}
    (tool : Tool) (args : Args) (what : string) (w : World Ext) :
  indexName tool = Some what ->
  indexArg tool args = Some 0 ->
  callTool tool args w
  = (Ok (mkResponse
           ("Error: "
            +:+ (if missingString (argMacroIdentifier args)
                 then "macroIdentifier" else what)
            +:+ " is required") true), w).
Proof.
  intros Hname Hidx.
  destruct tool; simpl in Hname, Hidx; try discriminate;
    injection Hname as <-;
    unfold callTool, handle, tryCatch, bind, requireString, requireNumber,
      throw, ret;
    rewrite Hidx; destruct (missingString (argMacroIdentifier args));
    reflexivity.
Qed.

Lemma index_zero_rejected_witness :
  callTool km_delete_trigger
    (mkArgs (Some "Nightly") None (Some 0) None None None None None)
    (simWorld 0 ∅ "ok")
  = (Ok (mkResponse "Error: triggerIndex is required" true),
     simWorld 0 ∅ "ok").
Proof.
  apply (index_zero_rejected km_delete_trigger
           (mkArgs (Some "Nightly") None (Some 0) None None None None None)
           "triggerIndex" (simWorld 0 ∅ "ok")); reflexivity.
Defined.

(** With the index 1 the same call passes the validation and starts the
    script. *)
Example index_one_accepted :
  callTool km_get_action_xml
    (mkArgs (Some "Nightly") (Some 1) None None None None None None)
    (simWorld 0 ∅ "<dict/>")
  = (Ok (mkResponse "<dict/>" false),
     mkWorld (mkSim 0 ∅ "<dict/>")
       [EvExec (osascriptHeredoc (getActionXmlScript "Nightly" 1))] false).
Proof. vm_compute. reflexivity. Qed.

(** ** Names of the staged files *)

Lemma numberToString_inj (a b : Z) :
  numberToString a = numberToString b -> a = b.
Proof.
  unfold numberToString. intros Hs.
  assert (Hi : Some (Z.to_int a) = Some (Z.to_int b)).
  { rewrite <- !NilEmpty.isi. rewrite Hs. reflexivity. }
  injection Hi as Hi.
  rewrite <- (DecimalZ.of_to a), <- (DecimalZ.of_to b), Hi. reflexivity.
Qed.

Lemma app_inj_r_str (s1 s2 t : string) : s1 +:+ t = s2 +:+ t -> s1 = s2.
Proof.
  intros Heq.
  assert (Hlen : String.length s1 = String.length s2).
  { apply (f_equal String.length) in Heq. rewrite !length_app_str in Heq. lia. }
  revert s2 Heq Hlen. induction s1 as [|c s1 IH]; intros [|d s2] Heq Hlen;
    try discriminate; [reflexivity|].
  rewrite !app_cons_str in Heq. injection Heq as -> Heq.
  f_equal. apply IH; [assumption | simpl in Hlen; lia].
Qed.

(** Two clock readings give the same file name only if they are equal. *)
Lemma tempPathAt_inj {Ext : Type} `{Runtime Ext} (t1 t2 : Z) :
  tempPathAt t1 = tempPathAt t2 -> t1 = t2.
Proof.
  unfold tempPathAt, pathJoin. intros Heq.
  apply String.app_inj in Heq. apply (String.app_inj "/") in Heq.
  apply (String.app_inj "km_action_") in Heq.
  apply app_inj_r_str in Heq. apply numberToString_inj, Heq.
Qed.

(** The file name is decided by the clock reading alone. *)
Lemma writeTempXml_path {Ext : Type} `{Runtime Ext}
    (xml : string) (w w' : World Ext) (p : string) :
  writeTempXml xml w = (Ok p, w') -> p = tempPathAt (dateNow (ext w)).
Proof.
  unfold writeTempXml, bind, now, writeFile, ret.
  destruct (writeFileSync _ _ (ext w)) as [[[]|e] x]; intros [= <- _];
    reflexivity.
Qed.

(** Two stagings get the same file name exactly when they read the same
    millisecond from the clock. *)
Lemma writeTempXml_same_path_iff {Ext : Type} `{Runtime Ext}
    (xml1 xml2 p1 p2 : string) (w1 w1' w2 w2' : World Ext) :
  writeTempXml xml1 w1 = (Ok p1, w1') ->
  writeTempXml xml2 w2 = (Ok p2, w2') ->
  (p1 = p2 <-> dateNow (ext w1) = dateNow (ext w2)).
Proof.
  intros H1 H2.
  rewrite (writeTempXml_path _ _ _ _ H1), (writeTempXml_path _ _ _ _ H2).
  split; [apply tempPathAt_inj | intros ->; reflexivity].
Qed.

(** C9, at two stagings within one millisecond: both calls of the
    payload-staging function return the same path, and the file then holds
    the second payload only. *)
Theorem writeTempXml_same_millisecond :
  exists w1 w2,
    writeTempXml "<dict><key>A</key></dict>"
      (simWorld exampleNow ∅ EmptyString)
    = (Ok "/tmp/km_action_1735819200000.plist", w1) /\
    writeTempXml "<dict><key>B</key></dict>" w1
    = (Ok "/tmp/km_action_1735819200000.plist", w2) /\
    simFiles (ext w1) !! "/tmp/km_action_1735819200000.plist"
    = Some (wrapXmlInPlist "<dict><key>A</key></dict>") /\
    simFiles (ext w2) !! "/tmp/km_action_1735819200000.plist"
    = Some (wrapXmlInPlist "<dict><key>B</key></dict>").
Proof.
  exists (snd (writeTempXml "<dict><key>A</key></dict>"
                 (simWorld exampleNow ∅ EmptyString))).
  exists (snd (writeTempXml "<dict><key>B</key></dict>"
                 (snd (writeTempXml "<dict><key>A</key></dict>"
                         (simWorld exampleNow ∅ EmptyString))))).
  repeat split; vm_compute; reflexivity.
Qed.

(** Two add-action requests that stage within one millisecond: the first
    stages its payload, the second stages its own under the same name, the
    first runs its script and releases the file; the payload of the second,
    not yet read by its script, is gone. *)
Example same_millisecond_release :
  simFiles
    (ext (snd ((p1 <- writeTempXml "<dict><key>A</key></dict>" ;;
                p2 <- writeTempXml "<dict><key>B</key></dict>" ;;
                tryFinally
                  (stagedAttempt (StagedAddAction "Nightly" EmptyString) p1)
                  (cleanupTempFile p1) ;;;
                ret p2)
               (simWorld exampleNow ∅ "3"))))
  !! "/tmp/km_action_1735819200000.plist" = None.
Proof. vm_compute. reflexivity. Qed.

(** ** Staging and release of the payload file *)

Section StagingFacts.

Context {Ext : Type} `{Runtime Ext}.

(** The release never throws, whatever the deletion does. *)
Lemma cleanupTempFile_ok (p : string) (w : World Ext) :
  cleanupTempFile p w
  = (Ok (), emit (EvUnlink p) w (snd (unlinkSync p (ext w)))).
Proof.
  unfold cleanupTempFile, tryCatch, unlink, ret.
  destruct (unlinkSync p (ext w)) as [[[]|e] x]; reflexivity.
Qed.

Lemma writeTempXml_trace (xml : string) (w w1 : World Ext) (p : string) :
  writeTempXml xml w = (Ok p, w1) ->
  trace w1 = trace w ++ [EvWrite p (wrapXmlInPlist xml)].
Proof.
  unfold writeTempXml, bind, now, writeFile, ret, emit.
  destruct (writeFileSync _ _ (ext w)) as [[[]|e] x]; intros [= <- <-];
    reflexivity.
Qed.

Lemma ExecOnly_ret {A} (a : A) : ExecOnly (ret a : M Ext A).
Proof. intros w. exists []. rewrite app_nil_r. split; [reflexivity | constructor]. Qed.

Lemma ExecOnly_throw {A} (e : string) : ExecOnly (throw e : M Ext A).
Proof. intros w. exists []. rewrite app_nil_r. split; [reflexivity | constructor]. Qed.

Lemma ExecOnly_bind {A B} (m : M Ext A) (k : A -> M Ext B) :
  ExecOnly m -> (forall a, ExecOnly (k a)) -> ExecOnly (bind m k).
Proof.
  intros Hm Hk w. destruct (Hm w) as [e1 [H1 F1]]. unfold bind.
  destruct (m w) as [[a|e] w1]; simpl in H1.
  - destruct (Hk a w1) as [e2 [H2 F2]]. exists (e1 ++ e2).
    rewrite H2, H1, app_assoc. split; [reflexivity | apply Forall_app; split; assumption].
  - exists e1. split; assumption.
Qed.

Lemma ExecOnly_tryCatch {A} (m : M Ext A) (h : string -> M Ext A) :
  ExecOnly m -> (forall e, ExecOnly (h e)) -> ExecOnly (tryCatch m h).
Proof.
  intros Hm Hh w. destruct (Hm w) as [e1 [H1 F1]]. unfold tryCatch.
  destruct (m w) as [[a|e] w1]; simpl in H1.
  - exists e1. split; assumption.
  - destruct (Hh e w1) as [e2 [H2 F2]]. exists (e1 ++ e2).
    rewrite H2, H1, app_assoc. split; [reflexivity | apply Forall_app; split; assumption].
Qed.

Lemma ExecOnly_exec (command : string) : ExecOnly (exec command).
Proof.
  intros w. exists [EvExec command]. unfold exec, emit.
  destruct (execAsync command (ext w)) as [r x]. simpl.
  split; [reflexivity | repeat constructor].
Qed.

Lemma ExecOnly_runAppleScriptFile (script : string) :
  ExecOnly (runAppleScriptFile script).
Proof.
  unfold runAppleScriptFile. apply ExecOnly_tryCatch.
  - apply ExecOnly_bind; [apply ExecOnly_exec | intros; apply ExecOnly_ret].
  - intros; apply ExecOnly_throw.
Qed.

Lemma ExecOnly_stagedAttempt (op : Staged) (tempPath : string) :
  ExecOnly (stagedAttempt op tempPath).
Proof.
  destruct op; simpl; unfold addActionAttempt;
    repeat first
      [ apply ExecOnly_runAppleScriptFile | apply ExecOnly_ret
      | apply ExecOnly_throw
      | match goal with
        | |- ExecOnly (if ?b then _ else _) => destruct b
        | |- forall _, _ => intro
        end
      | apply ExecOnly_tryCatch | apply ExecOnly_bind ].
Qed.

Lemma runStaged_unfold (op : Staged) :
  runStaged op
  = (tempPath <- writeTempXml (stagedPayload op) ;;
     tryFinally (stagedAttempt op tempPath) (cleanupTempFile tempPath)).
Proof. destruct op; reflexivity. Qed.

End StagingFacts.

(** When the staging itself throws, nothing is staged: the operation
    throws the same error and asks for no deletion. *)
Lemma runStaged_stage_fails {Ext : Type} `{Runtime Ext}
    (op : Staged) (w w1 : World Ext) (e : string) :
  writeTempXml (stagedPayload op) w = (Throw e, w1) ->
  runStaged op w = (Throw e, w1).
Proof.
  intros Hw. rewrite runStaged_unfold. unfold bind. rewrite Hw. reflexivity.
Qed.

(** C3: each operation that stages a payload file (addAction, addTrigger,
    setActionXml, setTriggerXml) releases it exactly once on every exit
    path.  Once the file is staged, the operation runs its script part,
    which only starts processes, then asks for the deletion, once and last;
    its outcome is the outcome of the script part, thrown or returned,
    whatever the deletion answers. *)
Theorem staged_file_released {Ext : Type} `{Runtime Ext}
    (op : Staged) (w w1 : World Ext) (tempPath : string) :
  writeTempXml (stagedPayload op) w = (Ok tempPath, w1) ->
  exists r w2 execs,
    stagedAttempt op tempPath w1 = (r, w2) /\
    runStaged op w
    = (r, emit (EvUnlink tempPath) w2 (snd (unlinkSync tempPath (ext w2)))) /\
    Forall isExec execs /\
    trace (snd (runStaged op w))
    = trace w ++ [EvWrite tempPath (wrapXmlInPlist (stagedPayload op))]
      ++ execs ++ [EvUnlink tempPath].
Proof.
  intros Hw.
  destruct (ExecOnly_stagedAttempt op tempPath w1) as [execs [Ht Hf]].
  destruct (stagedAttempt op tempPath w1) as [r w2] eqn:Ha. simpl in Ht.
  exists r, w2, execs. split; [reflexivity|].
  assert (Hrun : runStaged op w
                 = (r, emit (EvUnlink tempPath) w2
                         (snd (unlinkSync tempPath (ext w2))))).
  { rewrite runStaged_unfold. unfold bind. rewrite Hw.
    unfold tryFinally. rewrite Ha, cleanupTempFile_ok. reflexivity. }
  split; [exact Hrun|]. split; [exact Hf|].
  rewrite Hrun. simpl. rewrite Ht, (writeTempXml_trace _ _ _ _ Hw).
  rewrite <- !app_assoc. reflexivity.
Qed.

Lemma staged_file_released_witness :
  exists r w2 execs,
    stagedAttempt (StagedSetActionXml "Nightly" 2 "<dict/>")
      "/tmp/km_action_7.plist"
      (mkWorld (mkFaulty 7)
         [EvWrite "/tmp/km_action_7.plist" (wrapXmlInPlist "<dict/>")] false)
    = (r, w2) /\
    runStaged (StagedSetActionXml "Nightly" 2 "<dict/>")
      (mkWorld (mkFaulty 7) [] false)
    = (r, emit (EvUnlink "/tmp/km_action_7.plist") w2
            (snd (unlinkSync "/tmp/km_action_7.plist" (ext w2)))) /\
    Forall isExec execs /\
    trace (snd (runStaged (StagedSetActionXml "Nightly" 2 "<dict/>")
                  (mkWorld (mkFaulty 7) [] false)))
    = [] ++ [EvWrite "/tmp/km_action_7.plist" (wrapXmlInPlist "<dict/>")]
      ++ execs ++ [EvUnlink "/tmp/km_action_7.plist"].
Proof.
  exact (staged_file_released (StagedSetActionXml "Nightly" 2 "<dict/>")
           (mkWorld (mkFaulty 7) [] false)
           (mkWorld (mkFaulty 7)
              [EvWrite "/tmp/km_action_7.plist" (wrapXmlInPlist "<dict/>")] false)
           "/tmp/km_action_7.plist" eq_refl).
Defined.

(** On that host the script fails and the deletion fails: the caller gets
    the failure of the script, and the deletion was asked for once. *)
Example setActionXml_faulty :
  setActionXml "Nightly" 2 "<dict/>" (mkWorld (mkFaulty 7) [] false)
  = (Throw "Failed to set action XML: AppleScript error: Command failed",
     mkWorld (mkFaulty 7)
       [EvWrite "/tmp/km_action_7.plist" (wrapXmlInPlist "<dict/>");
        EvExec (osascriptHeredoc
                  (setActionXmlScript "/tmp/km_action_7.plist" "Nightly" 2));
        EvUnlink "/tmp/km_action_7.plist"] false).
Proof. vm_compute. reflexivity. Qed.

(** ** The add-action check *)

(** C2: in the add-action operation, when the count query before the
    script returns N, the script runs without error, and the count query
    after it returns a count that is not greater than N, the operation
    throws the error of an action that was not created, and does not
    return success. *)
Theorem addAction_not_applied {Ext : Type} `{Runtime Ext}
    (macroIdentifier actionXml tempPath before out after : string)
    (w w1 w2 w3 w4 : World Ext) :
  writeTempXml actionXml w = (Ok tempPath, w1) ->
  runAppleScriptFile (countActionsScript macroIdentifier) w1
  = (Ok before, w2) ->
  runAppleScriptFile (addActionScript tempPath macroIdentifier) w2
  = (Ok out, w3) ->
  runAppleScriptFile (countActionsScript macroIdentifier) w3
  = (Ok after, w4) ->
  parseIntOr0 after <= parseIntOr0 before ->
  exists w',
    addAction macroIdentifier actionXml w
    = (Throw ("Failed to add action: "
              +:+ "Action was not created - XML may be invalid or malformed"),
       w').
Proof.
  intros Hw Hb Hs Ha Hle.
  unfold addAction, bind. rewrite Hw.
  unfold tryFinally, tryCatch, addActionAttempt, bind.
  rewrite Hb, Hs, Ha.
  apply Z.leb_le in Hle. rewrite Hle. unfold throw.
  rewrite cleanupTempFile_ok. eexists. reflexivity.
Qed.

Lemma addAction_not_applied_witness :
  exists w',
    addAction "Nightly" "<dict><key>Broken" (simWorld 5 ∅ "3")
    = (Throw ("Failed to add action: "
              +:+ "Action was not created - XML may be invalid or malformed"),
       w').
Proof.
  set (w0 := simWorld 5 ∅ "3").
  set (w1 := snd (writeTempXml "<dict><key>Broken" w0)).
  set (w2 := snd (runAppleScriptFile (countActionsScript "Nightly") w1)).
  set (w3 := snd (runAppleScriptFile
                    (addActionScript "/tmp/km_action_5.plist" "Nightly") w2)).
  set (w4 := snd (runAppleScriptFile (countActionsScript "Nightly") w3)).
  apply (addAction_not_applied "Nightly" "<dict><key>Broken"
           "/tmp/km_action_5.plist" "3" "3" "3" w0 w1 w2 w3 w4).
  - vm_compute. reflexivity.
  - vm_compute. reflexivity.
  - vm_compute. reflexivity.
  - vm_compute. reflexivity.
  - vm_compute. discriminate.
Defined.

(** When the count has grown the operation reports success. *)
Lemma addAction_applied {Ext : Type} `{Runtime Ext}
    (macroIdentifier actionXml tempPath before out after : string)
    (w w1 w2 w3 w4 : World Ext) :
  writeTempXml actionXml w = (Ok tempPath, w1) ->
  runAppleScriptFile (countActionsScript macroIdentifier) w1
  = (Ok before, w2) ->
  runAppleScriptFile (addActionScript tempPath macroIdentifier) w2
  = (Ok out, w3) ->
  runAppleScriptFile (countActionsScript macroIdentifier) w3
  = (Ok after, w4) ->
  parseIntOr0 before < parseIntOr0 after ->
  exists w',
    addAction macroIdentifier actionXml w
    = (Ok ("Action added to macro " +:+ quoted macroIdentifier), w').
Proof.
  intros Hw Hb Hs Ha Hlt.
  unfold addAction, bind. rewrite Hw.
  unfold tryFinally, tryCatch, addActionAttempt, bind.
  rewrite Hb, Hs, Ha.
  apply Z.leb_gt in Hlt. rewrite Hlt. unfold ret.
  rewrite cleanupTempFile_ok. eexists. reflexivity.
Qed.

(** ** Escaping of interpolated strings *)

Lemma replaceAll_app (c : ascii) (by_ s t : string) :
  replaceAll c by_ (s +:+ t) = replaceAll c by_ s +:+ replaceAll c by_ t.
Proof.
  induction s as [|a s IH]; [reflexivity|].
  rewrite app_cons_str. simpl. rewrite IH.
  destruct (Ascii.eqb a c); [rewrite app_assoc_str|]; reflexivity.
Qed.

Lemma escapeBackslashesAndQuotes_cons (c : ascii) (s : string) :
  escapeBackslashesAndQuotes (String c s)
  = (if Ascii.eqb c backslash then BS +:+ BS
     else if Ascii.eqb c dquote then BS +:+ DQ
     else str1 c) +:+ escapeBackslashesAndQuotes s.
Proof.
  unfold escapeBackslashesAndQuotes. simpl.
  destruct (Ascii.eqb c backslash) eqn:Hb.
  - rewrite replaceAll_app. reflexivity.
  - simpl. destruct (Ascii.eqb c dquote); reflexivity.
Qed.

Lemma readLiteral_backslash (c : ascii) (s : string) :
  readLiteral (String backslash (String c s))
  = match unescape c with
    | Some d => consFst d <$> readLiteral s
    | None => None
    end.
Proof. reflexivity. Qed.

Lemma readLiteral_plain (c : ascii) (s : string) :
  Ascii.eqb c dquote = false -> Ascii.eqb c backslash = false ->
  readLiteral (String c s) = consFst c <$> readLiteral s.
Proof. intros Hq Hb. simpl. rewrite Hq, Hb. reflexivity. Qed.

(** With backslashes and quotes escaped, as [searchReplaceInAction] does,
    the literal denotes the interpolated string and ends where the template
    closes it, whatever the string. *)
Lemma readLiteral_escaped (s rest : string) :
  readLiteral (escapeBackslashesAndQuotes s +:+ DQ +:+ rest) = Some (s, rest).
Proof.
  induction s as [|c s IH].
  - reflexivity.
  - rewrite escapeBackslashesAndQuotes_cons, app_assoc_str.
    destruct (Ascii.eqb c backslash) eqn:Hb;
      [|destruct (Ascii.eqb c dquote) eqn:Hq].
    + apply Ascii.eqb_eq in Hb as ->.
      change ((BS +:+ BS) +:+ ?x) with (String backslash (String backslash x)).
      rewrite readLiteral_backslash. simpl unescape. rewrite IH. reflexivity.
    + apply Ascii.eqb_eq in Hq as ->.
      change ((BS +:+ DQ) +:+ ?x) with (String backslash (String dquote x)).
      rewrite readLiteral_backslash. simpl unescape. rewrite IH. reflexivity.
    + rewrite str1_app, (readLiteral_plain _ _ Hq Hb), IH.
      reflexivity.
Qed.

(** With quotes escaped only, as most operations do, the same holds for
    the strings that hold no backslash. *)
Lemma readLiteral_escapeQuotes (s rest : string) :
  Forall (fun c => Ascii.eqb c backslash = false) (list_ascii_of_string s) ->
  readLiteral (escapeQuotes s +:+ DQ +:+ rest) = Some (s, rest).
Proof.
  induction s as [|c s IH]; intros Hall.
  - reflexivity.
  - simpl in Hall. inversion Hall as [|? ? Hb Hs]; subst.
    unfold escapeQuotes in *. simpl.
    destruct (Ascii.eqb c dquote) eqn:Hq.
    + apply Ascii.eqb_eq in Hq as ->.
      rewrite app_assoc_str.
      change ((BS +:+ DQ) +:+ ?x) with (String backslash (String dquote x)).
      rewrite readLiteral_backslash. simpl unescape. rewrite (IH Hs).
      reflexivity.
    + rewrite app_cons_str, (readLiteral_plain _ _ Hq Hb), (IH Hs).
      reflexivity.
Qed.

(** With no escaping at all, as [getMacro] interpolates, it holds only for
    the strings that hold neither a quote nor a backslash. *)
Lemma readLiteral_raw (s rest : string) :
  Forall (fun c => Ascii.eqb c dquote = false /\ Ascii.eqb c backslash = false)
    (list_ascii_of_string s) ->
  readLiteral (s +:+ DQ +:+ rest) = Some (s, rest).
Proof.
  induction s as [|c s IH]; intros Hall.
  - reflexivity.
  - simpl in Hall. inversion Hall as [|? ? [Hq Hb] Hs]; subst.
    rewrite app_cons_str, (readLiteral_plain _ _ Hq Hb), (IH Hs).
    reflexivity.
Qed.

Lemma readLiteral_length (n : nat) :
  forall t v r,
    (String.length t <= n)%nat ->
    readLiteral t = Some (v, r) ->
    (String.length v + String.length r < String.length t)%nat.
Proof.
  induction n as [|n IH]; intros t v r Hn.
  - destruct t; [discriminate | simpl in Hn; lia].
  - destruct t as [|c t]; [discriminate|]. simpl.
    destruct (Ascii.eqb c dquote).
    { intros [= <- <-]. simpl. lia. }
    destruct (Ascii.eqb c backslash).
    + destruct t as [|e t]; [discriminate|].
      destruct (unescape e); [|discriminate].
      destruct (readLiteral t) as [[v' r']|] eqn:Hr; [|discriminate].
      intros [= <- <-]. simpl in Hn.
      pose proof (IH t v' r' ltac:(lia) Hr). simpl. lia.
    + destruct (readLiteral t) as [[v' r']|] eqn:Hr; [|discriminate].
      intros [= <- <-]. simpl in Hn.
      pose proof (IH t v' r' ltac:(lia) Hr). simpl. lia.
Qed.

(** An interpolation without escaping is read back as the interpolated
    string exactly when the string holds no quote and no backslash. *)
Lemma readLiteral_raw_iff (s rest : string) :
  readLiteral (s +:+ DQ +:+ rest) = Some (s, rest)
  <-> Forall (fun c => Ascii.eqb c dquote = false
                       /\ Ascii.eqb c backslash = false)
        (list_ascii_of_string s).
Proof.
  split; [|apply readLiteral_raw].
  induction s as [|c s IH]; [constructor|].
  rewrite app_cons_str. simpl.
  destruct (Ascii.eqb c dquote) eqn:Hq; [discriminate|].
  destruct (Ascii.eqb c backslash) eqn:Hb.
  - destruct (s +:+ DQ +:+ rest) as [|e t] eqn:Ht; [discriminate|].
    destruct (unescape e); [|discriminate].
    destruct (readLiteral t) as [[v' r']|] eqn:Hr; [|discriminate].
    intros [= _ -> ->].
    pose proof (readLiteral_length _ _ _ _ (le_n _) Hr) as Hlen.
    apply (f_equal String.length) in Ht.
    rewrite !length_app_str in Ht. simpl in Ht. lia.
  - destruct (readLiteral (s +:+ DQ +:+ rest)) as [[v' r']|] eqn:Hr;
      [|discriminate].
    intros [= -> ->]. constructor; [split; assumption|].
    apply IH. reflexivity.
Qed.

(** The reference to a macro that [getMacro], [getMacroXml],
    [deleteMacro], [setMacroEnabled], [addAction] and the other editing
    operations write: its first literal is the identifier exactly when the
    identifier holds no quote and no backslash. *)
Lemma macroRef_literal (identifier : string) :
  exists rest,
    macroRef identifier
    = "first macro whose name is " +:+ DQ +:+ identifier +:+ DQ +:+ rest /\
    (readLiteral (identifier +:+ DQ +:+ rest) = Some (identifier, rest)
     <-> Forall (fun c => Ascii.eqb c dquote = false
                          /\ Ascii.eqb c backslash = false)
           (list_ascii_of_string identifier)).
Proof.
  exists (" or id is " +:+ quoted identifier). split.
  - unfold macroRef, quoted. rewrite !app_assoc_str. reflexivity.
  - apply readLiteral_raw_iff.
Qed.

(** C1, at an identifier that holds a double quote between [a] and [b],
    at the identifier of one double quote, and at the value of one
    backslash:
    [getMacro] interpolates the identifier as it is, so the program holds
    the literals [a] and [b] around stray text instead of the identifier;
    [executeMacro] leaves a literal that does not end; [setVariable]
    escapes the quote but not the backslash, which then escapes the
    closing quote.  [searchReplaceInAction] escapes both, and its program
    holds the two texts as given. *)
Theorem interpolation_not_escaped :
  literals (getMacroScript "abc")
  = Some ["Keyboard Maestro"; "abc"; "abc"; "|"; "|"] /\
  literals (getMacroScript ("a" +:+ DQ +:+ "b"))
  = Some ["Keyboard Maestro"; "a"; " or id is "; "b"; "|"; "|"] /\
  literals (executeMacroScript DQ None) = None /\
  literals (setVariableScript "v" BS) = None /\
  literals (searchReplaceScript "m" 1 (BS +:+ DQ) (DQ +:+ "x" +:+ BS))
  = Some ["Keyboard Maestro"; "m"; "m"; "Keyboard Maestro Engine";
          BS +:+ DQ; DQ +:+ "x" +:+ BS].
Proof. repeat split; vm_compute; reflexivity. Qed.

(** ** The error summary *)

Lemma tallyStep_lookup (t t1 : Tally) (e : LogEntry) (k : string) :
  ~ Inherited k ->
  tallyStep t e = Ok t1 ->
  own t1 !! k
  = if decide (entryKey e = k)
    then Some (mkErrorStat (from_option count 0 (own t !! k) + 1)
                 (message e) (timestamp e))
    else own t !! k.
Proof.
  intros Hk. unfold tallyStep.
  destruct (decide (entryKey e = k)) as [Hd|Hd].
  - subst k. destruct (own t !! entryKey e) as [st|] eqn:Hl.
    + intros [= <-]. simpl. rewrite lookup_insert_eq. reflexivity.
    + destruct (bool_decide (entryKey e ∈ inheritedMethods)) eqn:Hb.
      { exfalso. apply Hk. left. apply bool_decide_eq_true in Hb. exact Hb. }
      destruct (String.eqb (entryKey e) "__proto__") eqn:Hp.
      { exfalso. apply Hk. right. apply String.eqb_eq in Hp. exact Hp. }
      destruct (polluted t && _); [discriminate|].
      intros [= <-]. simpl. rewrite lookup_insert_eq. reflexivity.
  - destruct (own t !! entryKey e) as [st|] eqn:Hl.
    + intros [= <-]. simpl. rewrite lookup_insert_ne by exact Hd. reflexivity.
    + destruct (bool_decide (entryKey e ∈ inheritedMethods));
        [intros [= <-]; reflexivity|].
      destruct (String.eqb (entryKey e) "__proto__");
        [intros [= <-]; reflexivity|].
      destruct (polluted t && _); [discriminate|].
      intros [= <-]. simpl. rewrite lookup_insert_ne by exact Hd. reflexivity.
Qed.

Lemma countKey_cons (k : string) (e : LogEntry) (entries : list LogEntry) :
  countKey k (e :: entries)
  = ((if decide (entryKey e = k) then 1 else 0) + countKey k entries)%nat.
Proof.
  unfold countKey. case_decide as Hd.
  - rewrite filter_cons_True by exact Hd. reflexivity.
  - rewrite filter_cons_False by exact Hd. reflexivity.
Qed.

(** After the loop, the record of a key holds the number of entries of
    the key and the message and time of the last of them. *)
Lemma tallyAll_lookup (entries : list LogEntry) :
  forall (t t' : Tally) (k : string),
    ~ Inherited k ->
    tallyAll t entries = (t', None) ->
    own t' !! k
    = match last (filter (fun e => entryKey e = k) entries) with
      | Some e =>
          Some (mkErrorStat
                  (from_option count 0 (own t !! k)
                   + Z.of_nat (countKey k entries))
                  (message e) (timestamp e))
      | None => own t !! k
      end.
Proof.
  induction entries as [|e rest IH]; intros t t' k Hk.
  - intros [= <-]. reflexivity.
  - simpl. destruct (tallyStep t e) as [t1|msg] eqn:Hs; [|discriminate].
    intros Hrest. rewrite (IH t1 t' k Hk Hrest).
    rewrite (tallyStep_lookup t t1 e k Hk Hs), countKey_cons.
    case_decide as Hd.
    + rewrite filter_cons_True by exact Hd. rewrite last_cons.
      destruct (last (filter _ rest)) as [e'|] eqn:Hlast.
      * simpl. do 2 f_equal; lia.
      * assert (Hnil : filter (fun e0 => entryKey e0 = k) rest = []).
        { destruct (filter _ rest) as [|x l] eqn:Hf; [reflexivity|].
          rewrite last_cons in Hlast. destruct (last l); discriminate. }
        unfold countKey. rewrite Hnil. simpl. do 2 f_equal; lia.
    + rewrite filter_cons_False by exact Hd.
      destruct (last (filter _ rest)); reflexivity.
Qed.

Lemma tallyAll_count (entries : list LogEntry) (p0 : bool) (t' : Tally)
    (k : string) :
  ~ Inherited k ->
  tallyAll (mkTally ∅ p0) entries = (t', None) ->
  count <$> own t' !! k
  = if decide (countKey k entries = 0%nat) then None
    else Some (Z.of_nat (countKey k entries)).
Proof.
  intros Hk Ht. rewrite (tallyAll_lookup entries _ t' k Hk Ht). simpl.
  rewrite lookup_empty. unfold countKey.
  destruct (filter (fun e => entryKey e = k) entries) as [|x l] eqn:Hf.
  - reflexivity.
  - rewrite last_cons. simpl. destruct (last l); reflexivity.
Qed.

Lemma sliceFrom_last (n : Z) {A : Type} (xs : list A) :
  0 < n ->
  (Z.of_nat (length (sliceFrom (- n) xs)) <= n) /\
  exists older, xs = older ++ sliceFrom (- n) xs.
Proof.
  intros Hn. unfold sliceFrom.
  assert (Hneg : (- n <? 0) = true) by lia. rewrite Hneg.
  split.
  - rewrite length_drop. lia.
  - eexists. symmetry. apply take_drop.
Qed.

Lemma summarize_spec (entries : list LogEntry) (p0 p : bool)
    (s : ErrorSummary) :
  summarize p0 entries = (Ok s, p) ->
  totalErrors s = Z.of_nat (length entries) /\
  (forall k, ~ Inherited k ->
     count <$> errorsByMacro s !! k
     = if decide (countKey k entries = 0%nat) then None
       else Some (Z.of_nat (countKey k entries))) /\
  recentErrors s = sliceFrom (-10) entries.
Proof.
  unfold summarize.
  destruct (tallyAll (mkTally ∅ p0) entries) as [t [msg|]] eqn:Ht;
    [discriminate|].
  intros [= <- _]. simpl. split; [reflexivity|]. split; [|reflexivity].
  intros k Hk. apply (tallyAll_count entries p0 t k Hk Ht).
Qed.

Lemma Unknown_not_Inherited : ~ Inherited "Unknown".
Proof.
  intros [Hin | Heq]; [|discriminate].
  apply list_elem_of_In in Hin. simpl in Hin.
  repeat (destruct Hin as [Hin | Hin]; [discriminate|]). exact Hin.
Qed.

(** The difference of two numbers that are exact is exact. *)
Lemma roundToDouble_small (n : Z) : Z.abs n < 2 ^ 53 -> roundToDouble n = n.
Proof.
  intros Hn. unfold roundToDouble.
  destruct (Z.ltb_spec (Z.abs n) (2 ^ 53)) as [_|Hge]; [reflexivity | lia].
Qed.

Lemma lookback_exact (t hours : Z) :
  Z.abs t < 2 ^ 52 -> Z.abs hours < 2 ^ 30 ->
  lookback t hours = t - hours * 60 * 60 * 1000.
Proof.
  intros Ht Hh. unfold lookback.
  rewrite (roundToDouble_small (hours * 60)) by lia.
  rewrite (roundToDouble_small (hours * 60 * 60)) by lia.
  rewrite (roundToDouble_small (hours * 60 * 60 * 1000)) by lia.
  apply roundToDouble_small. lia.
Qed.

(** C4: the error summary counts the error-classified entries of the last
    5000 lines that lie inside the lookback window, and no entry outside
    it: the window starts at the date [new Date(now - hours * 3600000)],
    and an entry outside it, or any entry when that date is invalid, is
    not counted.  [totalErrors] is the number of the entries inside the
    window, so 3 for three error lines of macro A and one of macro B of
    which one line of A is outside the window and the three other lines
    are inside it; the count of a key is the number of those entries
    grouped under it, so 2 for A; an entry without a macro name is
    grouped under [Unknown]; and the recent errors are the last entries,
    at most 10. *)
Theorem getErrorSummary_counts {Ext : Type} `{Runtime Ext}
    (hours : Z) (w w' : World Ext) (s : ErrorSummary) :
  getErrorSummary hours w = (Ok s, w') ->
  exists content entries,
    fst (readFile ENGINE_LOG_PATH (ext w)) = Ok content /\
    entries
    = filter
        (fun e =>
           notBefore (newDate (lookback (dateNow (ext w)) hours)) e = true)
        (filter (fun e => isError e = true)
           (omap (parseLogLine dateParse)
              (sliceFrom (-5000)
                 (filter (fun l => negb (isEmpty (trim l)) = true)
                    (split NL content))))) /\
    totalErrors s = Z.of_nat (length entries) /\
    (forall k, ~ Inherited k ->
       count <$> errorsByMacro s !! k
       = if decide (countKey k entries = 0%nat) then None
         else Some (Z.of_nat (countKey k entries))) /\
    (forall e, macroName e = None -> entryKey e = "Unknown") /\
    ~ Inherited "Unknown" /\
    recentErrors s = sliceFrom (-10) entries /\
    (length (recentErrors s) <= 10)%nat /\
    exists older, entries = older ++ recentErrors s.
Proof.
  unfold getErrorSummary, bind, now, readEngineLog, tryCatch, bind,
    readFileUtf8, ret, throw.
  destruct (readFile ENGINE_LOG_PATH (ext w)) as [[content|e] x] eqn:Hr;
    [|discriminate].
  set (entries := engineEntries _ _ _ content).
  destruct (summarize _ entries) as [[s0|msg] p] eqn:Hs; [|discriminate].
  intros [= <- _].
  destruct (summarize_spec entries _ p s0 Hs) as (Htot & Hcnt & Hrec).
  exists content, entries. split; [reflexivity|]. split; [reflexivity|].
  split; [exact Htot|]. split; [exact Hcnt|].
  split; [intros e0 He0; unfold entryKey; rewrite He0; reflexivity|].
  split; [exact Unknown_not_Inherited|].
  split; [exact Hrec|]. rewrite Hrec.
  destruct (sliceFrom_last 10 entries) as [Hlen Hold]; [lia|].
  change (- (10)) with (-10) in Hlen, Hold.
  split; [lia | exact Hold].
Qed.

(** The log of the example holds four error-classified lines, three of
    macro A and one of macro B; the first line of A is outside the window
    of 24 hours, the other three are inside it.  The summary counts 3
    errors in all, 2 for A and 1 for B. *)
Lemma getErrorSummary_counts_witness :
  map (fun e => (entryKey e, isError e,
                 notBefore (Some (exampleNow - 24 * 60 * 60 * 1000)) e))
    (omap (parseLogLine utcDateValue) (split NL exampleLog))
  = [("A", true, false); ("A", true, true); ("B", true, true);
     ("A", true, true)] /\
  exists s w',
    getErrorSummary 24 exampleWorld = (Ok s, w') /\
    totalErrors s = 3 /\
    count <$> errorsByMacro s !! "A" = Some 2 /\
    count <$> errorsByMacro s !! "B" = Some 1.
Proof.
  split; [vm_compute; reflexivity|].
  destruct (getErrorSummary 24 exampleWorld) as [[s|e] w'] eqn:Heq;
    [|vm_compute in Heq; discriminate Heq].
  exists s, w'. split; [reflexivity|].
  destruct (getErrorSummary_counts 24 exampleWorld w' s Heq)
    as (content & entries & Hread & -> & Htot & Hcnt & _).
  vm_compute in Hread. injection Hread as <-.
  assert (HA : ~ Inherited "A").
  { intros [Hin | Hp]; [|discriminate].
    apply list_elem_of_In in Hin. simpl in Hin.
    repeat (destruct Hin as [Hin | Hin]; [discriminate|]). exact Hin. }
  assert (HB : ~ Inherited "B").
  { intros [Hin | Hp]; [|discriminate].
    apply list_elem_of_In in Hin. simpl in Hin.
    repeat (destruct Hin as [Hin | Hin]; [discriminate|]). exact Hin. }
  split; [rewrite Htot; vm_compute; reflexivity|].
  split; [rewrite (Hcnt "A" HA) | rewrite (Hcnt "B" HB)];
    vm_compute; reflexivity.
Defined.

(** A lookback so long that the start of the window is no date: no entry
    is counted. *)
Example getErrorSummary_invalid_date :
  newDate (lookback exampleNow 3000000000) = None /\
  exists w',
    getErrorSummary 3000000000 exampleWorld
    = (Ok (mkErrorSummary 0 ∅ []), w').
Proof. split; [vm_compute; reflexivity|]. eexists. vm_compute. reflexivity. Qed.

(** Keys that [Object.prototype] answers for are outside the counts: a
    macro named [toString] gets no record, and after a macro named
    [__proto__] a macro named [lastError] stops the summary. *)
Example summarize_inherited_keys :
  (summarize false
     [mkLogEntry "2025-01-02 10:00:00" None "Macro toString failed" true
        (Some "toString") None;
      mkLogEntry "2025-01-02 10:01:00" None "Macro A failed" true
        (Some "A") None]
   = (Ok (mkErrorSummary 2
            {[ "A" := mkErrorStat 1 "Macro A failed" "2025-01-02 10:01:00" ]}
            [mkLogEntry "2025-01-02 10:00:00" None "Macro toString failed" true
               (Some "toString") None;
             mkLogEntry "2025-01-02 10:01:00" None "Macro A failed" true
               (Some "A") None]),
      false)) /\
  (summarize false
     [mkLogEntry "2025-01-02 10:00:00" None "Macro __proto__ failed" true
        (Some "__proto__") None;
      mkLogEntry "2025-01-02 10:01:00" None "Macro lastError failed" true
        (Some "lastError") None]
   = (Throw "Cannot create property 'count' on string", true)).
Proof. split; vm_compute; reflexivity. Qed.

(** ** Escaping of the text of a payload *)

Lemma escapeXml_cons (c : ascii) (s : string) :
  escapeXml (String c s)
  = (if Ascii.eqb c "&" then "&amp;"
     else if Ascii.eqb c "<" then "&lt;"
     else if Ascii.eqb c ">" then "&gt;"
     else if Ascii.eqb c dquote then "&quot;"
     else if Ascii.eqb c squote then "&apos;"
     else str1 c) +:+ escapeXml s.
Proof.
  unfold escapeXml. simpl replaceAll at 5.
  destruct (Ascii.eqb c "&") eqn:H1.
  { rewrite !replaceAll_app. reflexivity. }
  simpl replaceAll at 4. destruct (Ascii.eqb c "<") eqn:H2.
  { rewrite !replaceAll_app. reflexivity. }
  simpl replaceAll at 3. destruct (Ascii.eqb c ">") eqn:H3.
  { rewrite !replaceAll_app. reflexivity. }
  simpl replaceAll at 2. destruct (Ascii.eqb c dquote) eqn:H4.
  { rewrite !replaceAll_app. reflexivity. }
  simpl replaceAll at 1. destruct (Ascii.eqb c squote) eqn:H5.
  { reflexivity. }
  reflexivity.
Qed.

Lemma readTextAux_escapeXml (s t : string) :
  readTextAux O t = Some (EmptyString, t) ->
  readTextAux O (escapeXml s +:+ t) = Some (s, t).
Proof.
  intros Ht. induction s as [|c s IH].
  - exact Ht.
  - rewrite escapeXml_cons, app_assoc_str.
    destruct (Ascii.eqb c "&") eqn:H1.
    { apply Ascii.eqb_eq in H1 as ->.
      change ("&amp;" +:+ ?x) with (String "&" (String "a" (String "m"
        (String "p" (String ";" x))))).
      cbn. rewrite IH. reflexivity. }
    destruct (Ascii.eqb c "<") eqn:H2.
    { apply Ascii.eqb_eq in H2 as ->.
      change ("&lt;" +:+ ?x) with (String "&" (String "l" (String "t"
        (String ";" x)))).
      cbn. rewrite IH. reflexivity. }
    destruct (Ascii.eqb c ">") eqn:H3.
    { apply Ascii.eqb_eq in H3 as ->.
      change ("&gt;" +:+ ?x) with (String "&" (String "g" (String "t"
        (String ";" x)))).
      cbn. rewrite IH. reflexivity. }
    destruct (Ascii.eqb c dquote) eqn:H4.
    { apply Ascii.eqb_eq in H4 as ->.
      change ("&quot;" +:+ ?x) with (String "&" (String "q" (String "u"
        (String "o" (String "t" (String ";" x)))))).
      cbn. rewrite IH. reflexivity. }
    destruct (Ascii.eqb c squote) eqn:H5.
    { apply Ascii.eqb_eq in H5 as ->.
      change ("&apos;" +:+ ?x) with (String "&" (String "a" (String "p"
        (String "o" (String "s" (String ";" x)))))).
      cbn. rewrite IH. reflexivity. }
    rewrite str1_app. simpl. rewrite H2, H1, IH. reflexivity.
Qed.

Lemma escapeXml_no_markup (s : string) :
  Forall (fun c => isMarkup c = false) (list_ascii_of_string (escapeXml s)).
Proof.
  induction s as [|c s IH]; [constructor|].
  rewrite escapeXml_cons, chars_app. apply Forall_app. split; [|exact IH].
  unfold isMarkup.
  destruct (Ascii.eqb c "&") eqn:H1; [repeat constructor|].
  destruct (Ascii.eqb c "<") eqn:H2; [repeat constructor|].
  destruct (Ascii.eqb c ">") eqn:H3; [repeat constructor|].
  destruct (Ascii.eqb c dquote) eqn:H4; [repeat constructor|].
  destruct (Ascii.eqb c squote) eqn:H5; [repeat constructor|].
  constructor; [|constructor]. rewrite H2, H3, H4, H5. reflexivity.
Qed.

(** X1: the text [escapeXml] writes holds no angle bracket and no quote,
    and an XML reader gives back the string it was made from, up to the
    end of the input or to the tag that follows, whatever the string. *)
Theorem escapeXml_reads_back (s : string) :
  Forall (fun c => isMarkup c = false) (list_ascii_of_string (escapeXml s)) /\
  readText (escapeXml s) = Some (s, EmptyString) /\
  forall rest,
    readText (escapeXml s +:+ "<" +:+ rest) = Some (s, "<" +:+ rest).
Proof.
  split; [apply escapeXml_no_markup|]. split.
  - rewrite <- (app_nil_r_str (escapeXml s)) at 1.
    apply readTextAux_escapeXml. reflexivity.
  - intros rest. apply readTextAux_escapeXml. reflexivity.
Qed.

Lemma readEntries_mono (n : nat) :
  forall m s r, (n <= m)%nat ->
    readEntries n s = Some r -> readEntries m s = Some r.
Proof.
  induction n as [|n IH]; intros m s r Hle; [discriminate|].
  destruct m as [|m]; [lia|]. simpl.
  destruct (expect "</dict>" (skipXmlSpace s)); [trivial|].
  destruct (readElement "key" (skipXmlSpace s)) as [[k s1]|]; [|discriminate].
  destruct (readValue (skipXmlSpace s1)) as [[v s2]|]; [|discriminate].
  destruct (readEntries n s2) as [r'|] eqn:Hr; [|discriminate].
  rewrite (IH m s2 r' ltac:(lia) Hr). trivial.
Qed.

Lemma readValue_string (v rest : string) :
  readValue ("<string>" +:+ escapeXml v +:+ "</string>" +:+ rest)
  = Some (PString v, rest).
Proof.
  unfold readValue, readElement.
  change (expect "<true/>" _) with (@None string).
  change (expect "<false/>" _) with (@None string).
  change (expect ("<" +:+ "string" +:+ ">") ("<string>" +:+ ?r)) with (Some r).
  cbv beta iota. unfold readText.
  change ("</string>" +:+ rest) with (String "<" ("/string>" +:+ rest)).
  rewrite readTextAux_escapeXml by reflexivity. reflexivity.
Qed.

Section Payloads.

Local Arguments String.append !_ _ / : simpl nomatch.

Ltac read_entries n :=
  unfold readDict;
  change (expect "<dict>" ("<dict>" +:+ ?r)) with (Some r);
  cbv beta iota;
  apply (readEntries_mono n);
  [ rewrite length_app_str; simpl; lia
  | unfold NL, TB, str1, LF, TAB;
    pose proof readValue_string as Hv; simpl in Hv;
    repeat (simpl; rewrite ?Hv); reflexivity ].

Lemma notificationXml_dict (title message : string) (subtitle : option string) :
  readDict (notificationXml title message subtitle)
  = Some [("MacroActionType", PString "Notification");
          ("Title", PString title);
          ("Subtitle", PString (orEmpty subtitle));
          ("Text", PString message)].
Proof. unfold notificationXml. read_entries 5%nat. Qed.

Lemma setVariableXml_dict (variable value : string) :
  readDict (setVariableXml variable value)
  = Some [("MacroActionType", PString "SetVariableToText");
          ("Variable", PString variable);
          ("Text", PString value)].
Proof. unfold setVariableXml. read_entries 4%nat. Qed.

Lemma calculationXml_dict (variable expression : string) :
  readDict (calculationXml variable expression)
  = Some [("MacroActionType", PString "SetVariableToCalculation");
          ("Variable", PString variable);
          ("Text", PString expression);
          ("UseFormat", PFalse)].
Proof. unfold calculationXml. read_entries 5%nat. Qed.

Lemma displayTextXml_dict (title text : string) :
  readDict (displayTextXml title text)
  = Some [("MacroActionType", PString "Alert");
          ("Title", PString title);
          ("Text", PString text)].
Proof. unfold displayTextXml. read_entries 4%nat. Qed.

Lemma shellScriptXml_plain (script : string) :
  readDict (shellScriptXml "None" EmptyString script)
  = Some [("MacroActionType", PString "ExecuteShellScript");
          ("DisplayKind", PString "None");
          ("Text", PString script);
          ("UseText", PTrue);
          ("TimeOutAbortsMacro", PTrue);
          ("TrimResults", PTrue)].
Proof. unfold shellScriptXml. read_entries 7%nat. Qed.

Lemma shellScriptXml_saved (script v : string) :
  readDict (shellScriptXml "Variable" (variableTagXml v) script)
  = Some [("MacroActionType", PString "ExecuteShellScript");
          ("DisplayKind", PString "Variable");
          ("Variable", PString v);
          ("Text", PString script);
          ("UseText", PTrue);
          ("TimeOutAbortsMacro", PTrue);
          ("TrimResults", PTrue)].
Proof.
  unfold shellScriptXml, variableTagXml. rewrite !app_assoc_str.
  read_entries 8%nat.
Qed.

End Payloads.

(** X2: the payloads of the notification, set-variable, calculation and
    display-text helpers are dictionaries that a property-list reader
    reads back field by field: the action type, then each argument as it
    was given, whatever characters it holds. *)
Theorem helper_payloads_read_back
    (title message variable value expression text : string)
    (subtitle : option string) :
  readDict (notificationXml title message subtitle)
  = Some [("MacroActionType", PString "Notification");
          ("Title", PString title);
          ("Subtitle", PString (orEmpty subtitle));
          ("Text", PString message)] /\
  readDict (setVariableXml variable value)
  = Some [("MacroActionType", PString "SetVariableToText");
          ("Variable", PString variable);
          ("Text", PString value)] /\
  readDict (calculationXml variable expression)
  = Some [("MacroActionType", PString "SetVariableToCalculation");
          ("Variable", PString variable);
          ("Text", PString expression);
          ("UseFormat", PFalse)] /\
  readDict (displayTextXml title text)
  = Some [("MacroActionType", PString "Alert");
          ("Title", PString title);
          ("Text", PString text)].
Proof.
  split; [apply notificationXml_dict|].
  split; [apply setVariableXml_dict|].
  split; [apply calculationXml_dict | apply displayTextXml_dict].
Qed.

(** X3: the payload of the shell-script helper reads back as the script
    as it was given; the result goes to a variable exactly when a
    non-empty variable name is given, and is dropped otherwise. *)
Theorem shellScriptPayload_reads_back (script : string)
    (saveToVariable : option string) :
  readDict (shellScriptPayload script saveToVariable)
  = Some (match saveToVariable with
          | Some (String c v) =>
              [("MacroActionType", PString "ExecuteShellScript");
               ("DisplayKind", PString "Variable");
               ("Variable", PString (String c v));
               ("Text", PString script);
               ("UseText", PTrue);
               ("TimeOutAbortsMacro", PTrue);
               ("TrimResults", PTrue)]
          | _ =>
              [("MacroActionType", PString "ExecuteShellScript");
               ("DisplayKind", PString "None");
               ("Text", PString script);
               ("UseText", PTrue);
               ("TimeOutAbortsMacro", PTrue);
               ("TrimResults", PTrue)]
          end).
Proof.
  destruct saveToVariable as [[|c v]|]; simpl.
  - apply shellScriptXml_plain.
  - apply shellScriptXml_saved.
  - apply shellScriptXml_plain.
Qed.

(** ** The envelope, applied twice and applied to the helper payloads *)

Lemma last_char_inj (s1 s2 : string) (c1 c2 : ascii) :
  s1 +:+ str1 c1 = s2 +:+ str1 c2 -> c1 = c2.
Proof.
  revert s2. induction s1 as [|a s1 IH]; intros [|b s2];
    rewrite ?app_nil_l_str, ?app_cons_str; unfold str1.
  - intros [= ->]. reflexivity.
  - intros [= _ Hs]. destruct s2; discriminate.
  - intros [= _ Hs]. destruct s1; discriminate.
  - intros [= _ Hs]. exact (IH _ Hs).
Qed.

(** A text between an opening angle bracket and a closing one is its own
    trimmed form. *)
Lemma trim_bracketed (body : string) :
  trim (String "<" (body +:+ ">")) = String "<" (body +:+ ">").
Proof.
  apply (trim_plain_ends "<" ">" (body +:+ ">") ("<" +:+ body));
    reflexivity.
Qed.

(** X4: wrapping a payload twice is wrapping it once. *)
Theorem wrapXmlInPlist_idempotent (xml : string) :
  wrapXmlInPlist (wrapXmlInPlist xml) = wrapXmlInPlist xml.
Proof.
  destruct (startsWith (trim xml) "<?xml" || startsWith (trim xml) "<!DOCTYPE"
            || startsWith (trim xml) "<plist") eqn:Hw.
  - assert (Hin : wrapXmlInPlist xml = trim xml)
      by (unfold wrapXmlInPlist; rewrite Hw; reflexivity).
    rewrite Hin. unfold wrapXmlInPlist. rewrite trim_idempotent, Hw.
    reflexivity.
  - set (t := trim xml) in *.
    assert (Hin : wrapXmlInPlist xml
                  = xmlDeclaration +:+ NL +:+ plistDoctype +:+ NL
                    +:+ plistOpen +:+ NL +:+ t +:+ NL +:+ plistClose)
      by (unfold wrapXmlInPlist; fold t; rewrite Hw; reflexivity).
    rewrite Hin. unfold wrapXmlInPlist.
    assert (Ht : trim (xmlDeclaration +:+ NL +:+ plistDoctype +:+ NL
                       +:+ plistOpen +:+ NL +:+ t +:+ NL +:+ plistClose)
                 = xmlDeclaration +:+ NL +:+ plistDoctype +:+ NL
                   +:+ plistOpen +:+ NL +:+ t +:+ NL +:+ plistClose).
    { pose proof (trim_bracketed
        ("?xml version=" +:+ quoted "1.0" +:+ " encoding=" +:+ quoted "UTF-8"
         +:+ "?>" +:+ NL +:+ plistDoctype +:+ NL +:+ plistOpen +:+ NL
         +:+ t +:+ NL +:+ "</plist")) as Hb.
      replace (String "<" (("?xml version=" +:+ quoted "1.0" +:+ " encoding="
                 +:+ quoted "UTF-8" +:+ "?>" +:+ NL +:+ plistDoctype +:+ NL
                 +:+ plistOpen +:+ NL +:+ t +:+ NL +:+ "</plist") +:+ ">"))
        with (xmlDeclaration +:+ NL +:+ plistDoctype +:+ NL
              +:+ plistOpen +:+ NL +:+ t +:+ NL +:+ plistClose) in Hb.
      - exact Hb.
      - unfold xmlDeclaration, plistClose. rewrite !app_assoc_str.
        reflexivity. }
    rewrite Ht.
    change (startsWith (xmlDeclaration +:+ ?r) "<?xml") with true.
    reflexivity.
Qed.

(** A payload that starts with the tag of a dictionary and ends with a
    closing angle bracket is wrapped as it is. *)
Lemma wrapXmlInPlist_markup (p front : string) :
  startsWith p "<d" = true ->
  p = front +:+ str1 ">" ->
  wrapXmlInPlist p
  = xmlDeclaration +:+ NL +:+ plistDoctype +:+ NL +:+ plistOpen +:+ NL
    +:+ p +:+ NL +:+ plistClose.
Proof.
  intros Hs Hp. apply startsWith_spec in Hs as [rest Hrest].
  assert (Ht : trim p = p).
  { rewrite Hrest in Hp |- *.
    apply (trim_plain_ends "<" ">" _ front); [reflexivity | reflexivity|].
    exact Hp. }
  unfold wrapXmlInPlist. rewrite Ht. rewrite Hrest at 1 2 3. reflexivity.
Qed.

(** X5: each helper operation is [addAction] on the payload it builds,
    and that payload is staged inside the envelope, untouched: it is never
    taken for a complete document, and trimming removes nothing from it. *)
Theorem helper_payload_enveloped {Ext : Type} `{Runtime Ext}
    (macroIdentifier : string) (h : Helper) :
  runHelper macroIdentifier h = addAction macroIdentifier (helperPayload h) /\
  wrapXmlInPlist (helperPayload h)
  = xmlDeclaration +:+ NL +:+ plistDoctype +:+ NL +:+ plistOpen +:+ NL
    +:+ helperPayload h +:+ NL +:+ plistClose.
Proof.
  split; [destruct h; reflexivity|].
  destruct h as [? ? ?|? ?|? ?|? ?|? ? ? ?|? ? ?|? [v|]]; simpl;
    unfold shellScriptPayload; try destruct (isEmpty v);
    (eapply wrapXmlInPlist_markup; [reflexivity|]);
    unfold notificationXml, setVariableXml, calculationXml, displayTextXml,
      ifVariableContainsXml, ifCalculationXml, shellScriptXml;
    change "</dict>" with ("</dict" +:+ str1 ">");
    rewrite <- !app_assoc_str; reflexivity.
Qed.

(** ** The commands given to the shell *)

Lemma shWordAux_quoted (script : string) :
  shWordAux true
    (replaceAll squote (str1 squote +:+ BS +:+ str1 squote +:+ str1 squote)
       script +:+ str1 squote)
  = Some script.
Proof.
  induction script as [|c s IH]; [reflexivity|].
  simpl replaceAll. destruct (Ascii.eqb c squote) eqn:Hc.
  - apply Ascii.eqb_eq in Hc as ->. rewrite app_assoc_str.
    change ((str1 squote +:+ BS +:+ str1 squote +:+ str1 squote) +:+ ?x)
      with (String squote (String backslash (String squote (String squote x)))).
    cbn. rewrite IH. reflexivity.
  - rewrite app_cons_str. simpl. rewrite Hc, IH. reflexivity.
Qed.

(** X6: the command of [runAppleScript] is [osascript -e] followed by one
    word, and the shell reads that word as the script, whatever characters
    the script holds. *)
Theorem osascriptCommand_word (script : string) :
  exists word,
    osascriptCommand script = "osascript -e " +:+ word /\
    shWord word = Some script.
Proof.
  eexists. split; [reflexivity|].
  rewrite str1_app. simpl. apply shWordAux_quoted.
Qed.

Lemma splitAux_line (a b cur : string) :
  splitAux NL O cur (a +:+ String LF b)
  = splitAux NL O cur a ++ splitAux NL O EmptyString b.
Proof.
  revert cur. induction a as [|c a IH]; intros cur.
  - rewrite app_nil_l_str. reflexivity.
  - rewrite app_cons_str.
    change (splitAux NL O cur (String c ?x))
      with (if Ascii.eqb LF c && true
            then revStr EmptyString cur :: splitAux NL O EmptyString x
            else splitAux NL O (String c cur) x).
    destruct (Ascii.eqb LF c && true); rewrite IH; reflexivity.
Qed.

Lemma split_lines (a b : string) :
  split NL (a +:+ NL +:+ b) = split NL a ++ split NL b.
Proof. unfold split. unfold NL at 2. rewrite str1_app. apply splitAux_line. Qed.

Lemma untilDelimiter_absent (delim : string) (lines : list string) :
  Forall (fun l => l <> delim) lines ->
  untilDelimiter delim (lines ++ [delim]) = Some (lines, []).
Proof.
  induction 1 as [|l ls Hl _ IH]; simpl.
  - rewrite String.eqb_refl. reflexivity.
  - apply String.eqb_neq in Hl. rewrite Hl, IH. reflexivity.
Qed.

Lemma splitAux_nonempty (sep : string) (skip : nat) (cur s : string) :
  splitAux sep skip cur s <> [].
Proof.
  revert skip cur. induction s as [|c s IH]; intros skip cur; simpl.
  - discriminate.
  - destruct skip; [|apply IH].
    destruct (startsWith (String c s) sep); [discriminate | apply IH].
Qed.

Lemma join_cons (sep p : string) (rest : list string) :
  rest <> [] -> join sep (p :: rest) = p +:+ sep +:+ join sep rest.
Proof. destruct rest; [congruence | reflexivity]. Qed.

Lemma join_splitAux_lines (s cur : string) :
  join NL (splitAux NL O cur s) = revStr EmptyString cur +:+ s.
Proof.
  revert cur. induction s as [|c s IH]; intros cur.
  - simpl. rewrite app_nil_r_str. reflexivity.
  - change (splitAux NL O cur (String c s))
      with (if Ascii.eqb LF c && true
            then revStr EmptyString cur :: splitAux NL O EmptyString s
            else splitAux NL O (String c cur) s).
    destruct (Ascii.eqb LF c) eqn:Hc; simpl andb; cbv iota.
    + apply Ascii.eqb_eq in Hc as <-.
      rewrite join_cons by apply splitAux_nonempty.
      rewrite IH. reflexivity.
    + rewrite IH. simpl. rewrite (revStr_spec (String c EmptyString)).
      rewrite app_assoc_str. reflexivity.
Qed.

Lemma join_split_lines (s : string) : join NL (split NL s) = s.
Proof. unfold split. rewrite join_splitAux_lines. reflexivity. Qed.

Lemma hereDocument_osascriptHeredoc (script : string) :
  Forall (fun l => l <> "APPLESCRIPT") (split NL script) ->
  hereDocument "APPLESCRIPT" (osascriptHeredoc script)
  = Some ("osascript <<" +:+ str1 squote +:+ "APPLESCRIPT" +:+ str1 squote,
          split NL script, []).
Proof.
  intros Hlines. unfold hereDocument, osascriptHeredoc.
  change ("osascript <<" +:+ str1 squote +:+ "APPLESCRIPT" +:+ str1 squote
          +:+ NL +:+ script +:+ NL +:+ "APPLESCRIPT")
    with (("osascript <<" +:+ str1 squote +:+ "APPLESCRIPT" +:+ str1 squote)
          +:+ NL +:+ script +:+ NL +:+ "APPLESCRIPT").
  rewrite !split_lines.
  change (split NL ("osascript <<" +:+ str1 squote +:+ "APPLESCRIPT"
                    +:+ str1 squote))
    with ["osascript <<" +:+ str1 squote +:+ "APPLESCRIPT" +:+ str1 squote].
  change (split NL "APPLESCRIPT") with ["APPLESCRIPT"].
  simpl app. cbv iota beta.
  rewrite (untilDelimiter_absent _ _ Hlines). reflexivity.
Qed.

(** X7: the command of [runAppleScriptFile] is a here-document.  When no
    line of the script is the word APPLESCRIPT alone, the shell reads the
    lines of the script as the document, and nothing is left for it to run
    after the document. *)
Theorem osascriptHeredoc_body (script : string) :
  Forall (fun l => l <> "APPLESCRIPT") (split NL script) ->
  exists body,
    hereDocument "APPLESCRIPT" (osascriptHeredoc script)
    = Some ("osascript <<" +:+ str1 squote +:+ "APPLESCRIPT" +:+ str1 squote,
            body, []) /\
    join NL body = script.
Proof.
  intros Hlines. exists (split NL script).
  split; [apply hereDocument_osascriptHeredoc, Hlines|].
  apply join_split_lines.
Qed.

Lemma osascriptHeredoc_body_witness :
  exists body,
    hereDocument "APPLESCRIPT"
      (osascriptHeredoc (getMacroXmlScript "Nightly"))
    = Some ("osascript <<" +:+ str1 squote +:+ "APPLESCRIPT" +:+ str1 squote,
            body, []) /\
    join NL body = getMacroXmlScript "Nightly".
Proof.
  apply (osascriptHeredoc_body (getMacroXmlScript "Nightly")).
  vm_compute. repeat constructor; discriminate.
Defined.

(** An identifier that holds the delimiter on a line of its own ends the
    document early: the rest of the script is left as commands of the
    shell. *)
Example osascriptHeredoc_cut :
  hereDocument "APPLESCRIPT"
    (osascriptHeredoc
       (deleteMacroScript ("x" +:+ NL +:+ "APPLESCRIPT" +:+ NL +:+ "say hi")))
  = Some ("osascript <<" +:+ str1 squote +:+ "APPLESCRIPT" +:+ str1 squote,
          [EmptyString;
           "tell application " +:+ quoted "Keyboard Maestro";
           "  delete (first macro whose name is " +:+ DQ +:+ "x"],
          ["say hi" +:+ DQ +:+ " or id is " +:+ DQ +:+ "x";
           "APPLESCRIPT";
           "say hi" +:+ DQ +:+ ")";
           "end tell";
           "APPLESCRIPT"]).
Proof. vm_compute. reflexivity. Qed.

(** ** Splitting at a separator, and the list results *)

Lemma startsWith_app (tok rest : string) : startsWith (tok +:+ rest) tok = true.
Proof. apply startsWith_spec. exists rest. reflexivity. Qed.

Lemma splitAux_skip (sep x rest cur : string) :
  splitAux sep (String.length x) cur (x +:+ rest) = splitAux sep O cur rest.
Proof.
  induction x as [|c x IH]; [rewrite app_nil_l_str; reflexivity|].
  rewrite app_cons_str. exact IH.
Qed.

Lemma Without_cons (a c : ascii) (s : string) :
  Without a (String c s) <-> Ascii.eqb c a = false /\ Without a s.
Proof. unfold Without. simpl. exact (Forall_cons _ _ _). Qed.

Lemma Without_app (a : ascii) (s t : string) :
  Without a (s +:+ t) <-> Without a s /\ Without a t.
Proof. unfold Without. rewrite chars_app. apply Forall_app. Qed.

Lemma splitAux_piece (a : ascii) (sep' p rest cur : string) :
  Without a p ->
  splitAux (String a sep') O cur (p +:+ String a sep' +:+ rest)
  = revStr EmptyString (revStr cur p)
      :: splitAux (String a sep') O EmptyString rest.
Proof.
  revert cur. induction p as [|c p IH]; intros cur Hp.
  - rewrite app_nil_l_str.
    pose proof (startsWith_app (String a sep') rest) as Hs.
    rewrite app_cons_str in *. simpl splitAux. simpl in Hs. rewrite Hs.
    rewrite Nat.sub_0_r, splitAux_skip. reflexivity.
  - apply Without_cons in Hp as [Hc Hp].
    rewrite app_cons_str. simpl.
    rewrite Ascii.eqb_sym, Hc. simpl. apply IH, Hp.
Qed.

Lemma splitAux_last (a : ascii) (sep' p cur : string) :
  Without a p ->
  splitAux (String a sep') O cur p = [revStr EmptyString (revStr cur p)].
Proof.
  revert cur. induction p as [|c p IH]; intros cur Hp; [reflexivity|].
  apply Without_cons in Hp as [Hc Hp]. simpl.
  rewrite Ascii.eqb_sym, Hc. simpl. apply IH, Hp.
Qed.

(** Joined pieces that are free of the first character of the separator
    are split back into the same pieces. *)
Lemma split_join (a : ascii) (sep' : string) (pieces : list string) :
  pieces <> [] -> Forall (Without a) pieces ->
  split (String a sep') (join (String a sep') pieces) = pieces.
Proof.
  intros Hne Hall. unfold split.
  induction Hall as [|p rest Hp Hrest IH]; [congruence|].
  destruct rest as [|q rest].
  - simpl. rewrite (splitAux_last _ _ _ _ Hp). simpl.
    rewrite revStr_involutive. reflexivity.
  - rewrite join_cons by discriminate.
    rewrite (splitAux_piece _ _ _ _ _ Hp), IH by discriminate.
    simpl. rewrite revStr_involutive. reflexivity.
Qed.

Lemma trim_nil_AllSpace (s : string) : trim s = EmptyString -> AllSpace s.
Proof.
  intros Ht. destruct (trim_Trimmed s) as [[l [r [Hs [Hl Hr]]]] _].
  rewrite Ht, app_nil_l_str in Hs. rewrite Hs.
  apply CharsOf_app; assumption.
Qed.

(** White space holds no byte that no white-space character holds. *)
Lemma AllSpace_Without (c : ascii) (s : string) :
  forallb (fun w => forallb (fun a => negb (Ascii.eqb a c))
                      (list_ascii_of_string w)) whiteSpace = true ->
  AllSpace s -> Without c s.
Proof.
  intros Hall Hs. rewrite forallb_forall in Hall.
  induction Hs as [|t s [Ht _] Hs IH]; [constructor|].
  apply Without_app. split; [|exact IH].
  apply isWhiteSpace_In in Ht. specialize (Hall t Ht).
  rewrite forallb_forall in Hall. apply Forall_forall.
  intros a Ha. apply list_elem_of_In in Ha. specialize (Hall a Ha).
  destruct (Ascii.eqb a c); [discriminate | reflexivity].
Qed.

Lemma decodeMacro_encodeMacro (m : MacroInfo) :
  Without "|" (name m) -> Without "|" (uid m) ->
  decodeMacro (encodeMacro m) = m.
Proof.
  intros Hn Hu. unfold decodeMacro, encodeMacro, split.
  rewrite (splitAux_piece "|" "||" _ _ _ Hn), (splitAux_last "|" "||" _ _ Hu).
  simpl. rewrite !revStr_involutive. destruct m; reflexivity.
Qed.

Lemma encodeMacros_nonblank (m : MacroInfo) (ms : list MacroInfo) :
  isEmpty (trim (encodeMacros (m :: ms))) = false.
Proof.
  apply isEmpty_false. intros Ht. apply trim_nil_AllSpace in Ht.
  assert (Hshape : exists rest,
             encodeMacros (m :: ms) = name m +:+ String "|" rest).
  { unfold encodeMacros. simpl fmap. destruct ms as [|m' ms].
    - eexists. reflexivity.
    - rewrite join_cons by discriminate. unfold encodeMacro at 1.
      rewrite !app_assoc_str. eexists. reflexivity. }
  destruct Hshape as [rest Hshape]. rewrite Hshape in Ht.
  apply (AllSpace_Without "|") in Ht; [|reflexivity].
  apply Without_app in Ht as [_ Ht].
  apply Without_cons in Ht as [Hbar _]. discriminate Hbar.
Qed.

(** The decoder of [listMacros] and [searchMacros] gives back the macros
    of an encoding, names and ids unchanged and in order, when no name and
    no id holds a bar or a semicolon. *)
Lemma decodeMacros_encodeMacros (macros : list MacroInfo) :
  Forall PlainMacro macros ->
  decodeMacros (encodeMacros macros) = macros.
Proof.
  intros Hall. destruct macros as [|m ms]; [reflexivity|].
  unfold decodeMacros.
  rewrite encodeMacros_nonblank. unfold encodeMacros.
  rewrite (split_join ";" ";;").
  - rewrite <- list_fmap_compose.
    rewrite <- (list_fmap_id (m :: ms)) at 2.
    apply Forall_fmap_ext_1.
    eapply Forall_impl; [exact Hall|].
    intros x (Hn & Hu & _). simpl. apply decodeMacro_encodeMacro; assumption.
  - discriminate.
  - apply Forall_fmap. eapply Forall_impl; [exact Hall|].
    intros x (_ & _ & Hn & Hu). simpl. unfold encodeMacro.
    apply Without_app. split; [exact Hn|].
    apply Without_app. split; [repeat constructor | exact Hu].
Qed.

(** What an operation that runs a script through [runAppleScriptFile]
    and decodes its output returns: the decoding of the output trimmed at
    both ends. *)
Lemma decoded_output {Ext : Type} `{Runtime Ext} {A : Type}
    (script msg : string) (decode : string -> A) (w : World Ext)
    (out : string * string) (x : Ext) :
  execAsync (osascriptHeredoc script) (ext w) = (Ok out, x) ->
  tryCatch (result <- runAppleScriptFile script ;; ret (decode result))
    (fun e => throw (msg +:+ e)) w
  = (Ok (decode (trim (fst out))),
     emit (EvExec (osascriptHeredoc script)) w x).
Proof.
  intros Hx.
  unfold tryCatch, bind, runAppleScriptFile, tryCatch, bind, exec, ret.
  rewrite Hx. reflexivity.
Qed.

(** X8: [listMacros] and [searchMacros] return the macros that the output
    of their script, trimmed at both ends as [runAppleScriptFile] returns
    it, encodes: names and ids unchanged and in order, when no name and no
    id holds a bar or a semicolon. *)
Theorem listMacros_decodes {Ext : Type} `{Runtime Ext}
    (query : string) (macros : list MacroInfo) (w : World Ext) :
  Forall PlainMacro macros ->
  (forall out x,
     execAsync (osascriptHeredoc listMacrosScript) (ext w) = (Ok out, x) ->
     trim (fst out) = encodeMacros macros ->
     listMacros w
     = (Ok macros, emit (EvExec (osascriptHeredoc listMacrosScript)) w x)) /\
  (forall out x,
     execAsync (osascriptHeredoc (searchMacrosScript query)) (ext w)
     = (Ok out, x) ->
     trim (fst out) = encodeMacros macros ->
     searchMacros query w
     = (Ok macros,
        emit (EvExec (osascriptHeredoc (searchMacrosScript query))) w x)).
Proof.
  intros Hall. split; intros out x Hx Ht.
  - unfold listMacros. rewrite (decoded_output _ _ _ w out x Hx), Ht.
    rewrite (decodeMacros_encodeMacros macros Hall). reflexivity.
  - unfold searchMacros. rewrite (decoded_output _ _ _ w out x Hx), Ht.
    rewrite (decodeMacros_encodeMacros macros Hall). reflexivity.
Qed.

(** The engine prints the names and ids of two macros and ends the line. *)
Lemma listMacros_decodes_witness :
  fst (listMacros
         (simWorld 0 ∅ ("Nightly backup|||3F2A;;;|||77" +:+ NL)))
  = Ok [mkMacroInfo "Nightly backup" "3F2A"; mkMacroInfo "" "77"].
Proof.
  rewrite (proj1 (listMacros_decodes (Ext := Sim) EmptyString
                    [mkMacroInfo "Nightly backup" "3F2A"; mkMacroInfo "" "77"]
                    (simWorld 0 ∅ ("Nightly backup|||3F2A;;;|||77" +:+ NL))
                    ltac:(repeat constructor))
             ("Nightly backup|||3F2A;;;|||77" +:+ NL, EmptyString)
             (mkSim 0 ∅ ("Nightly backup|||3F2A;;;|||77" +:+ NL))
             eq_refl eq_refl).
  reflexivity.
Defined.

(** The white space at the two ends of the output is not part of what is
    decoded: a first name that starts with a space comes back without
    it. *)
Example listMacros_leading_space :
  fst (listMacros (simWorld 0 ∅ (" A|||1;;;B|||2" +:+ NL)))
  = Ok [mkMacroInfo "A" "1"; mkMacroInfo "B" "2"].
Proof. vm_compute. reflexivity. Qed.

Lemma decodeGroup_encodeMacro (g : MacroInfo) :
  Without "|" (name g) -> Without "|" (uid g) ->
  trim (name g) = name g -> trim (uid g) = uid g ->
  decodeGroup (encodeMacro g) = g.
Proof.
  intros Hn Hu Htn Htu. unfold decodeGroup, encodeMacro, split.
  rewrite (splitAux_piece "|" "||" _ _ _ Hn), (splitAux_last "|" "||" _ _ Hu).
  simpl. rewrite !revStr_involutive, Htn, Htu. destruct g; reflexivity.
Qed.

Lemma filter_all {A} (P : A -> Prop) `{forall x, Decision (P x)} (l : list A) :
  Forall P l -> filter P l = l.
Proof.
  induction 1 as [|x l Hx _ IH]; [reflexivity|].
  rewrite filter_cons_True by exact Hx. rewrite IH. reflexivity.
Qed.

(** The decoder of [listGroups] gives back the groups of an encoding, in
    order, when no name and no id holds a bar or a semicolon, every name
    and id is free of white space at its ends, and no name is empty. *)
Lemma decodeGroups_encodeMacros (groups : list MacroInfo) :
  Forall PlainMacro groups ->
  Forall TrimmedGroup groups ->
  decodeGroups (encodeMacros groups) = groups.
Proof.
  intros Hall Htrim. destruct groups as [|g gs]; [reflexivity|].
  unfold decodeGroups. rewrite encodeMacros_nonblank. unfold encodeMacros.
  rewrite (split_join ";" ";;").
  - rewrite <- list_fmap_compose.
    assert (Hmap : (decodeGroup ∘ encodeMacro) <$> (g :: gs) = g :: gs).
    { rewrite <- (list_fmap_id (g :: gs)) at 2.
      apply Forall_fmap_ext_1.
      apply Forall_forall. intros x Hx.
      rewrite Forall_forall in Hall, Htrim.
      destruct (Hall x Hx) as (Hn & Hu & _).
      destruct (Htrim x Hx) as (_ & Htn & Htu).
      simpl. apply decodeGroup_encodeMacro; assumption. }
    rewrite Hmap. apply filter_all.
    eapply Forall_impl; [exact Htrim|].
    intros x (Hne & _). apply isEmpty_false in Hne. rewrite Hne. reflexivity.
  - discriminate.
  - apply Forall_fmap. eapply Forall_impl; [exact Hall|].
    intros x (_ & _ & Hn & Hu). simpl. unfold encodeMacro.
    apply Without_app. split; [exact Hn|].
    apply Without_app. split; [repeat constructor | exact Hu].
Qed.

(** X9: [listGroups] returns the groups that the output of its script,
    trimmed at both ends as [runAppleScriptFile] returns it, encodes, in
    order, when no name and no id holds a bar or a semicolon, every name
    and id is free of white space at its ends (the white space of
    [String.prototype.trim], the no-break space and the other Unicode
    spaces included), and no name is empty. *)
Theorem listGroups_decodes {Ext : Type} `{Runtime Ext}
    (groups : list MacroInfo) (w : World Ext)
    (out : string * string) (x : Ext) :
  Forall PlainMacro groups ->
  Forall TrimmedGroup groups ->
  execAsync (osascriptHeredoc listGroupsScript) (ext w) = (Ok out, x) ->
  trim (fst out) = encodeMacros groups ->
  listGroups w
  = (Ok groups, emit (EvExec (osascriptHeredoc listGroupsScript)) w x).
Proof.
  intros Hall Htrim Hx Ht.
  unfold listGroups. rewrite (decoded_output _ _ _ w out x Hx), Ht.
  rewrite (decodeGroups_encodeMacros groups Hall Htrim). reflexivity.
Qed.

Lemma listGroups_decodes_witness :
  fst (listGroups
         (simWorld 0 ∅ ("Global Macro Group|||A1;;;Work|||B2" +:+ NL)))
  = Ok [mkMacroInfo "Global Macro Group" "A1"; mkMacroInfo "Work" "B2"].
Proof.
  rewrite (listGroups_decodes (Ext := Sim)
             [mkMacroInfo "Global Macro Group" "A1"; mkMacroInfo "Work" "B2"]
             (simWorld 0 ∅ ("Global Macro Group|||A1;;;Work|||B2" +:+ NL))
             ("Global Macro Group|||A1;;;Work|||B2" +:+ NL, EmptyString)
             (mkSim 0 ∅ ("Global Macro Group|||A1;;;Work|||B2" +:+ NL))
             ltac:(repeat constructor)
             ltac:(repeat constructor; discriminate)
             eq_refl eq_refl).
  reflexivity.
Defined.

(** A group whose name is a no-break space before a word is not among
    the trimmed ones: its name comes back as the word alone. *)
Example listGroups_no_break_space :
  trim (utf8 [194; 160]%nat +:+ "Work") = "Work" /\
  fst (listGroups
         (simWorld 0 ∅ ("Home|||A1;;;" +:+ utf8 [194; 160]%nat
                        +:+ "Work|||B2" +:+ NL)))
  = Ok [mkMacroInfo "Home" "A1"; mkMacroInfo "Work" "B2"].
Proof. split; vm_compute; reflexivity. Qed.

(** ** The scripts of the group operations *)

Lemma literalsAux_mono (n : nat) :
  forall m s r, (n <= m)%nat ->
    literalsAux n s = Some r -> literalsAux m s = Some r.
Proof.
  induction n as [|n IH]; intros m s r Hle; [discriminate|].
  destruct m as [|m]; [lia|].
  induction s as [|c s IHs]; [trivial|].
  simpl. destruct (Ascii.eqb c dquote).
  - destruct (readLiteral s) as [[v rest]|]; [|discriminate].
    destruct (literalsAux n rest) as [r'|] eqn:Hr; [|discriminate].
    rewrite (IH m rest r' ltac:(lia) Hr). trivial.
  - exact IHs.
Qed.

Section Scripts.

Local Arguments String.append !_ _ / : simpl nomatch.

Ltac read_literals n :=
  unfold literals;
  apply (literalsAux_mono n);
  [ rewrite length_app_str; simpl; lia
  | unfold tellEditor, setTheMacro, groupRef, macroRef, quoted, NL, DQ, str1,
      LF, dquote;
    repeat match goal with
           | H : Without backslash ?s |- _ =>
               let Hq := fresh "Hq" in
               pose proof (fun rest => readLiteral_escapeQuotes s rest H) as Hq;
               unfold DQ, str1, dquote in Hq; simpl in Hq;
               revert H
           end;
    intros;
    repeat (rewrite ?app_assoc_str; simpl;
            match goal with
            | Hq : forall rest, readLiteral _ = _ |- _ => rewrite !Hq
            end);
    simpl; reflexivity ].

Lemma createGroupScript_literals (name : string) :
  Without backslash name ->
  literals (createGroupScript name) = Some ["Keyboard Maestro"; name].
Proof.
  intros Hn. unfold createGroupScript. read_literals 3%nat.
Qed.

Lemma moveMacroToGroupScript_literals (macroIdentifier groupIdentifier : string) :
  Without backslash macroIdentifier -> Without backslash groupIdentifier ->
  literals (moveMacroToGroupScript macroIdentifier groupIdentifier)
  = Some ["Keyboard Maestro"; macroIdentifier; macroIdentifier;
          groupIdentifier; groupIdentifier].
Proof.
  intros Hm Hg. unfold moveMacroToGroupScript. read_literals 6%nat.
Qed.

End Scripts.

(** X10: the scripts of [createGroup] and [moveMacroToGroup] hold their
    arguments as string literals that denote them, double quotes
    included, when the arguments hold no backslash. *)
Theorem group_scripts_escaped (name macroIdentifier groupIdentifier : string) :
  Without backslash name ->
  Without backslash macroIdentifier ->
  Without backslash groupIdentifier ->
  literals (createGroupScript name) = Some ["Keyboard Maestro"; name] /\
  literals (moveMacroToGroupScript macroIdentifier groupIdentifier)
  = Some ["Keyboard Maestro"; macroIdentifier; macroIdentifier;
          groupIdentifier; groupIdentifier].
Proof.
  intros Hn Hm Hg. split.
  - apply createGroupScript_literals, Hn.
  - apply moveMacroToGroupScript_literals; assumption.
Qed.

Lemma group_scripts_escaped_witness :
  literals (createGroupScript ("My " +:+ DQ +:+ "best" +:+ DQ +:+ " macros"))
  = Some ["Keyboard Maestro"; "My " +:+ DQ +:+ "best" +:+ DQ +:+ " macros"] /\
  literals (moveMacroToGroupScript "Nightly" ("a" +:+ DQ +:+ "b"))
  = Some ["Keyboard Maestro"; "Nightly"; "Nightly";
          "a" +:+ DQ +:+ "b"; "a" +:+ DQ +:+ "b"].
Proof.
  apply (group_scripts_escaped
           ("My " +:+ DQ +:+ "best" +:+ DQ +:+ " macros")
           "Nightly" ("a" +:+ DQ +:+ "b"));
    vm_compute; repeat constructor.
Defined.

(** A backslash at the end of a name escapes the closing quote: the
    literal does not end. *)
Example createGroupScript_backslash :
  literals (createGroupScript ("Jobs" +:+ BS)) = None.
Proof. vm_compute. reflexivity. Qed.

Lemma literalsAux_skip (n : nat) (p rest : string) :
  Without dquote p ->
  literalsAux (S n) (p +:+ rest) = literalsAux (S n) rest.
Proof.
  induction p as [|c p IH]; intros Hp; [reflexivity|].
  apply Without_cons in Hp as [Hc Hp].
  rewrite app_cons_str. simpl. rewrite Hc. apply (IH Hp).
Qed.

Lemma string_of_uint_no_quote (d : Decimal.uint) :
  Without dquote (NilEmpty.string_of_uint d).
Proof.
  induction d; simpl; try constructor; try reflexivity; try exact IHd.
Qed.

Lemma numberToString_no_quote (n : Z) : Without dquote (numberToString n).
Proof.
  unfold numberToString, NilEmpty.string_of_int.
  destruct (Z.to_int n).
  - apply string_of_uint_no_quote.
  - constructor; [reflexivity | apply string_of_uint_no_quote].
Qed.

Lemma literalsAux_literal (n : nat) (x v rest : string) :
  readLiteral x = Some (v, rest) ->
  literalsAux (S n) (DQ +:+ x) = cons v <$> literalsAux n rest.
Proof.
  intros Hx. unfold DQ. rewrite str1_app. simpl. rewrite Hx. reflexivity.
Qed.

Lemma literalsAux_end (n : nat) (p : string) :
  Without dquote p -> literalsAux (S n) p = Some [].
Proof.
  intros Hp. rewrite <- (app_nil_r_str p), (literalsAux_skip n p _ Hp).
  reflexivity.
Qed.

Lemma Without_both (s : string) :
  Without dquote s -> Without backslash s ->
  Forall (fun c => Ascii.eqb c dquote = false /\ Ascii.eqb c backslash = false)
    (list_ascii_of_string s).
Proof.
  unfold Without. rewrite !Forall_forall. intros Hq Hb c Hc.
  split; [apply Hq | apply Hb]; exact Hc.
Qed.

Ltac quote_free :=
  first [ apply numberToString_no_quote
        | vm_compute; repeat constructor ].

Ltac read_literal :=
  first [ apply readLiteral_escaped
        | apply readLiteral_escapeQuotes; assumption
        | apply readLiteral_raw;
          first [ apply Without_both; assumption
                | vm_compute; repeat constructor ] ].

Ltac scan_script :=
  repeat first
    [ erewrite literalsAux_literal by read_literal
    | rewrite literalsAux_end by quote_free
    | rewrite literalsAux_skip by quote_free ];
  reflexivity.

(** X11: the script of [searchReplaceInAction] holds the search text and
    the replacement text as string literals that denote them, whatever
    characters the two texts hold; the macro identifier, which is not
    escaped, is denoted when it holds no double quote and no backslash. *)
Theorem searchReplaceScript_literals (macroIdentifier : string) (actionIndex : Z)
    (searchText replaceText : string) :
  Without dquote macroIdentifier -> Without backslash macroIdentifier ->
  literals (searchReplaceScript macroIdentifier actionIndex
              searchText replaceText)
  = Some ["Keyboard Maestro"; macroIdentifier; macroIdentifier;
          "Keyboard Maestro Engine"; searchText; replaceText].
Proof.
  intros Hq Hb. unfold literals. apply (literalsAux_mono 7).
  { unfold searchReplaceScript. rewrite length_app_str. simpl. lia. }
  unfold searchReplaceScript, tellEditor, tellEngine, setTheMacro, macroRef,
    quoted.
  rewrite !app_assoc_str. scan_script.
Qed.

Lemma searchReplaceScript_literals_witness :
  literals (searchReplaceScript "Nightly" 2
              ("C:" +:+ BS +:+ "tmp") (DQ +:+ "x" +:+ BS))
  = Some ["Keyboard Maestro"; "Nightly"; "Nightly"; "Keyboard Maestro Engine";
          "C:" +:+ BS +:+ "tmp"; DQ +:+ "x" +:+ BS].
Proof.
  apply (searchReplaceScript_literals "Nightly" 2
           ("C:" +:+ BS +:+ "tmp") (DQ +:+ "x" +:+ BS));
    vm_compute; repeat constructor.
Defined.

(** ** What the operations ask of the host *)

Section HostFacts.

Context {Ext : Type} `{Runtime Ext}.

Lemma ExecOnly_runAppleScript (script : string) :
  ExecOnly (runAppleScript script).
Proof.
  unfold runAppleScript. apply ExecOnly_tryCatch.
  - apply ExecOnly_bind; [apply ExecOnly_exec | intros; apply ExecOnly_ret].
  - intros; apply ExecOnly_throw.
Qed.

Ltac exec_only :=
  repeat first
    [ apply ExecOnly_runAppleScriptFile | apply ExecOnly_runAppleScript
    | apply ExecOnly_ret | apply ExecOnly_throw
    | match goal with
      | |- ExecOnly (if ?b then _ else _) => destruct b
      | |- ExecOnly (match ?x with Some _ => _ | None => _ end) => destruct x
      | |- forall _, _ => intro
      end
    | apply ExecOnly_tryCatch | apply ExecOnly_bind ].

(** X12: the operations that stage no payload ask the host for nothing but
    external processes: they read, write and delete no file. *)
Theorem script_operations_exec_only :
  ExecOnly listMacros /\
  ExecOnly listGroups /\
  (forall q, ExecOnly (searchMacros q)) /\
  (forall m, ExecOnly (listActions m)) /\
  (forall m, ExecOnly (getMacro m)) /\
  (forall m, ExecOnly (getMacroXml m)) /\
  (forall n g, ExecOnly (createMacro n None g)) /\
  (forall m n, ExecOnly (duplicateMacro m n)) /\
  (forall m, ExecOnly (deleteMacro m)) /\
  (forall m b, ExecOnly (setMacroEnabled m b)) /\
  (forall m p, ExecOnly (executeMacro m p)) /\
  (forall m g, ExecOnly (moveMacroToGroup m g)) /\
  (forall n, ExecOnly (createGroup n)) /\
  (forall g, ExecOnly (deleteGroup g)) /\
  (forall g b, ExecOnly (toggleGroup g b)) /\
  (forall m i, ExecOnly (getActionXml m i)) /\
  (forall m i, ExecOnly (deleteAction m i)) /\
  (forall m i s r, ExecOnly (searchReplaceInAction m i s r)) /\
  (forall m i j, ExecOnly (moveAction m i j)) /\
  (forall m i, ExecOnly (getTriggerXml m i)) /\
  (forall m i, ExecOnly (deleteTrigger m i)) /\
  (forall n, ExecOnly (getVariable n)) /\
  (forall n v, ExecOnly (setVariable n v)) /\
  (forall n, ExecOnly (deleteVariable n)).
Proof.
  repeat split; intros;
    unfold listMacros, listGroups, searchMacros, listActions, getMacro,
      getMacroXml, createMacro, duplicateMacro, deleteMacro, setMacroEnabled,
      executeMacro, moveMacroToGroup, createGroup, deleteGroup, toggleGroup,
      getActionXml, deleteAction, searchReplaceInAction, moveAction,
      getTriggerXml, deleteTrigger, getVariable, setVariable, deleteVariable;
    exec_only.
Qed.

Lemma probeVariable_spec (foundVars : list string) (varName : string)
    (w : World Ext) :
  exists found w',
    probeVariable foundVars varName w = (Ok found, w') /\
    (found = foundVars \/ found = foundVars ++ [varName]) /\
    trace w'
    = trace w ++ [EvExec (osascriptCommand (getVariableScript varName))].
Proof.
  unfold probeVariable, getVariable, runAppleScript, tryCatch, bind, exec,
    ret, throw, emit.
  destruct (execAsync _ (ext w)) as [[out|e] x]; simpl.
  - destruct (isEmpty (trim (fst out))); eexists _, _;
      (split; [reflexivity|]); split; auto.
  - eexists _, _. split; [reflexivity|]. split; auto.
Qed.

Lemma probeVariables_spec (names : list string) :
  forall (foundVars : list string) (w : World Ext),
  exists extra w',
    probeVariables foundVars names w = (Ok (foundVars ++ extra), w') /\
    sublist extra names /\
    trace w'
    = trace w
      ++ ((fun n => EvExec (osascriptCommand (getVariableScript n))) <$> names).
Proof.
  induction names as [|n names IH]; intros foundVars w.
  - exists [], w. simpl. rewrite !app_nil_r. repeat split. constructor.
  - simpl. unfold bind.
    destruct (probeVariable_spec foundVars n w) as (f1 & w1 & -> & Hf & Ht).
    destruct (IH f1 w1) as (extra & w2 & -> & Hsub & Ht2).
    destruct Hf as [-> | ->].
    + exists extra, w2. split; [reflexivity|].
      split; [apply sublist_cons, Hsub|].
      rewrite Ht2, Ht, <- app_assoc. reflexivity.
    + exists (n :: extra), w2. rewrite <- app_assoc.
      split; [reflexivity|]. split; [apply sublist_skip, Hsub|].
      rewrite Ht2, Ht, <- app_assoc. reflexivity.
Qed.

(** X13: [searchVariables] never throws.  It asks for the value of the
    prefix and of the prefix followed by 1, 2 and 3, one process each and
    in that order, and returns some of these four names in that order. *)
Theorem searchVariables_total (prefix : string) (w : World Ext) :
  exists found w',
    searchVariables prefix w = (Ok found, w') /\
    sublist found [prefix; prefix +:+ "1"; prefix +:+ "2"; prefix +:+ "3"] /\
    trace w'
    = trace w
      ++ [EvExec (osascriptCommand (getVariableScript prefix));
          EvExec (osascriptCommand (getVariableScript (prefix +:+ "1")));
          EvExec (osascriptCommand (getVariableScript (prefix +:+ "2")));
          EvExec (osascriptCommand (getVariableScript (prefix +:+ "3")))].
Proof.
  destruct (probeVariables_spec (testVars prefix) [] w)
    as (extra & w' & Hp & Hsub & Ht).
  exists extra, w'. unfold searchVariables, tryCatch. rewrite Hp.
  repeat split; assumption.
Qed.

(** X14: reading a log, or summing up its errors, asks the host for the
    log file once and for nothing else: no process is started and no file
    is written. *)
Theorem log_readers_read_only (w : World Ext) :
  (forall options,
     trace (snd (readEngineLog options w))
     = trace w ++ [EvRead ENGINE_LOG_PATH]) /\
  (forall lines,
     trace (snd (readEditorLog lines w))
     = trace w ++ [EvRead EDITOR_LOG_PATH]) /\
  (forall hours,
     trace (snd (getErrorSummary hours w))
     = trace w ++ [EvRead ENGINE_LOG_PATH]).
Proof.
  repeat split; intros;
    unfold getErrorSummary, readEngineLog, readEditorLog, tryCatch, bind,
      readFileUtf8, now, ret, throw, emit; simpl.
  - destruct (readFile ENGINE_LOG_PATH (ext w)) as [[c|e] x]; reflexivity.
  - destruct (readFile EDITOR_LOG_PATH (ext w)) as [[c|e] x]; reflexivity.
  - destruct (readFile ENGINE_LOG_PATH (ext w)) as [[c|e] x]; simpl;
      [|reflexivity].
    destruct (summarize _ _) as [r p]. reflexivity.
Qed.

(** X15: when the count query that [addAction] runs first fails, the
    script that adds the action is never run: the operation writes the
    payload file, runs that one query, deletes the file and throws. *)
Theorem addAction_count_fails (macroIdentifier actionXml tempPath e : string)
    (w w1 : World Ext) (x : Ext) :
  writeTempXml actionXml w = (Ok tempPath, w1) ->
  execAsync (osascriptHeredoc (countActionsScript macroIdentifier)) (ext w1)
  = (Throw e, x) ->
  exists w',
    addAction macroIdentifier actionXml w
    = (Throw ("Failed to add action: AppleScript error: " +:+ e), w') /\
    trace w'
    = trace w
      ++ [EvWrite tempPath (wrapXmlInPlist actionXml);
          EvExec (osascriptHeredoc (countActionsScript macroIdentifier));
          EvUnlink tempPath].
Proof.
  intros Hw He. pose proof (writeTempXml_trace _ _ _ _ Hw) as Ht.
  unfold addAction, bind. rewrite Hw.
  unfold tryFinally, tryCatch, addActionAttempt, bind, runAppleScriptFile,
    tryCatch, bind, exec. rewrite He. unfold throw.
  rewrite cleanupTempFile_ok. eexists. split; [reflexivity|].
  simpl. rewrite Ht, <- !app_assoc. reflexivity.
Qed.

(** X16: [createMacro] is not undone when its initial action cannot be
    added: the macro has been made, the error of [addAction] is thrown
    anew, and nothing is run after [addAction]. *)
Theorem createMacro_action_fails (name xml macroId e : string)
    (groupName : option string) (w w1 w2 : World Ext) :
  xml <> EmptyString ->
  runAppleScriptFile (createMacroScript name groupName) w = (Ok macroId, w1) ->
  addAction macroId xml w1 = (Throw e, w2) ->
  createMacro name (Some xml) groupName w
  = (Throw ("Failed to create macro: " +:+ e), w2).
Proof.
  intros Hx Hc Ha. apply isEmpty_false in Hx.
  unfold createMacro, tryCatch, bind. rewrite Hc, Hx.
  unfold bind. rewrite Ha. reflexivity.
Qed.

End HostFacts.

Lemma addAction_count_fails_witness :
  exists w',
    addAction "Nightly" "<dict/>" (mkWorld (mkFaulty 7) [] false)
    = (Throw ("Failed to add action: AppleScript error: " +:+ "Command failed"),
       w') /\
    trace w'
    = trace (mkWorld (mkFaulty 7) [] false)
      ++ [EvWrite "/tmp/km_action_7.plist" (wrapXmlInPlist "<dict/>");
          EvExec (osascriptHeredoc (countActionsScript "Nightly"));
          EvUnlink "/tmp/km_action_7.plist"].
Proof.
  apply (addAction_count_fails "Nightly" "<dict/>" "/tmp/km_action_7.plist"
           "Command failed" (mkWorld (mkFaulty 7) [] false)
           (snd (writeTempXml "<dict/>" (mkWorld (mkFaulty 7) [] false)))
           (mkFaulty 7)).
  - vm_compute. reflexivity.
  - reflexivity.
Defined.

Lemma createMacro_action_fails_witness :
  createMacro "Nightly" (Some "<dict/>") None (simWorld 7 ∅ "3F2A")
  = (Throw ("Failed to create macro: "
            +:+ "Failed to add action: "
            +:+ "Action was not created - XML may be invalid or malformed"),
     snd (addAction "3F2A" "<dict/>"
            (snd (runAppleScriptFile (createMacroScript "Nightly" None)
                    (simWorld 7 ∅ "3F2A"))))).
Proof.
  apply (createMacro_action_fails "Nightly" "<dict/>" "3F2A"
           ("Failed to add action: "
            +:+ "Action was not created - XML may be invalid or malformed")
           None (simWorld 7 ∅ "3F2A")
           (snd (runAppleScriptFile (createMacroScript "Nightly" None)
                   (simWorld 7 ∅ "3F2A")))).
  - discriminate.
  - vm_compute. reflexivity.
  - vm_compute. reflexivity.
Defined.

(** ** Reading the logs *)







Lemma sliceFrom_all {A} (start : Z) (xs : list A) :
  start = 0 \/ start <= - Z.of_nat (length xs) -> sliceFrom start xs = xs.
Proof.
  intros Hs. unfold sliceFrom.
  destruct (start <? 0) eqn:Hneg.
  - replace (Z.to_nat (Z.max (Z.of_nat (length xs) + start) 0))
      with 0%nat by lia. reflexivity.
  - replace (Z.to_nat (Z.min start (Z.of_nat (length xs))))
      with 0%nat by lia. reflexivity.
Qed.

(** X18: a number of lines of zero is no limit.  For zero, [readEditorLog]
    and [readEngineLog] give what they give for a number that is at least
    the number of lines of the file: the entries of the whole file. *)
Theorem zero_lines_is_no_limit (dateParse : string -> option Z)
    (toLowerCase : string -> string)
    (content : string) (n : Z) (errorsOnly : option bool)
    (since : option (option Z)) (macroFilter : option string) :
  Z.of_nat (length (split NL content)) <= n ->
  editorEntries dateParse (Some 0) content
  = editorEntries dateParse (Some n) content /\
  engineEntries dateParse toLowerCase
    (mkReadOptions (Some 0) errorsOnly since macroFilter) content
  = engineEntries dateParse toLowerCase
      (mkReadOptions (Some n) errorsOnly since macroFilter) content.
Proof.
  intros Hn. unfold editorEntries, engineEntries. simpl.
  set (allLines := filter _ (split NL content)).
  assert (Hlen : (length allLines <= length (split NL content))%nat)
    by apply length_filter.
  rewrite (sliceFrom_all 0) by (left; reflexivity).
  rewrite (sliceFrom_all (- n)) by lia.
  split; reflexivity.
Qed.

Lemma zero_lines_is_no_limit_witness :
  editorEntries utcDateValue (Some 0) exampleLog
  = editorEntries utcDateValue (Some 6) exampleLog /\
  engineEntries utcDateValue lowerAsciiString
    (mkReadOptions (Some 0) (Some true) None None) exampleLog
  = engineEntries utcDateValue lowerAsciiString
      (mkReadOptions (Some 6) (Some true) None None) exampleLog.
Proof.
  apply (zero_lines_is_no_limit utcDateValue lowerAsciiString exampleLog 6
           (Some true) None None).
  vm_compute. discriminate.
Defined.

(** ** The names read from a log message *)

Lemma search_sound (r : regex) (s : string) (caps : list string) :
  search r s = Some caps ->
  exists pre mid post, s = pre +:+ mid +:+ post /\ captured r mid caps.
Proof.
  induction s as [|c s IH]; cbn [search];
    destruct (matchAt r _ [] (fun _ caps => Some caps)) as [caps'|] eqn:Hm.
  - intros [= <-].
    apply matchAt_sound in Hm as (s1 & s2 & cs & Hs & Hc & [= <-]).
    exists EmptyString, s1, s2. split; [exact Hs | exact Hc].
  - discriminate.
  - intros [= <-].
    apply matchAt_sound in Hm as (s1 & s2 & cs & Hs & Hc & [= <-]).
    exists EmptyString, s1, s2. split; [exact Hs | exact Hc].
  - intros Hr. destruct (IH Hr) as (pre & mid & post & -> & Hc).
    exists (String c pre), mid, post. split; [reflexivity | exact Hc].
Qed.

(** A match of a pattern made of a fixed text, a captured run of
    characters and a closing text. *)
Lemma capture1_between (open_ close : string) (p : ascii -> bool)
    (msg n : string) :
  capture1 (search (Seq (lit open_) (Seq (Grp (Plus p)) (lit close))) msg)
  = Some n ->
  n <> EmptyString /\
  Forall (fun c => p c = true) (list_ascii_of_string n) /\
  exists pre post, msg = pre +:+ open_ +:+ n +:+ close +:+ post.
Proof.
  destruct (search _ msg) as [caps|] eqn:Hs; [|discriminate].
  apply search_sound in Hs as (pre & mid & post & -> & Hc).
  apply captured_seq_inv in Hc as (s1 & s2 & c1 & c2 & -> & -> & H1 & H2).
  apply captured_seq_inv in H2 as (s3 & s4 & c3 & c4 & -> & -> & H3 & H4).
  apply captured_grp_inv in H3 as (c5 & -> & H3).
  assert (Hg1 : groupFree (lit open_) = true)
    by (clear; induction open_; simpl; auto).
  assert (Hg4 : groupFree (lit close) = true)
    by (clear; induction close; simpl; auto).
  rewrite (captured_groupFree _ _ _ Hg1 H1).
  rewrite (captured_groupFree (Plus p) _ _ eq_refl H3).
  rewrite (captured_groupFree _ _ _ Hg4 H4).
  simpl. intros [= ->].
  apply captured_lang, lang_lit in H1 as ->.
  apply captured_lang, lang_lit in H4 as ->.
  apply captured_lang, lang_plus_iff in H3 as [Hne Hall].
  split; [exact Hne|]. split; [exact Hall|].
  exists pre, post. rewrite !app_assoc_str. reflexivity.
Qed.

(** X19: the macro name of an entry is a non-empty text without a double
    quote that stands in the message between double quotes, after the word
    Macro or after the words Execute macro; the action id is a non-empty
    run of digits that stands in the message after the word Action. *)
Theorem parseLogLine_names (dateParse : string -> option Z)
    (line : string) (e : LogEntry) :
  parseLogLine dateParse line = Some e ->
  (forall n, macroName e = Some n ->
     n <> EmptyString /\ Without dquote n /\
     exists pre post,
       message e = pre +:+ "Macro " +:+ quoted n +:+ post \/
       message e = pre +:+ "Execute macro " +:+ quoted n +:+ post) /\
  (forall a, actionId e = Some a ->
     a <> EmptyString /\
     Forall (fun c => isDigit c = true) (list_ascii_of_string a) /\
     exists pre post, message e = pre +:+ "Action " +:+ a +:+ post).
Proof.
  unfold parseLogLine.
  destruct (matchWhole lineRe line) as [m|]; [|discriminate].
  intros [= <-]. simpl. split.
  - intros n Hn.
    assert (Hcase :
      capture1 (search macroRe (default EmptyString (m !! 1%nat))) = Some n \/
      capture1 (search executeMacroRe (default EmptyString (m !! 1%nat)))
      = Some n).
    { destruct (capture1 (search macroRe _)); [left | right]; exact Hn. }
    assert (Hq : forall s, Forall (fun c => notQuote c = true)
                             (list_ascii_of_string s) -> Without dquote s).
    { intros s Hs. unfold Without. eapply Forall_impl; [exact Hs|].
      intros c Hc. unfold notQuote in Hc. apply negb_true_iff in Hc.
      exact Hc. }
    destruct Hcase as [Hc | Hc];
      apply capture1_between in Hc as (Hne & Hall & pre & post & Hmsg);
      (split; [exact Hne|]); (split; [apply Hq, Hall|]);
      exists pre, post; [left | right];
      rewrite Hmsg; unfold quoted; rewrite !app_assoc_str; reflexivity.
  - intros a Ha. unfold actionRe in Ha.
    destruct (search _ _) as [caps|] eqn:Hs; [|discriminate].
    apply search_sound in Hs as (pre & mid & post & Hmsg & Hc).
    apply captured_seq_inv in Hc as (s1 & s2 & c1 & c2 & -> & -> & H1 & H2).
    apply captured_grp_inv in H2 as (c5 & -> & H2).
    rewrite (captured_groupFree (lit "Action ") _ _ eq_refl H1) in Ha.
    rewrite (captured_groupFree (Plus isDigit) _ _ eq_refl H2) in Ha.
    simpl in Ha. injection Ha as ->.
    apply captured_lang, lang_lit in H1 as ->.
    apply captured_lang, lang_plus_iff in H2 as [Hne Hall].
    split; [exact Hne|]. split; [exact Hall|].
    exists pre, post. rewrite Hmsg, !app_assoc_str. reflexivity.
Qed.

Lemma parseLogLine_names_witness :
  exists e,
    parseLogLine utcDateValue
      ("2025-01-02 10:00:00 Macro " +:+ quoted "A" +:+ " failed in Action 12")
    = Some e /\
    (forall n, macroName e = Some n ->
       n <> EmptyString /\ Without dquote n /\
       exists pre post,
         message e = pre +:+ "Macro " +:+ quoted n +:+ post \/
         message e = pre +:+ "Execute macro " +:+ quoted n +:+ post) /\
    macroName e = Some "A" /\ actionId e = Some "12".
Proof.
  eexists (mkLogEntry "2025-01-02 10:00:00" (Some 1735812000000)
             ("Macro " +:+ quoted "A" +:+ " failed in Action 12") true
             (Some "A") (Some "12")).
  assert (Hp : parseLogLine utcDateValue
      ("2025-01-02 10:00:00 Macro " +:+ quoted "A" +:+ " failed in Action 12")
    = Some (mkLogEntry "2025-01-02 10:00:00" (Some 1735812000000)
             ("Macro " +:+ quoted "A" +:+ " failed in Action 12") true
             (Some "A") (Some "12"))) by (vm_compute; reflexivity).
  split; [exact Hp|]. split; [|split; reflexivity].
  exact (proj1 (parseLogLine_names utcDateValue _ _ Hp)).
Defined.

(** ** The error summary: last error of a macro *)

(** X20: in the summary, the record of a macro holds the message and the
    timestamp of the last of its entries in the log, and the recent errors
    are the last ten entries in the order of the log. *)
Theorem summarize_last_error (entries older newer : list LogEntry)
    (e : LogEntry) (p0 p : bool) (s : ErrorSummary) :
  summarize p0 entries = (Ok s, p) ->
  entries = older ++ e :: newer ->
  ~ Inherited (entryKey e) ->
  Forall (fun e' => entryKey e' <> entryKey e) newer ->
  (exists st,
     errorsByMacro s !! entryKey e = Some st /\
     lastError st = message e /\ lastTime st = timestamp e) /\
  (length (recentErrors s) <= 10)%nat /\
  exists front, entries = front ++ recentErrors s.
Proof.
  intros Hs -> Hk Hnew. unfold summarize in Hs.
  destruct (tallyAll _ _) as [t [msg|]] eqn:Ht; [discriminate|].
  injection Hs as <- _. simpl. split.
  - rewrite (tallyAll_lookup _ _ _ _ Hk Ht).
    rewrite filter_app, filter_cons_True by reflexivity.
    assert (Hnil : filter (fun e0 => entryKey e0 = entryKey e) newer = []).
    { clear -Hnew. induction Hnew as [|x l Hx _ IH]; [reflexivity|].
      rewrite filter_cons_False by exact Hx. exact IH. }
    rewrite Hnil, last_snoc. eexists. split; [reflexivity|].
    split; reflexivity.
  - pose proof (sliceFrom_last 10 (older ++ e :: newer) ltac:(lia))
      as [Hlen [front Hfront]].
    change (- (10)) with (-10) in Hlen, Hfront.
    split; [lia|]. exists front. exact Hfront.
Qed.

Lemma summarize_last_error_witness :
  exists st,
    errorsByMacro
      (mkErrorSummary 2
         {[ "A" := mkErrorStat 2 "Macro A error" "2025-01-02 10:15:00" ]}
         [mkLogEntry "2025-01-02 10:00:00" None "Macro A failed" true
            (Some "A") None;
          mkLogEntry "2025-01-02 10:15:00" None "Macro A error" true
            (Some "A") None])
      !! "A" = Some st /\
    lastError st = "Macro A error" /\ lastTime st = "2025-01-02 10:15:00".
Proof.
  apply (summarize_last_error
           [mkLogEntry "2025-01-02 10:00:00" None "Macro A failed" true
              (Some "A") None;
            mkLogEntry "2025-01-02 10:15:00" None "Macro A error" true
              (Some "A") None]
           [mkLogEntry "2025-01-02 10:00:00" None "Macro A failed" true
              (Some "A") None]
           []
           (mkLogEntry "2025-01-02 10:15:00" None "Macro A error" true
              (Some "A") None)
           false false).
  - vm_compute. reflexivity.
  - reflexivity.
  - intros [Hin | Heq]; [|discriminate].
    apply list_elem_of_In in Hin. simpl in Hin.
    repeat (destruct Hin as [Hin | Hin]; [discriminate|]). exact Hin.
  - constructor.
Defined.

(** ** Moving an action *)

(** *** The reader of the engine reads the script back *)

Lemma expect_app (tok s : string) : expect tok (tok +:+ s) = Some s.
Proof.
  unfold expect. rewrite startsWith_app_self, dropStr_length_app. reflexivity.
Qed.

Lemma skipSpaces_indent (depth : nat) (c : ascii) (s : string) :
  Ascii.eqb c " " = false ->
  skipSpaces (indent depth +:+ String c s) = String c s.
Proof.
  intros Hc. induction depth as [|depth IH]; simpl.
  - rewrite Hc. reflexivity.
  - exact IH.
Qed.

Lemma string_of_uint_digits (d : Decimal.uint) :
  Forall (fun c => isDigit c = true)
    (list_ascii_of_string (NilEmpty.string_of_uint d)).
Proof. induction d; simpl; constructor; try reflexivity; exact IHd. Qed.

Lemma spanDigits_app (digits rest : string) :
  Forall (fun c => isDigit c = true) (list_ascii_of_string digits) ->
  (forall c r, rest = String c r -> isDigit c = false) ->
  spanDigits (digits +:+ rest) = (digits, rest).
Proof.
  intros Hd Hr. induction digits as [|c digits IH].
  - rewrite app_nil_l_str. destruct rest as [|c r]; [reflexivity|].
    simpl. rewrite (Hr c r eq_refl). reflexivity.
  - simpl in Hd. apply Forall_cons in Hd as [Hc Hd].
    rewrite app_cons_str. simpl. rewrite Hc, (IH Hd). reflexivity.
Qed.

(** A position that is not negative is read back from its digits. *)
Lemma readNumber_numberToString (n : Z) (rest : string) :
  0 <= n ->
  (forall c r, rest = String c r -> isDigit c = false) ->
  readNumber (numberToString n +:+ rest) = Some (n, rest).
Proof.
  intros Hn Hr. unfold readNumber, numberToString.
  assert (Hu : exists u, Z.to_int n = Decimal.Pos u /\ u <> Decimal.Nil).
  { destruct n as [|p|p]; [| |lia].
    - eexists. split; [reflexivity | discriminate].
    - eexists. split; [reflexivity|].
      apply DecimalPos.Unsigned.to_uint_nonnil. }
  destruct Hu as (u & Hu & Hnil).
  pose proof (DecimalZ.of_to n) as Hof. rewrite Hu in Hof |- *. simpl in Hof.
  cbn [NilEmpty.string_of_int].
  rewrite (spanDigits_app _ rest (string_of_uint_digits u) Hr).
  destruct (NilEmpty.string_of_uint u) eqn:Hs.
  - exfalso. apply Hnil.
    pose proof (NilEmpty.usu u) as Husu. rewrite Hs in Husu.
    simpl in Husu. congruence.
  - cbn [isEmpty]. rewrite <- Hs, NilEmpty.usu, Hof. reflexivity.
Qed.

Lemma skipSpaces_line (depth : nat) (c : ascii) (tok s : string) :
  Ascii.eqb c " " = false ->
  skipSpaces (indent depth +:+ String c tok +:+ s) = String c tok +:+ s.
Proof. intros Hc. rewrite app_cons_str. apply skipSpaces_indent, Hc. Qed.

Lemma readLocation_printLocation (l : Location) (rest : string) :
  match l with AfterLastAction => True | BeforeAction j => 0 <= j end ->
  (forall c r, rest = String c r -> isDigit c = false) ->
  readLocation (printLocation l +:+ rest) = Some (l, rest).
Proof.
  intros Hl Hr. destruct l as [|j]; unfold readLocation, printLocation.
  - rewrite expect_app. reflexivity.
  - rewrite app_assoc_str.
    change (expect "after last action" ("before action " +:+ ?s))
      with (@None string).
    rewrite expect_app. cbn [mbind option_bind].
    rewrite (readNumber_numberToString j rest Hl Hr). reflexivity.
Qed.

Lemma readCommand_S (fuel : nat) (s : string) :
  readCommand (S fuel) s
  = match expect "move action " (skipSpaces s) with
    | Some t1 =>
        '(i, t2) ← readNumber t1;
        t3 ← expect " to " t2;
        '(l, t4) ← readLocation t3;
        t5 ← expect NL t4;
        Some (MoveAction i l, t5)
    | None =>
        t1 ← expect "if " (skipSpaces s);
        '(n, t2) ← readNumber t1;
        t3 ← expect (" > count of actions then" +:+ NL) t2;
        '(c1, t4) ← readCommand fuel t3;
        t5 ← expect ("else" +:+ NL) (skipSpaces t4);
        '(c2, t6) ← readCommand fuel t5;
        t7 ← expect ("end if" +:+ NL) (skipSpaces t6);
        Some (IfGreaterThanCount n c1 c2, t7)
    end.
Proof. reflexivity. Qed.

Lemma readCommand_move (fuel depth : nat) (i : Z) (l : Location)
    (rest : string) :
  0 <= i ->
  match l with AfterLastAction => True | BeforeAction j => 0 <= j end ->
  readCommand (S fuel) (printCommand depth (MoveAction i l) +:+ rest)
  = Some (MoveAction i l, rest).
Proof.
  intros Hi Hl. rewrite readCommand_S. cbn [printCommand].
  rewrite !app_assoc_str.
  rewrite (skipSpaces_line depth "m" "ove action "); [|reflexivity].
  rewrite expect_app.
  rewrite (readNumber_numberToString i _ Hi);
    [|intros c r [= <- _]; reflexivity].
  cbn [mbind option_bind]. rewrite expect_app. cbn [mbind option_bind].
  rewrite (readLocation_printLocation l _ Hl);
    [|intros c r [= <- _]; reflexivity].
  cbn [mbind option_bind]. rewrite expect_app. reflexivity.
Qed.

Lemma readCommand_if (fuel depth : nat) (n : Z) (c1 c2 : Command)
    (rest : string) :
  0 <= n ->
  (forall r, readCommand fuel (printCommand (depth + 2) c1 +:+ r)
             = Some (c1, r)) ->
  (forall r, readCommand fuel (printCommand (depth + 2) c2 +:+ r)
             = Some (c2, r)) ->
  readCommand (S fuel)
    (printCommand depth (IfGreaterThanCount n c1 c2) +:+ rest)
  = Some (IfGreaterThanCount n c1 c2, rest).
Proof.
  intros Hn H1 H2. rewrite readCommand_S.
  change (printCommand depth (IfGreaterThanCount n c1 c2))
    with (indent depth +:+ "if " +:+ numberToString n
          +:+ " > count of actions then" +:+ NL
          +:+ printCommand (depth + 2) c1
          +:+ indent depth +:+ "else" +:+ NL
          +:+ printCommand (depth + 2) c2
          +:+ indent depth +:+ "end if" +:+ NL).
  rewrite !app_assoc_str.
  rewrite (skipSpaces_line depth "i" "f "); [|reflexivity].
  change (expect "move action " ("if " +:+ ?s)) with (@None string).
  rewrite expect_app. cbn [mbind option_bind].
  rewrite (readNumber_numberToString n _ Hn);
    [|intros c r [= <- _]; reflexivity].
  cbn [mbind option_bind].
  rewrite <- (app_assoc_str " > count of actions then" NL).
  rewrite expect_app. cbn [mbind option_bind].
  rewrite H1. cbn [mbind option_bind].
  rewrite (skipSpaces_line depth "e" "lse"); [|reflexivity].
  rewrite <- (app_assoc_str "else" NL).
  rewrite expect_app. cbn [mbind option_bind].
  rewrite H2. cbn [mbind option_bind].
  rewrite (skipSpaces_line depth "e" "nd if"); [|reflexivity].
  rewrite <- (app_assoc_str "end if" NL).
  rewrite expect_app. reflexivity.
Qed.

(** The command of the move script is read back, whatever the depth at
    which it is written. *)
Lemma readCommand_moveActionCommand (fuel depth : nat)
    (actionIndex newIndex : Z) (rest : string) :
  0 <= actionIndex -> 0 <= newIndex ->
  readCommand (S (S fuel))
    (printCommand depth (moveActionCommand actionIndex newIndex) +:+ rest)
  = Some (moveActionCommand actionIndex newIndex, rest).
Proof.
  intros Hi Hn. unfold moveActionCommand.
  apply readCommand_if; [exact Hn | |];
    intros r; apply readCommand_move;
    [exact Hi | exact I | exact Hi | exact Hn].
Qed.

Lemma moveActionScript_shape (macroIdentifier : string)
    (actionIndex newIndex : Z) :
  moveActionScript macroIdentifier actionIndex newIndex
  = tellEditor
    +:+ ("  set theMacro to first macro whose name is " +:+ DQ)
    +:+ macroIdentifier +:+ DQ
    +:+ (" or id is " +:+ DQ) +:+ macroIdentifier +:+ DQ
    +:+ (NL +:+ "  tell theMacro" +:+ NL)
    +:+ printCommand 4 (moveActionCommand actionIndex newIndex)
    +:+ ("  end tell" +:+ NL +:+ "end tell").
Proof.
  unfold moveActionScript, moveActionCommand, setTheMacro, macroRef, quoted.
  simpl printCommand. unfold printLocation. rewrite !app_assoc_str.
  reflexivity.
Qed.

(** The script of [moveAction] is read back as the name and the id it
    interpolates and the command of its template, when the identifier
    holds neither a double quote nor a backslash. *)
Lemma readMoveScript_moveActionScript (macroIdentifier : string)
    (actionIndex newIndex : Z) :
  Without dquote macroIdentifier -> Without backslash macroIdentifier ->
  0 <= actionIndex -> 0 <= newIndex ->
  readMoveScript (moveActionScript macroIdentifier actionIndex newIndex)
  = Some (macroIdentifier, macroIdentifier,
          moveActionCommand actionIndex newIndex).
Proof.
  intros Hq Hb Hi Hn. unfold readMoveScript.
  assert (Hlen : exists k,
             String.length
               (moveActionScript macroIdentifier actionIndex newIndex)
             = S (S k)).
  { rewrite moveActionScript_shape, length_app_str.
    assert (H2 : (2 <= String.length tellEditor)%nat)
      by (apply Nat.leb_le; reflexivity).
    destruct (String.length tellEditor) as [|[|a]]; [lia | lia |].
    eexists. reflexivity. }
  destruct Hlen as [k ->]. rewrite moveActionScript_shape.
  rewrite expect_app. cbn [mbind option_bind].
  rewrite expect_app. cbn [mbind option_bind].
  rewrite (readLiteral_raw macroIdentifier _ (Without_both _ Hq Hb)).
  cbn [mbind option_bind]. rewrite expect_app. cbn [mbind option_bind].
  rewrite (readLiteral_raw macroIdentifier _ (Without_both _ Hq Hb)).
  cbn [mbind option_bind]. rewrite expect_app. cbn [mbind option_bind].
  rewrite (readCommand_moveActionCommand k 4 _ _ _ Hi Hn).
  cbn [mbind option_bind]. rewrite <- (app_nil_r_str ("  end tell" +:+ _)).
  rewrite expect_app. reflexivity.
Qed.

(** *** The lines of the script *)

Lemma split_line (p : string) : Without LF p -> split NL p = [p].
Proof.
  intros Hp. unfold split, NL, str1.
  rewrite (splitAux_last LF EmptyString p EmptyString Hp).
  rewrite revStr_involutive. reflexivity.
Qed.

Lemma Forall_split_lines (P : string -> Prop) (a b : string) :
  Forall P (split NL a) -> Forall P (split NL b) ->
  Forall P (split NL (a +:+ NL +:+ b)).
Proof.
  intros Ha Hb. rewrite split_lines. apply Forall_app. split; assumption.
Qed.

Lemma numberToString_Without (c : ascii) (n : Z) :
  0 <= n -> isDigit c = false -> Without c (numberToString n).
Proof.
  intros Hn Hc. unfold numberToString.
  destruct n as [|p|p]; [| |lia]; unfold Without;
    cbn [Z.to_int NilEmpty.string_of_int];
    (eapply Forall_impl; [apply string_of_uint_digits|]);
    intros a Ha; destruct (Ascii.eqb_spec a c) as [->|_];
    [congruence | reflexivity | congruence | reflexivity].
Qed.

Lemma line_head_differs (c d : ascii) (s t u : string) :
  c <> d -> String c s +:+ t <> String d u.
Proof. intros Hcd [= Heq _]. exact (Hcd Heq). Qed.

Lemma moveActionScript_lines (macroIdentifier : string)
    (actionIndex newIndex : Z) :
  Without LF macroIdentifier -> 0 <= actionIndex -> 0 <= newIndex ->
  Forall (fun l => l <> "APPLESCRIPT")
    (split NL (moveActionScript macroIdentifier actionIndex newIndex)).
Proof.
  intros Hid Hi Hn.
  pose proof (numberToString_Without LF actionIndex Hi eq_refl) as Wi.
  pose proof (numberToString_Without LF newIndex Hn eq_refl) as Wn.
  replace (moveActionScript macroIdentifier actionIndex newIndex)
    with (EmptyString
          +:+ NL +:+ ("tell application " +:+ quoted "Keyboard Maestro")
          +:+ NL +:+ ("  set theMacro to first macro whose name is "
                      +:+ quoted macroIdentifier +:+ " or id is "
                      +:+ quoted macroIdentifier)
          +:+ NL +:+ "  tell theMacro"
          +:+ NL +:+ ("    if " +:+ numberToString newIndex
                      +:+ " > count of actions then")
          +:+ NL +:+ ("      move action " +:+ numberToString actionIndex
                      +:+ " to after last action")
          +:+ NL +:+ "    else"
          +:+ NL +:+ ("      move action " +:+ numberToString actionIndex
                      +:+ " to before action " +:+ numberToString newIndex)
          +:+ NL +:+ "    end if"
          +:+ NL +:+ "  end tell"
          +:+ NL +:+ "end tell").
  - repeat apply Forall_split_lines;
      (rewrite split_line;
       [constructor; [|constructor];
        first [discriminate | apply line_head_differs; discriminate]
       |unfold quoted;
        repeat first [apply Without_app; split | assumption
                     | solve [repeat constructor]]]).
  - unfold moveActionScript, tellEditor, setTheMacro, macroRef, quoted.
    rewrite !app_assoc_str. reflexivity.
Qed.

(** *** The engine runs the script *)

Lemma tellFirst_found {A : Type} (n i : string)
    (f : list A -> Result (list A)) (before after : list (Macro A))
    (m : Macro A) :
  Forall (fun m' => refersTo n i m' = false) before ->
  refersTo n i m = true ->
  tellFirst n i f (before ++ m :: after)
  = match f (macroActions m) with
    | Ok actions =>
        Ok (before ++ mkMacro (macroTitle m) (macroUid m) actions :: after)
    | Throw e => Throw e
    end.
Proof.
  intros Hb Hm. induction Hb as [|m' before Hm' _ IH]; simpl.
  - rewrite Hm. reflexivity.
  - rewrite Hm', IH. destruct (f (macroActions m)); reflexivity.
Qed.

(** What the host with the engine does with the command of [moveAction]:
    it runs the command of the template on the first macro that the
    identifier names. *)
Lemma engineExec_moveActionScript {A : Type} (macroIdentifier : string)
    (actionIndex newIndex : Z) (before after : list (Macro A))
    (m : Macro A) (x : Engine A) :
  Without dquote macroIdentifier -> Without backslash macroIdentifier ->
  Without LF macroIdentifier ->
  0 <= actionIndex -> 0 <= newIndex ->
  engineMacros x = before ++ m :: after ->
  Forall (fun m' => refersTo macroIdentifier macroIdentifier m' = false)
    before ->
  refersTo macroIdentifier macroIdentifier m = true ->
  engineExec
    (osascriptHeredoc (moveActionScript macroIdentifier actionIndex newIndex))
    x
  = match runCommand (moveActionCommand actionIndex newIndex)
            (macroActions m) with
    | Ok actions =>
        (Ok (EmptyString, EmptyString),
         mkEngine
           (before ++ mkMacro (macroTitle m) (macroUid m) actions :: after))
    | Throw e => (Throw ("Command failed: " +:+ e), x)
    end.
Proof.
  intros Hq Hb Hl Hi Hn Hx Hbefore Hm. unfold engineExec.
  rewrite (hereDocument_osascriptHeredoc _
             (moveActionScript_lines _ _ _ Hl Hi Hn)).
  rewrite String.eqb_refl, join_split_lines. unfold runMoveScript.
  rewrite (readMoveScript_moveActionScript _ _ _ Hq Hb Hi Hn), Hx.
  rewrite (tellFirst_found _ _ _ before after m Hbefore Hm).
  destruct (runCommand _ (macroActions m)); reflexivity.
Qed.

(** *** The command of the template, on the actions of a macro *)

Lemma actionAt_Some {A : Type} (actions : list A) (index : Z) (a : A) :
  actionAt actions index = Some a ->
  1 <= index <= Z.of_nat (length actions) /\
  actions !! Z.to_nat (index - 1) = Some a.
Proof.
  unfold actionAt.
  destruct ((1 <=? index) && (index <=? Z.of_nat (length actions))) eqn:Hr;
    [|discriminate].
  apply andb_true_iff in Hr as [H1 H2]. intros Hl. split; [lia | exact Hl].
Qed.

Lemma removeAt_lookup_before {A : Type} (actions : list A) (i j : nat) :
  (j < i)%nat -> (i < length actions)%nat ->
  (take i actions ++ drop (S i) actions) !! j = actions !! j.
Proof.
  intros Hji Hi. rewrite lookup_app_l.
  - apply lookup_take_lt, Hji.
  - rewrite length_take. lia.
Qed.

Lemma removeAt_lookup_after {A : Type} (actions : list A) (i j : nat) :
  (i < j)%nat -> (i < length actions)%nat ->
  (take i actions ++ drop (S i) actions) !! (j - 1)%nat = actions !! j.
Proof.
  intros Hij Hi. rewrite lookup_app_r.
  - rewrite length_take, lookup_drop. f_equal. lia.
  - rewrite length_take. lia.
Qed.

(** Without the test on the count, a new index beyond the last action
    would be an error of the script. *)
Lemma moveTo_before_past_end {A : Type} (actions : list A) (index newIndex : Z) :
  Z.of_nat (length actions) < newIndex ->
  exists msg, moveTo actions index (BeforeAction newIndex) = Throw msg.
Proof.
  intros Hgt. unfold moveTo.
  destruct (actionAt actions index); [|eexists; reflexivity].
  unfold actionAt at 1.
  assert (Hr : (1 <=? newIndex) && (newIndex <=? Z.of_nat (length actions))
               = false).
  { apply andb_false_iff. right. apply Z.leb_gt. exact Hgt. }
  rewrite Hr. eexists. reflexivity.
Qed.

Lemma runCommand_past_end {A : Type} (actions : list A) (index newIndex : Z)
    (a : A) :
  actionAt actions index = Some a ->
  Z.of_nat (length actions) < newIndex ->
  runCommand (moveActionCommand index newIndex) actions
  = Ok (removeAt actions index ++ [a]).
Proof.
  intros Ha Hgt. simpl. apply Z.ltb_lt in Hgt. rewrite Hgt.
  unfold moveTo. rewrite Ha. reflexivity.
Qed.

Lemma runCommand_same {A : Type} (actions : list A) (index : Z) (a : A) :
  actionAt actions index = Some a ->
  runCommand (moveActionCommand index index) actions = Ok actions.
Proof.
  intros Ha. simpl. pose proof (actionAt_Some _ _ _ Ha) as [Hr _].
  assert (Hnlt : (Z.of_nat (length actions) <? index) = false)
    by (apply Z.ltb_ge; lia).
  rewrite Hnlt. unfold moveTo. rewrite Ha, Z.eqb_refl. reflexivity.
Qed.

Lemma runCommand_before {A : Type} (actions : list A) (index newIndex : Z)
    (a b : A) :
  actionAt actions index = Some a ->
  actionAt actions newIndex = Some b -> index <> newIndex ->
  exists front back,
    runCommand (moveActionCommand index newIndex) actions
    = Ok (front ++ a :: b :: back) /\
    removeAt actions index = front ++ b :: back.
Proof.
  intros Ha Hb Hne. simpl.
  pose proof (actionAt_Some _ _ _ Ha) as [Hri Hli].
  pose proof (actionAt_Some _ _ _ Hb) as [Hrj Hlj].
  assert (Hnlt : (Z.of_nat (length actions) <? newIndex) = false)
    by (apply Z.ltb_ge; lia).
  rewrite Hnlt. unfold moveTo. rewrite Ha, Hb.
  assert (Hneq : (index =? newIndex) = false) by (apply Z.eqb_neq, Hne).
  rewrite Hneq. unfold insertBefore.
  set (pos := Z.to_nat (if index <? newIndex then newIndex - 2
                        else newIndex - 1)).
  exists (take pos (removeAt actions index)),
         (drop (S pos) (removeAt actions index)).
  assert (Hpos : removeAt actions index !! pos = Some b).
  { unfold removeAt.
    replace (Z.to_nat index) with (S (Z.to_nat (index - 1))) by lia.
    rewrite <- Hlj. subst pos. destruct (index <? newIndex) eqn:Hlt.
    - apply Z.ltb_lt in Hlt.
      replace (Z.to_nat (newIndex - 2))
        with ((Z.to_nat (newIndex - 1) - 1)%nat) by lia.
      apply removeAt_lookup_after; lia.
    - apply Z.ltb_ge in Hlt.
      apply removeAt_lookup_before; lia. }
  rewrite (drop_S _ _ _ Hpos).
  split; [reflexivity|].
  rewrite <- (drop_S _ _ _ Hpos), take_drop. reflexivity.
Qed.

(** [moveAction] on the host with the engine: the command of the template
    runs on the first macro that the identifier names. *)
Lemma moveAction_runs {A : Type} (macroIdentifier : string)
    (index newIndex : Z) (before after : list (Macro A)) (m : Macro A)
    (actions : list A) (w : World (Engine A)) :
  Without dquote macroIdentifier -> Without backslash macroIdentifier ->
  Without LF macroIdentifier ->
  0 <= index -> 0 <= newIndex ->
  engineMacros (ext w) = before ++ m :: after ->
  Forall (fun m' => refersTo macroIdentifier macroIdentifier m' = false)
    before ->
  refersTo macroIdentifier macroIdentifier m = true ->
  runCommand (moveActionCommand index newIndex) (macroActions m)
  = Ok actions ->
  moveAction macroIdentifier index newIndex w
  = (Ok ("Moved action " +:+ numberToString index +:+ " to index "
         +:+ numberToString newIndex +:+ " in macro "
         +:+ quoted macroIdentifier),
     mkWorld
       (mkEngine
          (before ++ mkMacro (macroTitle m) (macroUid m) actions :: after))
       (trace w
        ++ [EvExec (osascriptHeredoc
                      (moveActionScript macroIdentifier index newIndex))])
       (prototypePolluted w)).
Proof.
  intros Hq Hb Hl Hi Hn Hx Hbefore Hm Hrun.
  unfold moveAction, tryCatch, bind, runAppleScriptFile, tryCatch, bind,
    exec, ret, emit.
  change (execAsync ?c ?x) with (engineExec c x).
  rewrite (engineExec_moveActionScript _ _ _ before after m (ext w)
             Hq Hb Hl Hi Hn Hx Hbefore Hm), Hrun.
  reflexivity.
Qed.

(** C7: [moveAction], on a host whose engine holds the macro that the
    identifier names, with an action at the index: when the new index is
    greater than the number of actions of the macro, the call succeeds
    and the action is the last action of the macro afterwards, the other
    actions in their order, and no out-of-range error is raised;
    otherwise, for a new index of another existing action, the action
    is just before that action afterwards, the others keeping their
    order, and for the index itself nothing moves.  In each case no other
    macro changes and the one request to the host is the script of the
    template.  The identifier holds no double quote, backslash or line
    feed, and the two positions are numbers that hold them exactly. *)
Theorem moveAction_past_end {A : Type} (macroIdentifier : string)
    (index newIndex : Z) (before after : list (Macro A)) (m : Macro A)
    (a : A) (w : World (Engine A)) :
  Without dquote macroIdentifier -> Without backslash macroIdentifier ->
  Without LF macroIdentifier ->
  engineMacros (ext w) = before ++ m :: after ->
  Forall (fun m' => refersTo macroIdentifier macroIdentifier m' = false)
    before ->
  refersTo macroIdentifier macroIdentifier m = true ->
  actionAt (macroActions m) index = Some a ->
  index <= 2 ^ 53 -> newIndex <= 2 ^ 53 ->
  let moved (actions : list A) :=
    (Ok ("Moved action " +:+ numberToString index +:+ " to index "
         +:+ numberToString newIndex +:+ " in macro "
         +:+ quoted macroIdentifier),
     mkWorld
       (mkEngine
          (before ++ mkMacro (macroTitle m) (macroUid m) actions :: after))
       (trace w
        ++ [EvExec (osascriptHeredoc
                      (moveActionScript macroIdentifier index newIndex))])
       (prototypePolluted w)) in
  (Z.of_nat (length (macroActions m)) < newIndex ->
   moveAction macroIdentifier index newIndex w
   = moved (removeAt (macroActions m) index ++ [a])) /\
  (forall b,
     actionAt (macroActions m) newIndex = Some b -> index <> newIndex ->
     exists front back,
       moveAction macroIdentifier index newIndex w
       = moved (front ++ a :: b :: back) /\
       removeAt (macroActions m) index = front ++ b :: back) /\
  (newIndex = index ->
   moveAction macroIdentifier index newIndex w = moved (macroActions m)).
Proof.
  intros Hq Hb Hl Hx Hbefore Hm Ha _ _ moved.
  pose proof (actionAt_Some _ _ _ Ha) as [Hri _].
  split; [|split].
  - intros Hgt. subst moved.
    apply (moveAction_runs macroIdentifier index newIndex before after m);
      try assumption; [lia | lia |].
    apply runCommand_past_end; assumption.
  - intros b Hnb Hne.
    destruct (runCommand_before _ _ _ a b Ha Hnb Hne)
      as (front & back & Hrun & Hrem).
    exists front, back. split; [|exact Hrem]. subst moved.
    pose proof (actionAt_Some _ _ _ Hnb) as [Hrj _].
    apply (moveAction_runs macroIdentifier index newIndex before after m);
      try assumption; lia.
  - intros ->. subst moved.
    apply (moveAction_runs macroIdentifier index index before after m);
      try assumption; [lia | lia |].
    apply (runCommand_same _ _ a Ha).
Qed.

(** Moving action 1 to index 5 in a macro of four actions puts it last. *)
Lemma moveAction_past_end_witness :
  moveAction "Nightly" 1 5
    (mkWorld
       (mkEngine [mkMacro "Weekly" "U0" ["b1"];
                  mkMacro "Nightly" "U1" ["a1"; "a2"; "a3"; "a4"]])
       [] false)
  = (Ok ("Moved action 1 to index 5 in macro " +:+ quoted "Nightly"),
     mkWorld
       (mkEngine [mkMacro "Weekly" "U0" ["b1"];
                  mkMacro "Nightly" "U1" ["a2"; "a3"; "a4"; "a1"]])
       [EvExec (osascriptHeredoc (moveActionScript "Nightly" 1 5))]
       false).
Proof.
  apply (proj1 (moveAction_past_end "Nightly" 1 5
                  [mkMacro "Weekly" "U0" ["b1"]] []
                  (mkMacro "Nightly" "U1" ["a1"; "a2"; "a3"; "a4"]) "a1"
                  (mkWorld
                     (mkEngine
                        [mkMacro "Weekly" "U0" ["b1"];
                         mkMacro "Nightly" "U1" ["a1"; "a2"; "a3"; "a4"]])
                     [] false)
                  ltac:(repeat constructor) ltac:(repeat constructor)
                  ltac:(repeat constructor) eq_refl
                  ltac:(repeat constructor) eq_refl eq_refl
                  ltac:(lia) ltac:(lia))).
  simpl. lia.
Defined.

(** The same call, run: the host reads the command of the shell, the
    engine reads the script and moves the action.  Moving action 3 to
    index 1 puts it first, and on an identifier that ends the literal of
    the script the engine reports a syntax error. *)
Example moveAction_examples :
  moveAction "Nightly" 1 5
    (mkWorld (mkEngine [mkMacro "Nightly" "U1" ["a1"; "a2"; "a3"; "a4"]])
       [] false)
  = (Ok ("Moved action 1 to index 5 in macro " +:+ quoted "Nightly"),
     mkWorld (mkEngine [mkMacro "Nightly" "U1" ["a2"; "a3"; "a4"; "a1"]])
       [EvExec (osascriptHeredoc (moveActionScript "Nightly" 1 5))] false) /\
  engineMacros
    (ext (snd (moveAction "U1" 3 1
                 (mkWorld
                    (mkEngine [mkMacro "Nightly" "U1" ["a1"; "a2"; "a3"; "a4"]])
                    [] false))))
  = [mkMacro "Nightly" "U1" ["a3"; "a1"; "a2"; "a4"]] /\
  fst (moveAction ("Night" +:+ DQ +:+ "ly") 1 5
         (mkWorld
            (mkEngine [mkMacro "Nightly" "U1" ["a1"; "a2"; "a3"; "a4"]])
            [] false))
  = Throw ("Failed to move action: AppleScript error: "
           +:+ "Command failed: syntax error").
Proof. repeat split; vm_compute; reflexivity. Qed.

(** ** Moving an action keeps the actions *)

Lemma removeAt_Permutation {A : Type} (actions : list A) (index : Z) (a : A) :
  actionAt actions index = Some a ->
  a :: removeAt actions index ≡ₚ actions.
Proof.
  intros Ha. apply actionAt_Some in Ha as [Hr Hl]. unfold removeAt.
  replace (Z.to_nat index) with (S (Z.to_nat (index - 1))) by lia.
  rewrite <- (take_drop_middle _ _ _ Hl) at 3.
  apply Permutation_middle.
Qed.

Lemma runCommand_permutation {A : Type} (actionIndex newIndex : Z)
    (actions moved : list A) :
  runCommand (moveActionCommand actionIndex newIndex) actions = Ok moved ->
  moved ≡ₚ actions.
Proof.
  simpl. unfold moveTo.
  destruct (actionAt actions actionIndex) as [a|] eqn:Ha;
    [|destruct (_ <? _); discriminate].
  pose proof (removeAt_Permutation _ _ _ Ha) as Hperm.
  destruct (_ <? _).
  - intros [= <-]. etransitivity; [|exact Hperm].
    symmetry. apply Permutation_cons_append.
  - destruct (actionAt actions newIndex); [|discriminate].
    destruct (actionIndex =? newIndex); intros [= <-]; [reflexivity|].
    unfold insertBefore. etransitivity; [|exact Hperm].
    rewrite <- Permutation_middle, take_drop. reflexivity.
Qed.

(** X21: when [moveAction] succeeds on a host whose engine holds the macro
    that the identifier names, that macro holds the same actions as
    before, each as many times as before, and no other macro changes.  The
    identifier holds no double quote, backslash or line feed, and the two
    positions are numbers that hold them exactly. *)
Theorem moveAction_permutation {A : Type} (macroIdentifier : string)
    (actionIndex newIndex : Z) (before after : list (Macro A))
    (m : Macro A) (w w' : World (Engine A)) (msg : string) :
  Without dquote macroIdentifier -> Without backslash macroIdentifier ->
  Without LF macroIdentifier ->
  engineMacros (ext w) = before ++ m :: after ->
  Forall (fun m' => refersTo macroIdentifier macroIdentifier m' = false)
    before ->
  refersTo macroIdentifier macroIdentifier m = true ->
  0 <= actionIndex <= 2 ^ 53 -> 0 <= newIndex <= 2 ^ 53 ->
  moveAction macroIdentifier actionIndex newIndex w = (Ok msg, w') ->
  exists actions,
    engineMacros (ext w')
    = before ++ mkMacro (macroTitle m) (macroUid m) actions :: after /\
    actions ≡ₚ macroActions m.
Proof.
  intros Hq Hb Hl Hx Hbefore Hm [Hi _] [Hn _].
  destruct (runCommand (moveActionCommand actionIndex newIndex)
              (macroActions m)) as [actions|e] eqn:Hrun.
  - rewrite (moveAction_runs macroIdentifier actionIndex newIndex before
               after m actions w Hq Hb Hl Hi Hn Hx Hbefore Hm Hrun).
    intros [= _ <-]. exists actions. split; [reflexivity|].
    exact (runCommand_permutation _ _ _ _ Hrun).
  - unfold moveAction, tryCatch, bind, runAppleScriptFile, tryCatch, bind,
      exec, ret, emit, throw.
    change (execAsync ?c ?x) with (engineExec c x).
    rewrite (engineExec_moveActionScript _ _ _ before after m (ext w)
               Hq Hb Hl Hi Hn Hx Hbefore Hm), Hrun.
    discriminate.
Qed.

Lemma moveAction_permutation_witness :
  exists actions,
    engineMacros
      (ext (snd (moveAction "Nightly" 2 1
                   (mkWorld
                      (mkEngine [mkMacro "Nightly" "U1" ["a1"; "a2"; "a3"]])
                      [] false))))
    = [mkMacro "Nightly" "U1" actions] /\
    actions ≡ₚ ["a1"; "a2"; "a3"].
Proof.
  destruct (moveAction "Nightly" 2 1
              (mkWorld (mkEngine [mkMacro "Nightly" "U1" ["a1"; "a2"; "a3"]])
                 [] false)) as [[msg|e] w'] eqn:Heq;
    [|vm_compute in Heq; discriminate Heq].
  apply (moveAction_permutation "Nightly" 2 1 [] []
           (mkMacro "Nightly" "U1" ["a1"; "a2"; "a3"])
           (mkWorld (mkEngine [mkMacro "Nightly" "U1" ["a1"; "a2"; "a3"]])
              [] false) w' msg
           ltac:(repeat constructor) ltac:(repeat constructor)
           ltac:(repeat constructor) eq_refl
           ltac:(constructor) eq_refl
           ltac:(lia) ltac:(lia) Heq).
Defined.
